(** * mongolify: rule trees, overrides, JSON-Schema emission and caches

    A shallow embedding of the schema-derivation core of mongolify
    (mongooseIntrospect, jsonSchemaCompiler, cacheRegistry, ajvEngine)
    together with the properties its specification states about it.

    Conventions of the embedding:
    - a JavaScript object used as a string-keyed map is an association list
      in property-enumeration order ([Obj]); [obj_set] follows the
      engine's ordering of own keys (array-index keys first, ascending, then
      the other keys in creation order);
    - an optional property of a record is a [prop]: it can be absent, present
      with the value [undefined], or present with a value (object spread
      copies the second, so the source can tell them apart);
    - a thrown exception is the result [None] of a function into [option];
    - numbers are integers or NaN ([JsNumber]);
    - rule trees are values: two positions of a tree are two objects.  The
      module [Store] models the override engine over a heap of shared
      children maps, for what depends on sharing. *)

From Stdlib Require Import List String Ascii ZArith Bool Lia PeanoNat.
From Stdlib Require Import DecimalString.
Import ListNotations.
Local Open Scope string_scope.
Local Open Scope list_scope.

Set Implicit Arguments.
Set Warnings "-register-all".

(* ------------------------------------------------------------------ *)
(** ** JavaScript values used by the library *)

Inductive prop (A : Type) : Type :=
| Absent
| Undefined
| Val (a : A).
Arguments Absent {A}.
Arguments Undefined {A}.

Inductive JsNumber : Type :=
| Num (z : Z)
| NaN.

(** [x != null] on an optional property. *)
Definition not_nullish {A} (p : prop A) : bool :=
  match p with Val _ => true | _ => false end.

Definition truthy_bool (p : prop bool) : bool :=
  match p with Val true => true | _ => false end.

(* ------------------------------------------------------------------ *)
(** ** Objects as ordered maps

    An object is the list of its own enumerable properties in the order
    [Object.entries] gives them.  [obj_get] reads among the own properties
    and [obj_set] is the assignment [m[k] = v] that makes [k] an own
    property: they are the source's [m[k]] for every name an object
    literal neither inherits from [Object.prototype] nor treats as its
    prototype (["__proto__"]).  The properties that depend on such a name
    carry a hypothesis on the names of the paths. *)

Definition Obj (A : Type) : Type := list (string * A).

Fixpoint obj_get {A} (k : string) (m : Obj A) : option A :=
  match m with
  | [] => None
  | (k', v) :: rest => if String.eqb k k' then Some v else obj_get k rest
  end.

Definition obj_has {A} (k : string) (m : Obj A) : bool :=
  match obj_get k m with Some _ => true | None => false end.

Definition obj_keys {A} (m : Obj A) : list string := map fst m.

Definition is_digit (c : ascii) : bool :=
  let n := nat_of_ascii c in (48 <=? n)%nat && (n <=? 57)%nat.

Fixpoint digits_value (s : string) (acc : N) : option N :=
  match s with
  | EmptyString => Some acc
  | String c rest =>
      if is_digit c
      then digits_value rest (acc * 10 + N.of_nat (nat_of_ascii c - 48))%N
      else None
  end.

(** A canonical array index: ["0"], or digits without a leading zero, below
    2^32 - 1.  Such keys are enumerated first, in ascending order. *)
Definition array_index (k : string) : option N :=
  match k with
  | EmptyString => None
  | String c rest =>
      if andb (Ascii.eqb c "0") (negb (String.eqb rest EmptyString)) then None
      else match digits_value k 0%N with
           | Some n => if (n <? 4294967295)%N then Some n else None
           | None => None
           end
  end.

Fixpoint obj_replace {A} (k : string) (v : A) (m : Obj A) : Obj A :=
  match m with
  | [] => []
  | (k', v') :: rest =>
      if String.eqb k k' then (k', v) :: rest
      else (k', v') :: obj_replace k v rest
  end.

(** Position of a new array-index key: before the first key that is not an
    index or is a larger index. *)
Fixpoint obj_insert_index {A} (n : N) (k : string) (v : A) (m : Obj A)
  : Obj A :=
  match m with
  | [] => [(k, v)]
  | (k', v') :: rest =>
      match array_index k' with
      | Some n' =>
          if (n' <? n)%N then (k', v') :: obj_insert_index n k v rest
          else (k, v) :: (k', v') :: rest
      | None => (k, v) :: (k', v') :: rest
      end
  end.

(** [m[k] = v]. *)
Definition obj_set {A} (k : string) (v : A) (m : Obj A) : Obj A :=
  if obj_has k m then obj_replace k v m
  else match array_index k with
       | Some n => obj_insert_index n k v m
       | None => m ++ [(k, v)]
       end.

(** [delete m[k]]. *)
Fixpoint obj_delete {A} (k : string) (m : Obj A) : Obj A :=
  match m with
  | [] => []
  | (k', v') :: rest =>
      if String.eqb k k' then rest else (k', v') :: obj_delete k rest
  end.

(** [new Set(arr).has(k)] and [arr.includes(k)]. *)
Definition str_mem (k : string) (l : list string) : bool :=
  existsb (String.eqb k) l.

(* ------------------------------------------------------------------ *)
(** ** Dotted paths *)

(** [path.split('.')]: never empty; the empty string splits to [[""]]. *)
Fixpoint split_dot_aux (s : string) (cur : string) : list string :=
  match s with
  | EmptyString => [cur]
  | String c rest =>
      if Ascii.eqb c "." then cur :: split_dot_aux rest EmptyString
      else split_dot_aux rest (cur ++ String c EmptyString)
  end.

Definition split_dot (path : string) : list string :=
  split_dot_aux path EmptyString.

(** [prefix ? `${prefix}.${k}` : k]. *)
Definition join_path (prefix k : string) : string :=
  if String.eqb prefix EmptyString then k else prefix ++ "." ++ k.

(* ------------------------------------------------------------------ *)
(** ** Constraint model (types.d.ts) *)

Inductive PrimitiveType : Type :=
| TString | TNumber | TBoolean | TDate | TObjectId
| TArray | TObject | TMixed | TBuffer.

Definition PrimitiveType_eqb (a b : PrimitiveType) : bool :=
  match a, b with
  | TString, TString | TNumber, TNumber | TBoolean, TBoolean
  | TDate, TDate | TObjectId, TObjectId | TArray, TArray
  | TObject, TObject | TMixed, TMixed | TBuffer, TBuffer => true
  | _, _ => false
  end.

(** [node.type === t]. *)
Definition type_is (p : prop PrimitiveType) (t : PrimitiveType) : bool :=
  match p with Val t' => PrimitiveType_eqb t' t | _ => false end.

(** [pattern?: RegExp | string]; a RegExp is kept by its [source]. *)
Inductive Pattern : Type :=
| PatString (s : string)
| PatRegExp (source : string).

Inductive Rule : Type :=
  mkRule {
    type : prop PrimitiveType;
    required : prop bool;
    minLength : prop JsNumber;
    maxLength : prop JsNumber;
    pattern : prop Pattern;
    enum : prop (list string);
    min : prop JsNumber;
    max : prop JsNumber;
    items : prop Rule;
    minItems : prop JsNumber;
    maxItems : prop JsNumber;
    children : prop (list (string * Rule))
  }.

(** [{ type }]: a rule with only its type. *)
Definition rule_of_type (t : PrimitiveType) : Rule :=
  mkRule (Val t) Absent Absent Absent Absent Absent Absent Absent Absent Absent
         Absent Absent.

(** The root container; its [type] is ['object'] in every root the library
    makes and is left out.  The object literal of the no-schema sentinel
    carries a [fields] property that [RuleTree] does not declare, so the
    root record has both. *)
Record RuleTree : Type :=
  mkRuleTree {
    rt_children : prop (Obj Rule);
    rt_fields : prop (Obj Rule)
  }.

Record Overrides : Type :=
  mkOverrides {
    include : prop (list string);
    exclude : prop (list string);
    optional : prop (list string);
    required_paths : prop (list string);
    append : prop (Obj Rule)
  }.

Record ValidatorOptions : Type :=
  mkOptions {
    coerceTypes : prop bool;
    allowUnknown : prop bool
  }.

Definition no_overrides : Overrides :=
  mkOverrides Absent Absent Absent Absent Absent.

Definition no_options : ValidatorOptions := mkOptions Absent Absent.

(* ------------------------------------------------------------------ *)
(** ** Field updates on rules *)

Definition set_required (b : prop bool) (r : Rule) : Rule :=
  mkRule (type r) b (minLength r) (maxLength r) (pattern r) (enum r)
         (min r) (max r) (items r) (minItems r) (maxItems r) (children r).

Definition set_children (c : prop (Obj Rule)) (r : Rule) : Rule :=
  mkRule (type r) (required r) (minLength r) (maxLength r) (pattern r)
         (enum r) (min r) (max r) (items r) (minItems r) (maxItems r) c.

Definition set_type (t : PrimitiveType) (r : Rule) : Rule :=
  mkRule (Val t) (required r) (minLength r) (maxLength r) (pattern r)
         (enum r) (min r) (max r) (items r) (minItems r) (maxItems r)
         (children r).

(** [{ type: 'object', children: {} }]. *)
Definition empty_object_rule : Rule :=
  set_children (Val []) (rule_of_type TObject).

(** The map a truthiness test on [children] lets through. *)
Definition children_or_empty (r : Rule) : Obj Rule :=
  match children r with Val m => m | _ => [] end.

(* ------------------------------------------------------------------ *)
(** ** Schema introspector (mongooseIntrospect) *)

(** What the introspector reads of a field's [options].  [enum] is falsy,
    an array, or a truthy value that is no array and has no [slice] method
    (the [{values, message}] object of Mongoose, a number, [true]).  A
    non-empty string, which has [slice] without being an array, is not
    represented. *)
Inductive EnumOption : Type :=
| EnumFalsy
| EnumArray (values : list string)
| EnumNoSlice.

Inductive MatchOption : Type :=
| MatchFalsy
| MatchRegExp (source : string)
| MatchString (text : string).

Record Options : Type :=
  mkOpts {
    o_required : bool;               (* truthiness of [opts.required] *)
    o_enum : EnumOption;
    o_match : MatchOption;
    o_minlength : option JsNumber;   (* [None]: null or undefined *)
    o_maxlength : option JsNumber;
    o_min : option JsNumber;
    o_max : option JsNumber;
    o_minItems : option JsNumber;
    o_maxItems : option JsNumber
  }.

(** [schematype.options || {}]. *)
Definition no_opts : Options :=
  mkOpts false EnumFalsy MatchFalsy None None None None None None.

(** A field descriptor; [caster] is the element descriptor of an array and
    [schema] the enumeration of a sub-schema's paths. *)
Inductive SchemaType : Type :=
  mkSchemaType {
    instance : string;
    options : option Options;
    caster : option SchemaType;
    schema : option (list (string * SchemaType))
  }.

(** The argument of the compiler: a falsy value, an object without
    [eachPath], or a schema object (identified by [ref]) enumerating its
    paths. *)
Inductive SchemaArg : Type :=
| SchemaNull
| SchemaNoEachPath (ref : nat)
| SchemaObj (ref : nat) (eachPath : list (string * SchemaType)).

Definition mapInstanceToType (inst : string) : PrimitiveType :=
  if String.eqb inst "String" then TString
  else if String.eqb inst "Number" then TNumber
  else if String.eqb inst "Boolean" then TBoolean
  else if String.eqb inst "Date" then TDate
  else if String.eqb inst "ObjectID" then TObjectId
  else if String.eqb inst "Decimal128" then TNumber
  else if String.eqb inst "Buffer" then TBuffer
  else if String.eqb inst "Array" then TArray
  else if String.eqb inst "Embedded" then TObject
  else TMixed.

(** [setNested], on the children map of the node it starts from: a missing
    or falsy [children] is created, a missing segment is created as an empty
    object node, and the leaf is assigned at the last segment.  A segment
    is looked up among the own properties of the map, which is what the
    source does for names the map does not inherit. *)
Fixpoint setNested_parts (parts : list string) (value : Rule)
         (ch : Obj Rule) : Obj Rule :=
  match parts with
  | [] => ch
  | [last] => obj_set last value ch
  | seg :: rest =>
      let child :=
        match obj_get seg ch with
        | Some c => c
        | None => empty_object_rule
        end in
      obj_set seg
        (set_children
           (Val (setNested_parts rest value (children_or_empty child)))
           child)
        ch
  end.

Definition setNested (root : RuleTree) (path : string) (value : Rule)
  : RuleTree :=
  mkRuleTree
    (Val (setNested_parts (split_dot path) value
            (match rt_children root with Val m => m | _ => [] end)))
    (rt_fields root).

(** [new Date(n).getTime()] for a number [n]: the time value, or NaN outside
    the range of time values. *)
Definition date_getTime (n : JsNumber) : JsNumber :=
  match n with
  | Num z => if (Z.abs z <=? 8640000000000000)%Z then Num z else NaN
  | NaN => NaN
  end.

(** [x instanceof RegExp ? x : new RegExp(x)]; [RegExp_new] gives the source
    of the constructed expression, or [None] when the constructor throws. *)
Definition pattern_of_match (RegExp_new : string -> option string)
           (m : MatchOption) : option (prop Pattern) :=
  match m with
  | MatchFalsy => Some Absent
  | MatchRegExp src => Some (Val (PatRegExp src))
  | MatchString s =>
      match RegExp_new s with
      | Some src => Some (Val (PatRegExp src))
      | None => None
      end
  end.

Definition set_items (i : prop Rule) (r : Rule) : Rule :=
  mkRule (type r) (required r) (minLength r) (maxLength r) (pattern r)
         (enum r) (min r) (max r) i (minItems r) (maxItems r) (children r).

(** String constraints lifted from a field's options. *)
Definition lift_string (RegExp_new : string -> option string)
           (opts : Options) (r : Rule) : option Rule :=
  match pattern_of_match RegExp_new (o_match opts) with
  | None => None
  | Some pat =>
      Some (mkRule (type r) (required r)
              (match o_minlength opts with
               | Some n => Val n | None => minLength r end)
              (match o_maxlength opts with
               | Some n => Val n | None => maxLength r end)
              (match pat with Absent => pattern r | p => p end)
              (match o_enum opts with
               | EnumFalsy => enum r
               | EnumArray vs => Val vs
               | EnumNoSlice => Undefined
               end)
              (min r) (max r) (items r) (minItems r) (maxItems r)
              (children r))
  end.

(** Bounds lifted for numbers ([conv] is the identity) and dates ([conv] is
    [date_getTime]). *)
Definition lift_bounds (conv : JsNumber -> JsNumber) (opts : Options)
           (r : Rule) : Rule :=
  mkRule (type r) (required r) (minLength r) (maxLength r) (pattern r)
         (enum r)
         (match o_min opts with Some n => Val (conv n) | None => min r end)
         (match o_max opts with Some n => Val (conv n) | None => max r end)
         (items r) (minItems r) (maxItems r) (children r).

Definition lift_item_counts (opts : Options) (r : Rule) : Rule :=
  mkRule (type r) (required r) (minLength r) (maxLength r) (pattern r)
         (enum r) (min r) (max r) (items r)
         (match o_minItems opts with Some n => Val n | None => minItems r end)
         (match o_maxItems opts with Some n => Val n | None => maxItems r end)
         (children r).

(** The [items] rule of an array field, before a sub-schema is attached:
    [cOpts.enum.slice()] throws when the truthy [enum] has no [slice]
    method. *)
Definition items_of_caster (RegExp_new : string -> option string)
           (cinst : string) (copts : option Options) : option Rule :=
  let itemType := mapInstanceToType cinst in
  let cOpts := match copts with Some o => o | None => no_opts end in
  let it := rule_of_type itemType in
  match
    (if PrimitiveType_eqb itemType TString then
       match o_enum cOpts with
       | EnumNoSlice => None
       | _ => lift_string RegExp_new cOpts it
       end
     else Some it)
  with
  | None => None
  | Some it1 =>
      Some (if PrimitiveType_eqb itemType TNumber
            then lift_bounds (fun n => n) cOpts it1 else it1)
  end.

(** The rule compiled for one field: the body of the [eachPath] callback up
    to the call of [setNested].  The inner [walk] is the recursive call of
    the compiler on a sub-schema, returning the [children] of its root. *)
Fixpoint compile_field (RegExp_new : string -> option string)
         (st : SchemaType) : option Rule :=
  let walk :=
    fix walk (ps : list (string * SchemaType)) (tree : Obj Rule)
      : option (Obj Rule) :=
      match ps with
      | [] => Some tree
      | (path, f) :: rest =>
          match compile_field RegExp_new f with
          | Some r => walk rest (setNested_parts (split_dot path) r tree)
          | None => None
          end
      end in
  match st with
  | mkSchemaType inst oopts cast sch =>
      let t := mapInstanceToType inst in
      let opts := match oopts with Some o => o | None => no_opts end in
      let r0 := set_required (Val (o_required opts)) (rule_of_type t) in
      match
        (if PrimitiveType_eqb t TString
         then lift_string RegExp_new opts r0 else Some r0)
      with
      | None => None
      | Some r1 =>
          let r2 := if PrimitiveType_eqb t TNumber
                    then lift_bounds (fun n => n) opts r1 else r1 in
          let r3 := if PrimitiveType_eqb t TDate
                    then lift_bounds date_getTime opts r2 else r2 in
          match
            (if PrimitiveType_eqb t TArray then
               match
                 match cast with
                 | None => Some r3
                 | Some (mkSchemaType cinst copts _ csch) =>
                     match items_of_caster RegExp_new cinst copts with
                     | None => None
                     | Some it =>
                         match csch with
                         | None => Some (set_items (Val it) r3)
                         | Some cps =>
                             match walk cps [] with
                             | None => None
                             | Some ch =>
                                 Some (set_items
                                         (Val (set_children (Val ch)
                                                 (set_type TObject it)))
                                         r3)
                             end
                         end
                     end
                 end
               with
               | None => None
               | Some r => Some (lift_item_counts opts r)
               end
             else Some r3)
          with
          | None => None
          | Some r4 =>
              match sch with
              | None => Some r4
              | Some ps =>
                  match walk ps [] with
                  | None => None
                  | Some ch =>
                      Some (set_children (Val ch) (set_type TObject r4))
                  end
              end
          end
      end
  end.

(** The [eachPath] walk of the compiler over a root being built. *)
Fixpoint compile_paths (RegExp_new : string -> option string)
         (ps : list (string * SchemaType)) (tree : RuleTree)
  : option RuleTree :=
  match ps with
  | [] => Some tree
  | (path, f) :: rest =>
      match compile_field RegExp_new f with
      | Some r => compile_paths RegExp_new rest (setNested tree path r)
      | None => None
      end
  end.

(** [{ type: 'object', children: {} }], the root the compiler starts from. *)
Definition empty_root : RuleTree := mkRuleTree (Val []) Absent.

(** [compileRulesFromMongooseSchema]: [None] is a thrown error, among them
    'Schema must expose eachPath(fn)'. *)
Definition compileRulesFromMongooseSchema
           (RegExp_new : string -> option string) (s : SchemaArg)
  : option RuleTree :=
  match s with
  | SchemaObj _ ps => compile_paths RegExp_new ps empty_root
  | _ => None
  end.

(* ------------------------------------------------------------------ *)
(** ** Override engine (jsonSchemaCompiler: mergeRules, flatten,
       applyOverrides) *)

(** One property of [{ ...base, ...overlay }]: an own property of the
    overlay wins, also when its value is [undefined]. *)
Definition spread_prop {A} (base overlay : prop A) : prop A :=
  match overlay with Absent => base | _ => overlay end.

Definition mergeRules (base overlay : Rule) : Rule :=
  mkRule (spread_prop (type base) (type overlay))
         (spread_prop (required base) (required overlay))
         (spread_prop (minLength base) (minLength overlay))
         (spread_prop (maxLength base) (maxLength overlay))
         (spread_prop (pattern base) (pattern overlay))
         (spread_prop (enum base) (enum overlay))
         (spread_prop (min base) (min overlay))
         (spread_prop (max base) (max overlay))
         (spread_prop (items base) (items overlay))
         (spread_prop (minItems base) (minItems overlay))
         (spread_prop (maxItems base) (maxItems overlay))
         (spread_prop (children base) (children overlay)).

(** [{ type: 'string', required: true }]. *)
Definition append_default : Rule :=
  set_required (Val true) (rule_of_type TString).

(** One entry of the loop of [flatten]: an object node with children is
    expanded under its dotted path, anything else is recorded there
    ([out[path] = child], an own property of [out] for every path but
    ["__proto__"]). *)
Fixpoint flatten_entry (child : Rule) (path : string) (out : Obj Rule)
  : Obj Rule :=
  match child with
  | mkRule t _ _ _ _ _ _ _ _ _ _ ch =>
      match type_is t TObject, ch with
      | true, Val m =>
          (fix entries (es : list (string * Rule)) (out : Obj Rule)
             : Obj Rule :=
             match es with
             | [] => out
             | (k, c) :: rest =>
                 entries rest (flatten_entry c (join_path path k) out)
             end) m out
      | _, _ => obj_set path child out
      end
  end.

Fixpoint flatten_entries (es : Obj Rule) (prefix : string) (out : Obj Rule)
  : Obj Rule :=
  match es with
  | [] => out
  | (k, c) :: rest =>
      flatten_entries rest prefix (flatten_entry c (join_path prefix k) out)
  end.

(** [flatten(tree)], with [prefix = ''] and [out = {}]. *)
Definition flatten (tree : RuleTree) : Obj Rule :=
  flatten_entries (match rt_children tree with Val m => m | _ => [] end)
                  EmptyString [].

(** [overrides.include?.length ? new Set(overrides.include) : null]. *)
Definition include_set (o : Overrides) : option (list string) :=
  match include o with
  | Val (x :: l) => Some (x :: l)
  | _ => None
  end.

(** [new Set(x || [])]. *)
Definition set_or_empty (p : prop (list string)) : list string :=
  match p with Val l => l | _ => [] end.

(** The body of the first loop of [applyOverrides] for one entry of the
    flattened base map. *)
Definition select_entry (o : Overrides) (effective : Obj Rule)
           (e : string * Rule) : Obj Rule :=
  let (path, rule) := e in
  if match include_set o with
     | Some inc => negb (str_mem path inc)
     | None => false
     end then effective
  else if str_mem path (set_or_empty (exclude o)) then effective
  else
    let r := rule in
    let r := if str_mem path (set_or_empty (optional o))
             then set_required (Val false) r else r in
    let r := if str_mem path (set_or_empty (required_paths o))
             then set_required (Val true) r else r in
    obj_set path r effective.

(** [effective] after the loop over the base map ([effective[path] = r],
    an own property for every path but ["__proto__"]). *)
Definition effective_base (ruleTree : RuleTree) (o : Overrides) : Obj Rule :=
  fold_left (select_entry o) (flatten ruleTree) [].

(** [effective] after the loop over [overrides.append || {}]. *)
Definition effective_all (ruleTree : RuleTree) (o : Overrides) : Obj Rule :=
  fold_left
    (fun eff e => obj_set (fst e) (mergeRules append_default (snd e)) eff)
    (match append o with Val m => m | _ => [] end)
    (effective_base ruleTree o).

(** The rebuild of one path below a children map: a missing segment becomes
    an empty object node; reaching a node whose [children] is missing
    throws.  A segment is looked up among the own properties of the map:
    for a name the map inherits the source finds the inherited value
    instead, and the last segment ["__proto__"] is no own property of the
    result. *)
Fixpoint attach_parts (parts : list string) (rule : Rule) (ch : Obj Rule)
  : option (Obj Rule) :=
  match parts with
  | [] => Some ch
  | [last] => Some (obj_set last rule ch)
  | seg :: rest =>
      let child :=
        match obj_get seg ch with
        | Some c => c
        | None => empty_object_rule
        end in
      match children child with
      | Val m =>
          match attach_parts rest rule m with
          | Some m' => Some (obj_set seg (set_children (Val m') child) ch)
          | None => None
          end
      | _ => None
      end
  end.

Fixpoint rebuild (es : Obj Rule) (ch : Obj Rule) : option (Obj Rule) :=
  match es with
  | [] => Some ch
  | (path, rule) :: rest =>
      match attach_parts (split_dot path) rule ch with
      | Some ch' => rebuild rest ch'
      | None => None
      end
  end.

(** [applyOverrides(ruleTree, overrides)]; [None] is a thrown TypeError. *)
Definition applyOverrides (ruleTree : RuleTree) (o : Overrides)
  : option RuleTree :=
  match rebuild (effective_all ruleTree o) [] with
  | Some ch => Some (mkRuleTree (Val ch) Absent)
  | None => None
  end.

(** The rule found at a dotted path of a tree, through the [children] of the
    nodes on the way. *)
Fixpoint rule_at_parts (parts : list string) (ch : Obj Rule) : option Rule :=
  match parts with
  | [] => None
  | [last] => obj_get last ch
  | seg :: rest =>
      match obj_get seg ch with
      | Some c =>
          match children c with
          | Val m => rule_at_parts rest m
          | _ => None
          end
      | None => None
      end
  end.

Definition rule_at (path : string) (tree : RuleTree) : option Rule :=
  match rt_children tree with
  | Val m => rule_at_parts (split_dot path) m
  | _ => None
  end.

(* ------------------------------------------------------------------ *)
(** ** Plain JavaScript values: wire schemas and cache-key inputs *)

Inductive JsVal : Type :=
| JUndefined
| JNull
| JBool (b : bool)
| JNumber (n : JsNumber)
| JString (s : string)
| JRegExp (source : string)
| JArray (elems : list JsVal)
| JObject (members : list (string * JsVal)).

Definition JStrings (l : list string) : JsVal := JArray (map JString l).

(** Assign a property only when the source's guard lets it through. *)
Definition set_if {A} (k : string) (p : prop A) (f : A -> JsVal)
           (m : Obj JsVal) : Obj JsVal :=
  match p with Val a => obj_set k (f a) m | _ => m end.

(** [if (node.pattern) schema.pattern = typeof node.pattern === 'string' ?
    node.pattern : node.pattern.source]; the empty string is falsy. *)
Definition set_pattern (p : prop Pattern) (m : Obj JsVal) : Obj JsVal :=
  match p with
  | Val (PatString s) =>
      if String.eqb s EmptyString then m else obj_set "pattern" (JString s) m
  | Val (PatRegExp src) => obj_set "pattern" (JString src) m
  | _ => m
  end.

(* ------------------------------------------------------------------ *)
(** ** Schema emitter (jsonSchemaCompiler: toJsonSchema) *)

Fixpoint nodeToSchema (allowUnknown : bool) (node : Rule) : JsVal :=
  match node with
  | mkRule t _ minL maxL pat en mn mx its minI maxI ch =>
      if type_is t TObject then
        let entries :=
          fix entries (es : list (string * Rule)) (properties : Obj JsVal)
              (req : list string) : Obj JsVal * list string :=
            match es with
            | [] => (properties, req)
            | (k, child) :: rest =>
                entries rest
                  (obj_set k (nodeToSchema allowUnknown child) properties)
                  (if truthy_bool (required child) then req ++ [k] else req)
            end in
        let '(properties, req) :=
          match ch with
          | Val m => entries m [] []
          | _ => ([], [])
          end in
        let schema := [("type", JString "object");
                       ("properties", JObject properties)] in
        let schema := match req with
                      | [] => schema
                      | _ => obj_set "required" (JStrings req) schema
                      end in
        JObject (obj_set "additionalProperties" (JBool allowUnknown) schema)
      else if type_is t TArray then
        let itemsSchema := match its with
                           | Val i => nodeToSchema allowUnknown i
                           | _ => JObject []
                           end in
        JObject (set_if "maxItems" maxI JNumber
                   (set_if "minItems" minI JNumber
                      [("type", JString "array"); ("items", itemsSchema)]))
      else if type_is t TString then
        JObject (set_if "enum" en JStrings
                   (set_pattern pat
                      (set_if "maxLength" maxL JNumber
                         (set_if "minLength" minL JNumber
                            [("type", JString "string")]))))
      else if type_is t TNumber then
        JObject (set_if "maximum" mx JNumber
                   (set_if "minimum" mn JNumber
                      [("type", JString "number")]))
      else if type_is t TBoolean then JObject [("type", JString "boolean")]
      else if type_is t TDate then
        JObject [("type", JString "string"); ("format", JString "date-time")]
      else if type_is t TObjectId then
        JObject [("type", JString "string");
                 ("pattern", JString "^[0-9a-fA-F]{24}$")]
      else JObject []
  end.

(** [toJsonSchema(tree, allowUnknown)]: the root is converted as
    [{ type: 'object', children: tree.children }]. *)
Definition toJsonSchema (tree : RuleTree) (allowUnknown : bool) : JsVal :=
  nodeToSchema allowUnknown
    (set_children (rt_children tree) (rule_of_type TObject)).

(** The schema of the round-trip property: a required string ["username"]
    of length 3 to 64 and an optional number ["age"] from 13 to 120. *)
Definition user_schema_paths : list (string * SchemaType) :=
  [("username",
    mkSchemaType "String"
      (Some (mkOpts true EnumFalsy MatchFalsy (Some (Num 3)) (Some (Num 64))
               None None None None))
      None None);
   ("age",
    mkSchemaType "Number"
      (Some (mkOpts false EnumFalsy MatchFalsy None None
               (Some (Num 13)) (Some (Num 120)) None None))
      None None)].

Definition user_schema : SchemaArg := SchemaObj 1 user_schema_paths.

(* ------------------------------------------------------------------ *)
(** ** JSON.stringify with an array replacer *)

Definition dquote : ascii := "034"%char.

Definition hex_digit (n : nat) : ascii :=
  if (n <? 10)%nat then ascii_of_nat (48 + n) else ascii_of_nat (87 + n).

(** One code unit of QuoteJSONString. *)
Definition quote_char (c : ascii) : string :=
  let n := nat_of_ascii c in
  if (n =? 8)%nat then "\b"
  else if (n =? 9)%nat then "\t"
  else if (n =? 10)%nat then "\n"
  else if (n =? 12)%nat then "\f"
  else if (n =? 13)%nat then "\r"
  else if (n =? 34)%nat then String "\" (String dquote EmptyString)
  else if (n =? 92)%nat then "\\"
  else if (n <? 32)%nat then
    ("\u00" ++ String (hex_digit (n / 16))
                (String (hex_digit (n mod 16)) EmptyString))%string
  else String c EmptyString.

Fixpoint quote_body (s : string) : string :=
  match s with
  | EmptyString => EmptyString
  | String c rest => (quote_char c ++ quote_body rest)%string
  end.

Definition quote (s : string) : string :=
  String dquote (quote_body s ++ String dquote EmptyString)%string.

(** Number to text: decimal digits for an integer, [null] for NaN.  The
    digits are those of the source for integers below [10^21] in
    magnitude; from there on the source prints an exponent. *)
Definition number_text (n : JsNumber) : string :=
  match n with
  | Num z => NilZero.string_of_int (Z.to_int z)
  | NaN => "null"
  end.

Fixpoint join (sep : string) (l : list string) : string :=
  match l with
  | [] => EmptyString
  | [x] => x
  | x :: rest => (x ++ sep ++ join sep rest)%string
  end.

(** The members of SerializeJSONObject for the property list [K]: for each
    name of [K] in order, the serialized value of that property when it is
    not undefined.  [ser] holds the serialization of each own property. *)
Fixpoint members_for (K : list string) (ser : Obj (option string))
  : list string :=
  match K with
  | [] => []
  | P :: rest =>
      match obj_get P ser with
      | Some (Some str) =>
          (quote P ++ ":" ++ str)%string :: members_for rest ser
      | _ => members_for rest ser
      end
  end.

(** SerializeJSONProperty on a value, with property list [K] and no
    indentation; [None] is the result undefined. *)
Fixpoint serialize (K : list string) (v : JsVal) : option string :=
  match v with
  | JUndefined => None
  | JNull => Some "null"
  | JBool true => Some "true"
  | JBool false => Some "false"
  | JNumber n => Some (number_text n)
  | JString s => Some (quote s)
  | JRegExp _ => Some "{}"
  | JArray elems =>
      Some ("[" ++
            join ","
              ((fix each (l : list JsVal) : list string :=
                  match l with
                  | [] => []
                  | e :: rest =>
                      (match serialize K e with
                       | Some str => str
                       | None => "null"
                       end) :: each rest
                  end) elems) ++ "]")%string
  | JObject members =>
      Some ("{" ++
            join ","
              (members_for K
                 ((fix each (l : list (string * JsVal))
                     : Obj (option string) :=
                     match l with
                     | [] => []
                     | (k, e) :: rest => (k, serialize K e) :: each rest
                     end) members)) ++ "}")%string
  end.

(** [JSON.stringify(value, K)] on an object: always a string. *)
Definition stringify_object (K : list string) (members : Obj JsVal)
  : string :=
  match serialize K (JObject members) with
  | Some str => str
  | None => EmptyString
  end.

(** [arr.sort()] on strings: ascending by code units. *)
Fixpoint sort_insert (x : string) (l : list string) : list string :=
  match l with
  | [] => [x]
  | y :: rest =>
      if String.leb x y then x :: y :: rest else y :: sort_insert x rest
  end.

Definition sort_strings (l : list string) : list string :=
  fold_right sort_insert [] l.

(* ------------------------------------------------------------------ *)
(** ** Cache keys (cacheRegistry: makeOverrideKey) *)

Definition truthy (v : JsVal) : bool :=
  match v with
  | JUndefined | JNull => false
  | JBool b => b
  | JNumber (Num z) => negb (Z.eqb z 0)
  | JNumber NaN => false
  | JString s => negb (String.eqb s EmptyString)
  | _ => true
  end.

(** [o.k]: undefined when the property is missing. *)
Definition js_get (k : string) (o : Obj JsVal) : JsVal :=
  match obj_get k o with Some v => v | None => JUndefined end.

(** [x || null]. *)
Definition or_null (v : JsVal) : JsVal := if truthy v then v else JNull.

Definition overrideData (overrides : Obj JsVal) : Obj JsVal :=
  [("include", or_null (js_get "include" overrides));
   ("exclude", or_null (js_get "exclude" overrides));
   ("optional", or_null (js_get "optional" overrides));
   ("required", or_null (js_get "required" overrides));
   ("append", or_null (js_get "append" overrides));
   ("allowUnknown", JBool (truthy (js_get "allowUnknown" overrides)));
   ("coerceTypes", JBool (truthy (js_get "coerceTypes" overrides)))].

Definition makeOverrideKey (overrides : Obj JsVal) : string :=
  let data := overrideData overrides in
  stringify_object (sort_strings (obj_keys data)) data.

(* ------------------------------------------------------------------ *)
(** ** Typed values as plain objects

    A rule object is taken with its own properties in the order of the
    interface declaration; a property that is present with the value
    undefined stays present. *)

Definition js_prop {A} (k : string) (p : prop A) (f : A -> JsVal)
  : list (string * JsVal) :=
  match p with
  | Absent => []
  | Undefined => [(k, JUndefined)]
  | Val a => [(k, f a)]
  end.

Definition type_name (t : PrimitiveType) : string :=
  match t with
  | TString => "string" | TNumber => "number" | TBoolean => "boolean"
  | TDate => "date" | TObjectId => "objectId" | TArray => "array"
  | TObject => "object" | TMixed => "mixed" | TBuffer => "buffer"
  end.

Definition pattern_js (p : Pattern) : JsVal :=
  match p with
  | PatString s => JString s
  | PatRegExp src => JRegExp src
  end.

Fixpoint rule_js (r : Rule) : Obj JsVal :=
  match r with
  | mkRule t req minL maxL pat en mn mx its minI maxI ch =>
      js_prop "type" t (fun x => JString (type_name x)) ++
      js_prop "required" req JBool ++
      js_prop "minLength" minL JNumber ++
      js_prop "maxLength" maxL JNumber ++
      js_prop "pattern" pat pattern_js ++
      js_prop "enum" en JStrings ++
      js_prop "min" mn JNumber ++
      js_prop "max" mx JNumber ++
      match its with
      | Absent => []
      | Undefined => [("items", JUndefined)]
      | Val i => [("items", JObject (rule_js i))]
      end ++
      js_prop "minItems" minI JNumber ++
      js_prop "maxItems" maxI JNumber ++
      match ch with
      | Absent => []
      | Undefined => [("children", JUndefined)]
      | Val m =>
          [("children",
            JObject ((fix each (l : list (string * Rule)) : Obj JsVal :=
                        match l with
                        | [] => []
                        | (k, c) :: rest =>
                            (k, JObject (rule_js c)) :: each rest
                        end) m))]
      end
  end.

Definition rules_js (m : Obj Rule) : JsVal :=
  JObject (map (fun e => (fst e, JObject (rule_js (snd e)))) m).

Definition overrides_js (o : Overrides) : Obj JsVal :=
  js_prop "include" (include o) JStrings ++
  js_prop "exclude" (exclude o) JStrings ++
  js_prop "optional" (optional o) JStrings ++
  js_prop "required" (required_paths o) JStrings ++
  js_prop "append" (append o) rules_js.

Definition options_js (o : ValidatorOptions) : Obj JsVal :=
  js_prop "coerceTypes" (coerceTypes o) JBool ++
  js_prop "allowUnknown" (allowUnknown o) JBool.

(** [{ ...a, ...b }]. *)
Definition js_spread (a b : Obj JsVal) : Obj JsVal :=
  fold_left (fun m e => obj_set (fst e) (snd e) m) b
    (fold_left (fun m e => obj_set (fst e) (snd e) m) a []).

(* ------------------------------------------------------------------ *)
(** ** No-schema mode (ajvEngine: jsonSchemaFromOverrides) *)

(** [set.add(k)]. *)
Definition set_add (k : string) (l : list string) : list string :=
  if str_mem k l then l else l ++ [k].

(** [new Set(arr)]. *)
Definition set_of (l : list string) : list string :=
  fold_left (fun acc k => set_add k acc) l [].

(** [required.splice(required.indexOf(k), 1)] when [k] occurs. *)
Fixpoint remove_first (k : string) (l : list string) : list string :=
  match l with
  | [] => []
  | x :: rest => if String.eqb k x then rest else x :: remove_first k rest
  end.

(** The loop over [overrides.append]: the three accumulators are the
    included set, [properties] and [required]. *)
Definition append_entry (acc : list string * Obj JsVal * list string)
           (e : string * Rule) : list string * Obj JsVal * list string :=
  let '(included, properties, req) := acc in
  let (key, def) := e in
  (set_add key included,
   obj_set key (JObject (obj_delete "required" (rule_js def))) properties,
   if truthy_bool (required def) then req ++ [key] else req).

Definition jsonSchemaFromOverrides (o : Overrides) (allowUnknown : bool)
  : JsVal :=
  let included0 :=
    set_of (match include o with Val l => l | _ => [] end) in
  let '(included, properties, req) :=
    match append o with
    | Val m => fold_left append_entry m (included0, [], [])
    | _ => (included0, [], [])
    end in
  let properties :=
    fold_left
      (fun props key =>
         if obj_has key props then props
         else obj_set key (JObject [("type", JString "string")]) props)
      included properties in
  let req :=
    match required_paths o with
    | Val l =>
        fold_left (fun r k => if str_mem k r then r else r ++ [k]) l req
    | _ => req
    end in
  let req :=
    match optional o with
    | Val l => fold_left (fun r k => remove_first k r) l req
    | _ => req
    end in
  JObject [("type", JString "object");
           ("properties", JObject properties);
           ("required",
            match req with [] => JUndefined | _ => JStrings req end);
           ("additionalProperties", JBool allowUnknown)].

(* ------------------------------------------------------------------ *)
(** ** Cache registry (cacheRegistry)

    Rule trees are objects with an identity: a tree made by the compiler
    lives in [trees] and is known by its index there, and the module-level
    sentinel is a reference of its own.  A WeakMap keyed by the schema object
    is a map from the schema's reference; a [Map] keyed by override key is
    only read and written by key, so its own order is immaterial. *)

Inductive TreeRef : Type :=
| SentinelRef
| TreeAt (loc : nat).

Fixpoint ref_get {A} (k : nat) (m : list (nat * A)) : option A :=
  match m with
  | [] => None
  | (k', v) :: rest => if Nat.eqb k k' then Some v else ref_get k rest
  end.

Fixpoint ref_set {A} (k : nat) (v : A) (m : list (nat * A))
  : list (nat * A) :=
  match m with
  | [] => [(k, v)]
  | (k', v') :: rest =>
      if Nat.eqb k k' then (k', v) :: rest else (k', v') :: ref_set k v rest
  end.

Section Registry.

(** The compiled validator functions of the validation engine. *)
Variable V : Type.

Record Registry : Type :=
  mkRegistry {
    trees : list RuleTree;
    walks : list nat;      (* schemas whose [eachPath] was called, in order *)
    ruleTreeCache : list (nat * TreeRef);
    jsonSchemaCache : list (nat * Obj JsVal);
    ajvValidatorCache : list (nat * Obj V);
    NullSchemaJsonCache : Obj JsVal;
    NullSchemaValidatorCache : Obj V
  }.

Definition empty_registry : Registry :=
  mkRegistry [] [] [] [] [] [] [].

(** [{ type: 'object', fields: {} }]. *)
Definition EMPTY_RULE_TREE : RuleTree := mkRuleTree Absent (Val []).

Definition tree_of (st : Registry) (r : TreeRef) : option RuleTree :=
  match r with
  | SentinelRef => Some EMPTY_RULE_TREE
  | TreeAt loc => nth_error (trees st) loc
  end.

(** The reference of a truthy schema argument. *)
Definition schema_ref (s : SchemaArg) : option nat :=
  match s with
  | SchemaNull => None
  | SchemaNoEachPath ref => Some ref
  | SchemaObj ref _ => Some ref
  end.

(** The compiler as a function that creates a tree object: the root is a
    new object at every call, and the schema's [eachPath] is called. *)
Definition compileRulesFromMongooseSchema_obj
           (RegExp_new : string -> option string)
           (s : SchemaArg) (st : Registry) : option (TreeRef * Registry) :=
  match s with
  | SchemaObj ref _ =>
      match compileRulesFromMongooseSchema RegExp_new s with
      | Some t =>
          Some (TreeAt (List.length (trees st)),
                mkRegistry (trees st ++ [t]) (walks st ++ [ref])
                  (ruleTreeCache st) (jsonSchemaCache st)
                  (ajvValidatorCache st) (NullSchemaJsonCache st)
                  (NullSchemaValidatorCache st))
      | None => None
      end
  | _ => None
  end.

Definition set_ruleTreeCache (c : list (nat * TreeRef)) (st : Registry)
  : Registry :=
  mkRegistry (trees st) (walks st) c (jsonSchemaCache st)
    (ajvValidatorCache st) (NullSchemaJsonCache st)
    (NullSchemaValidatorCache st).

(** [getOrSetRuleTree(schema, compileFn)]. *)
Definition getOrSetRuleTree (s : SchemaArg)
           (compileFn : SchemaArg -> Registry -> option (TreeRef * Registry))
           (st : Registry) : option (TreeRef * Registry) :=
  match schema_ref s with
  | None => Some (SentinelRef, st)
  | Some ref =>
      match ref_get ref (ruleTreeCache st) with
      | Some cached => Some (cached, st)
      | None =>
          match compileFn s st with
          | Some (ruleTree, st') =>
              Some (ruleTree,
                    set_ruleTreeCache
                      (ref_set ref ruleTree (ruleTreeCache st')) st')
          | None => None
          end
      end
  end.

(** [getJsonSchemaCache(schema).get(key)]. *)
Definition json_cache_get (s : SchemaArg) (key : string) (st : Registry)
  : option JsVal :=
  match schema_ref s with
  | None => obj_get key (NullSchemaJsonCache st)
  | Some ref =>
      match ref_get ref (jsonSchemaCache st) with
      | Some map => obj_get key map
      | None => None
      end
  end.

(** [getJsonSchemaCache(schema).set(key, v)], creating the schema's map
    when it has none. *)
Definition json_cache_set (s : SchemaArg) (key : string) (v : JsVal)
           (st : Registry) : Registry :=
  match schema_ref s with
  | None =>
      mkRegistry (trees st) (walks st) (ruleTreeCache st)
        (jsonSchemaCache st) (ajvValidatorCache st)
        (obj_set key v (NullSchemaJsonCache st))
        (NullSchemaValidatorCache st)
  | Some ref =>
      let map := match ref_get ref (jsonSchemaCache st) with
                 | Some m => m
                 | None => []
                 end in
      mkRegistry (trees st) (walks st) (ruleTreeCache st)
        (ref_set ref (obj_set key v map) (jsonSchemaCache st))
        (ajvValidatorCache st) (NullSchemaJsonCache st)
        (NullSchemaValidatorCache st)
  end.

Definition validator_cache_get (s : SchemaArg) (key : string)
           (st : Registry) : option V :=
  match schema_ref s with
  | None => obj_get key (NullSchemaValidatorCache st)
  | Some ref =>
      match ref_get ref (ajvValidatorCache st) with
      | Some map => obj_get key map
      | None => None
      end
  end.

Definition validator_cache_set (s : SchemaArg) (key : string) (v : V)
           (st : Registry) : Registry :=
  match schema_ref s with
  | None =>
      mkRegistry (trees st) (walks st) (ruleTreeCache st)
        (jsonSchemaCache st) (ajvValidatorCache st)
        (NullSchemaJsonCache st)
        (obj_set key v (NullSchemaValidatorCache st))
  | Some ref =>
      let map := match ref_get ref (ajvValidatorCache st) with
                 | Some m => m
                 | None => []
                 end in
      mkRegistry (trees st) (walks st) (ruleTreeCache st)
        (jsonSchemaCache st)
        (ref_set ref (obj_set key v map) (ajvValidatorCache st))
        (NullSchemaJsonCache st) (NullSchemaValidatorCache st)
  end.

End Registry.


(* ------------------------------------------------------------------ *)
(** ** Validator compiler (ajvEngine) *)

(** The options the engine is constructed with. *)
Record AjvConfig : Type :=
  mkAjvConfig {
    cfg_allErrors : bool;
    cfg_coerceTypes : bool;
    cfg_useDefaults : bool;
    cfg_removeAdditional_all : bool;   (* ['all'] rather than [false] *)
    cfg_strict : bool
  }.

(** What the wrapper reads of one error object of the engine;
    [missingProperty] is [e.params?.missingProperty]. *)
Record ErrorObject : Type :=
  mkErrorObject {
    instancePath : prop string;
    missingProperty : prop string;
    keyword : string;
    message : prop string
  }.

Record ErrorEntry : Type :=
  mkErrorEntry {
    field : string;
    error : string;
    entry_message : prop string
  }.

Section Engine.

(** Compiled validators and payloads of the validation engine. *)
Variables V P : Type.

(** One run of a compiled validator: its verdict, the payload as the
    engine left it, and [validateFn.errors] afterwards ([None]: null). *)
Record AjvOutcome : Type :=
  mkOutcome {
    valid : bool;
    payload_after : P;
    errors_after : option (list ErrorObject)
  }.

(** The validation engine: [compile] may throw on a schema it refuses. *)
Record AjvEngine : Type :=
  mkAjvEngine {
    ajv_compile : AjvConfig -> JsVal -> option V;
    ajv_validate : V -> P -> AjvOutcome
  }.

Record ValidatorResult : Type :=
  mkResult {
    ok : bool;
    data : option P;        (* [None]: null *)
    errors : list ErrorEntry
  }.

(** [s.replace(/^\//, '')]. *)
Definition strip_leading_slash (s : string) : string :=
  match s with
  | String c rest => if Ascii.eqb c "/" then rest else s
  | EmptyString => s
  end.

(** [s.replace(/\//g, '.')]. *)
Fixpoint slashes_to_dots (s : string) : string :=
  match s with
  | EmptyString => EmptyString
  | String c rest =>
      String (if Ascii.eqb c "/" then "."%char else c) (slashes_to_dots rest)
  end.

(** [a || b] on strings that may be undefined: the first truthy one. *)
Definition truthy_string (p : prop string) : option string :=
  match p with
  | Val s => if String.eqb s EmptyString then None else Some s
  | _ => None
  end.

Definition error_field (e : ErrorObject) : string :=
  match
    truthy_string
      (match instancePath e with
       | Val s => Val (slashes_to_dots (strip_leading_slash s))
       | other => other
       end)
  with
  | Some f => f
  | None =>
      match truthy_string (missingProperty e) with
      | Some m => m
      | None => EmptyString
      end
  end.

Definition normalize_error (e : ErrorObject) : ErrorEntry :=
  mkErrorEntry (error_field e) (keyword e) (message e).

(** The function [buildAjvValidator] returns, closed over [validateFn]. *)
Definition validator (run : P -> AjvOutcome) (payload : P)
  : ValidatorResult :=
  let out := run payload in
  if negb (valid out) then
    mkResult false None
      (map normalize_error
         (match errors_after out with Some es => es | None => [] end))
  else mkResult true (Some (payload_after out)) [].

Variable ajv : AjvEngine.
Variable RegExp_new : string -> option string.

Definition ajv_config (options : ValidatorOptions) : AjvConfig :=
  mkAjvConfig true (truthy_bool (coerceTypes options)) true
              (negb (truthy_bool (allowUnknown options))) false.

Definition override_key (o : Overrides) (options : ValidatorOptions)
  : string :=
  makeOverrideKey (js_spread (overrides_js o) (options_js options)).

(** The wire schema of a call: looked up under the override key and built
    on a miss, from the overrides alone without a schema and through
    rule tree, overrides and emitter with one.  [applyOverrides] is run on
    the value of the cached tree; what it writes through children maps it
    shares with that tree is the subject of [Store] below. *)
Definition emitJsonSchema (s : SchemaArg) (o : Overrides)
           (options : ValidatorOptions) (st : Registry V)
  : option (JsVal * Registry V) :=
  let overrideKey := override_key o options in
  match schema_ref s with
  | None =>
      match json_cache_get s overrideKey st with
      | Some jsonSchema => Some (jsonSchema, st)
      | None =>
          let jsonSchema :=
            jsonSchemaFromOverrides o (truthy_bool (allowUnknown options)) in
          Some (jsonSchema, json_cache_set s overrideKey jsonSchema st)
      end
  | Some _ =>
      match getOrSetRuleTree s
              (compileRulesFromMongooseSchema_obj (V:=V) RegExp_new) st with
      | None => None
      | Some (ruleTree, st1) =>
          match tree_of st1 ruleTree with
          | None => None
          | Some tree =>
              match applyOverrides tree o with
              | None => None
              | Some effectiveTree =>
                  match json_cache_get s overrideKey st1 with
                  | Some jsonSchema => Some (jsonSchema, st1)
                  | None =>
                      let jsonSchema :=
                        toJsonSchema effectiveTree
                          (truthy_bool (allowUnknown options)) in
                      Some (jsonSchema,
                            json_cache_set s overrideKey jsonSchema st1)
                  end
              end
          end
      end
  end.

(** [buildAjvValidator]: the wire schema as above, then the compiled
    validator looked up under the same key and compiled on a miss. *)
Definition buildAjvValidator (s : SchemaArg) (o : Overrides)
           (options : ValidatorOptions) (st : Registry V)
  : option ((P -> ValidatorResult) * Registry V) :=
  let overrideKey := override_key o options in
  match emitJsonSchema s o options st with
  | None => None
  | Some (jsonSchema, st1) =>
      match validator_cache_get s overrideKey st1 with
      | Some validateFn => Some (validator (ajv_validate ajv validateFn), st1)
      | None =>
          match ajv_compile ajv (ajv_config options) jsonSchema with
          | None => None
          | Some validateFn =>
              Some (validator (ajv_validate ajv validateFn),
                    validator_cache_set s overrideKey validateFn st1)
          end
      end
  end.

End Engine.

(* ------------------------------------------------------------------ *)
(** ** The override engine over shared objects

    [applyOverrides] clones a rule with [{ ...rule }] and merges an appended
    rule with a spread: both copy the reference held in [children], not the
    map behind it.  Here every children map is an object of a heap and a
    rule holds the location of its map, so that a write of the rebuild
    through a copied reference is seen where the map is shared. *)

Module Store.

Definition loc : Type := nat.

(** A rule object: [facets] are its properties other than [children]
    (the [children] of [facets] is not used), [kids] is its [children]. *)
Record Node : Type :=
  mkNode {
    facets : Rule;
    kids : prop loc
  }.

Definition Heap : Type := list (Obj Node).

Definition heap_get (h : Heap) (l : loc) : option (Obj Node) :=
  nth_error h l.

Fixpoint heap_put (l : loc) (m : Obj Node) (h : Heap) : Heap :=
  match h, l with
  | [], _ => []
  | _ :: rest, O => m :: rest
  | x :: rest, S l' => x :: heap_put l' m rest
  end.

Definition alloc (m : Obj Node) (h : Heap) : loc * Heap :=
  (List.length h, h ++ [m]).

Record Overrides : Type :=
  mkOverrides {
    include : prop (list string);
    exclude : prop (list string);
    optional : prop (list string);
    required_paths : prop (list string);
    append : prop (Obj Node)
  }.

(** [flatten] of the node whose [children] is [ch]; [fuel] bounds the
    depth of the recursion, and [None] is a run that exceeds it. *)
Fixpoint flatten (fuel : nat) (h : Heap) (ch : prop loc) (prefix : string)
         (out : Obj Node) : option (Obj Node) :=
  match fuel with
  | O => None
  | S fuel' =>
      match ch with
      | Val l =>
          match heap_get h l with
          | None => None
          | Some m =>
              (fix entries (es : list (string * Node)) (out : Obj Node)
                 : option (Obj Node) :=
                 match es with
                 | [] => Some out
                 | (k, child) :: rest =>
                     match
                       (if type_is (type (facets child)) TObject
                           && not_nullish (kids child)
                        then flatten fuel' h (kids child)
                               (join_path prefix k) out
                        else Some (obj_set (join_path prefix k) child out))
                     with
                     | Some out' => entries rest out'
                     | None => None
                     end
                 end) m out
          end
      | _ => Some out
      end
  end.

Definition set_node_required (b : bool) (n : Node) : Node :=
  mkNode (set_required (Val b) (facets n)) (kids n).

Definition in_list (k : string) (p : prop (list string)) : bool :=
  match p with Val l => str_mem k l | _ => false end.

Definition select_entry (o : Overrides) (effective : Obj Node)
           (e : string * Node) : Obj Node :=
  let (path, rule) := e in
  if match include o with
     | Val (x :: l) => negb (str_mem path (x :: l))
     | _ => false
     end then effective
  else if in_list path (exclude o) then effective
  else
    let r := rule in
    let r := if in_list path (optional o)
             then set_node_required false r else r in
    let r := if in_list path (required_paths o)
             then set_node_required true r else r in
    obj_set path r effective.

(** [mergeRules({ type: 'string', required: true }, rule)]. *)
Definition merge_default (rule : Node) : Node :=
  mkNode (mergeRules append_default (facets rule)) (kids rule).

Definition effective_all (baseMap : Obj Node) (o : Overrides) : Obj Node :=
  fold_left
    (fun eff e => obj_set (fst e) (merge_default (snd e)) eff)
    (match append o with Val m => m | _ => [] end)
    (fold_left (select_entry o) baseMap []).

(** The rebuild of one path from the node whose children map is at [cur]:
    [false] is a thrown TypeError; the heap is returned as the run left
    it. *)
Fixpoint attach (parts : list string) (rule : Node) (cur : loc) (h : Heap)
  : bool * Heap :=
  match parts with
  | [] => (true, h)
  | [last] =>
      match heap_get h cur with
      | Some m => (true, heap_put cur (obj_set last rule m) h)
      | None => (false, h)
      end
  | seg :: rest =>
      match heap_get h cur with
      | None => (false, h)
      | Some m =>
          match obj_get seg m with
          | Some child =>
              match kids child with
              | Val l => attach rest rule l h
              | _ => (false, h)
              end
          | None =>
              let (l, h1) := alloc [] h in
              attach rest rule l
                (heap_put cur
                   (obj_set seg (mkNode (rule_of_type TObject) (Val l)) m)
                   h1)
          end
      end
  end.

Fixpoint rebuild (es : Obj Node) (root : loc) (h : Heap) : bool * Heap :=
  match es with
  | [] => (true, h)
  | (path, rule) :: rest =>
      match attach (split_dot path) rule root h with
      | (true, h') => rebuild rest root h'
      | (false, h') => (false, h')
      end
  end.

(** [applyOverrides] on the tree whose root has its children map at
    [ruleTree]: the location of the children map of the new root, or
    [None] when the call throws or runs out of [fuel], and the heap after
    the call. *)
Definition applyOverrides (fuel : nat) (ruleTree : prop loc)
           (o : Overrides) (h : Heap) : option loc * Heap :=
  match flatten fuel h ruleTree EmptyString [] with
  | None => (None, h)
  | Some baseMap =>
      let (root, h1) := alloc [] h in
      match rebuild (effective_all baseMap o) root h1 with
      | (true, h') => (Some root, h')
      | (false, h') => (None, h')
      end
  end.

(** The maps that existed before a call are the same after it. *)
Definition unchanged (before after : Heap) : Prop :=
  forall l, (l < List.length before)%nat ->
            heap_get after l = heap_get before l.

(** No rule of the map holds a children map. *)
Definition no_kids (m : Obj Node) : Prop :=
  forall p n, In (p, n) m -> not_nullish (kids n) = false.

(** Past the first [n] maps of the heap, a children reference only leads
    to a map past them too. *)
Definition closed_from (n : nat) (h : Heap) : Prop :=
  forall l m p nd k,
    (n <= l)%nat -> heap_get h l = Some m -> In (p, nd) m ->
    kids nd = Val k -> (n <= k)%nat.

(** With respect to the heap [h0] before a call: the maps of [h0] are as
    they were, and the maps added since do not lead back into them. *)
Definition framed (h0 h : Heap) : Prop :=
  unchanged h0 h /\ closed_from (List.length h0) h.

(** A base tree [{ a: { type: 'array', children: {} } }]: the root's
    children map at 0, the children map of [a] at 1. *)
Definition shared_heap : Heap :=
  [ [("a", mkNode (rule_of_type TArray) (Val 1%nat))]; [] ].

Definition append_below_a : Overrides :=
  mkOverrides Absent Absent Absent Absent
    (Val [("a.x", mkNode (rule_of_type TString) Absent)]).

End Store.

(* ------------------------------------------------------------------ *)
(** ** Notions the properties are stated with *)

(** Structural equality of plain values up to the order of the keys of an
    object and up to a property being undefined or missing: two objects are
    equal when they agree, in this sense, at every key. *)
Inductive js_equiv : JsVal -> JsVal -> Prop :=
| js_equiv_same v : js_equiv v v
| js_equiv_nil : js_equiv (JArray []) (JArray [])
| js_equiv_cons x y l1 l2 :
    js_equiv x y ->
    js_equiv (JArray l1) (JArray l2) ->
    js_equiv (JArray (x :: l1)) (JArray (y :: l2))
| js_equiv_object m1 m2 :
    (forall k, js_equiv (js_get k m1) (js_get k m2)) ->
    js_equiv (JObject m1) (JObject m2).

(** The elements of SerializeJSONArray and the own properties of
    SerializeJSONObject, as [serialize] computes them. *)
Definition ser_elems (K : list string) (l : list JsVal) : list string :=
  map (fun e => match serialize K e with Some str => str | None => "null" end)
      l.

Definition ser_members (K : list string) (m : Obj JsVal)
  : Obj (option string) :=
  map (fun e => (fst e, serialize K (snd e))) m.

(** Two dotted paths part ways at some segment: neither is a prefix of the
    other. *)
Fixpoint diverge (p q : list string) : bool :=
  match p, q with
  | a :: p', b :: q' => if String.eqb a b then diverge p' q' else true
  | _, _ => false
  end.

(** A path that no other path of the map runs into: every other key parts
    ways with it. *)
Definition stands_alone (path : string) (m : Obj Rule) : Prop :=
  forall q, In q (obj_keys m) -> q <> path ->
            diverge (split_dot q) (split_dot path) = true.

(** The leaf set as the specification words it: the flattened leaf paths,
    restricted to [include] when it is not empty, minus [exclude]. *)
Definition leaf_set_spec (ruleTree : RuleTree) (o : Overrides)
  : list string :=
  let leaves := obj_keys (flatten ruleTree) in
  let kept :=
    match include o with
    | Val (x :: l) => filter (fun p => str_mem p (x :: l)) leaves
    | _ => leaves
    end in
  filter (fun p => negb (str_mem p (set_or_empty (exclude o)))) kept.

(** The field of a normalized error as the specification words it: the
    failure location with its leading separator stripped and the other
    separators translated to dots, else the missing property, else empty. *)
Definition location_spec (p : prop string) : string :=
  match p with
  | Val s =>
      string_of_list_ascii
        (map (fun c => if Ascii.eqb c "/" then "."%char else c)
             (match list_ascii_of_string s with
              | c :: rest => if Ascii.eqb c "/" then rest else c :: rest
              | [] => []
              end))
  | _ => EmptyString
  end.

Definition field_spec (e : ErrorObject) : string :=
  let loc := location_spec (instancePath e) in
  if negb (String.eqb loc EmptyString) then loc
  else match missingProperty e with
       | Val m => m
       | _ => EmptyString
       end.

Definition result_spec (P : Type) (out : AjvOutcome P) : ValidatorResult P :=
  if valid out then mkResult true (Some (payload_after out)) []
  else mkResult false None
         (map (fun e => mkErrorEntry (field_spec e) (keyword e) (message e))
              (match errors_after out with Some es => es | None => [] end)).

(** The filter of the first loop of [applyOverrides], on a path alone. *)
Definition passes (o : Overrides) (path : string) : bool :=
  match include_set o with
  | Some inc => str_mem path inc
  | None => true
  end && negb (str_mem path (set_or_empty (exclude o))).

(** The overrides of the exclude-over-include example. *)
Definition include_ab_exclude_b : Overrides :=
  mkOverrides (Val ["a"; "b"]) (Val ["b"]) Absent Absent Absent.

(** A base tree with the single optional string field ["a"], and the
    overrides of the required tie-break example. *)
Definition tie_tree : RuleTree :=
  mkRuleTree
    (Val [("a", set_required (Val false) (rule_of_type TString))]) Absent.

Definition tie_overrides : Overrides :=
  mkOverrides Absent Absent (Val ["a"]) (Val ["a"]) Absent.

(** The same overrides, appending ["a"] as an optional string as well. *)
Definition tie_append_overrides : Overrides :=
  mkOverrides Absent Absent (Val ["a"]) (Val ["a"])
    (Val [("a", set_required (Val false) (rule_of_type TString))]).

(** A base tree with the nested optional string ["a.b"], and overrides that
    list it in both sets while appending ["a"] itself. *)
Definition nested_tie_tree : RuleTree :=
  mkRuleTree
    (Val [("a",
           set_children
             (Val [("b", set_required (Val false) (rule_of_type TString))])
             (rule_of_type TObject))])
    Absent.

Definition tie_shadowed_overrides : Overrides :=
  mkOverrides Absent Absent (Val ["a.b"]) (Val ["a.b"])
    (Val [("a", rule_of_type TString)]).

(** The overrides of the append-bypass example, and a base tree with a
    ["password"] field to exclude. *)
Definition password_tree : RuleTree :=
  mkRuleTree
    (Val [("name", set_required (Val true) (rule_of_type TString));
          ("password", set_required (Val false) (rule_of_type TString))])
    Absent.



(** Two spellings of one overrides-plus-options object: the keys in another
    order, at the top and inside [append], and [coerceTypes] undefined in
    one and missing in the other. *)
Definition key_input_1 : Obj JsVal :=
  [("include", JStrings ["a"; "b"]);
   ("append",
    JObject [("required", JObject [("required", JBool true);
                                   ("type", JString "string")]);
             ("x", JObject [("type", JString "number")])]);
   ("coerceTypes", JUndefined);
   ("allowUnknown", JBool true)].

Definition key_input_2 : Obj JsVal :=
  [("allowUnknown", JBool true);
   ("append",
    JObject [("x", JObject [("type", JString "number")]);
             ("required", JObject [("type", JString "string");
                                   ("required", JBool true)])]);
   ("include", JStrings ["a"; "b"])].

(** A small validation engine to run the validator compiler with: a
    compiled validator is the wire schema itself, and validation checks the
    top-level [required] list only, reporting each missing property the way
    the real engine does. *)
Definition missing_of (v : JsVal) : string :=
  match v with JString k => k | _ => EmptyString end.

Definition required_only_validate (wire : JsVal) (payload : Obj JsVal)
  : AjvOutcome (Obj JsVal) :=
  let req := match wire with
             | JObject m => match js_get "required" m with
                            | JArray l => l
                            | _ => []
                            end
             | _ => []
             end in
  match filter (fun v => negb (obj_has (missing_of v) payload)) req with
  | [] => mkOutcome true payload None
  | missing =>
      mkOutcome false payload
        (Some (map (fun v => mkErrorObject (Val EmptyString)
                               (Val (missing_of v)) "required"
                               (Val "must have required property"))
                   missing))
  end.

Definition required_only_engine : AjvEngine JsVal (Obj JsVal) :=
  mkAjvEngine (fun _ wire => Some wire) required_only_validate.

(** Two overrides that differ only in what they append. *)
Definition append_a_number : Overrides :=
  mkOverrides Absent Absent Absent Absent
    (Val [("a", rule_of_type TNumber)]).

Definition append_b_boolean : Overrides :=
  mkOverrides Absent Absent Absent Absent
    (Val [("b", rule_of_type TBoolean)]).

(** The wire schema of [user_schema]. *)
Definition user_wire_schema : JsVal :=
  JObject
    [("type", JString "object");
     ("properties",
      JObject
        [("username",
          JObject [("type", JString "string");
                   ("minLength", JNumber (Num 3));
                   ("maxLength", JNumber (Num 64))]);
         ("age",
          JObject [("type", JString "number");
                   ("minimum", JNumber (Num 13));
                   ("maximum", JNumber (Num 120))])]);
     ("required", JArray [JString "username"]);
     ("additionalProperties", JBool false)].

(** The overrides of the no-schema example. *)
Definition no_schema_overrides : Overrides :=
  mkOverrides (Val ["x"]) Absent Absent Absent
    (Val [("y", set_required (Val true) (rule_of_type TNumber))]).

(** The wire schema of [user_schema] under [append_a_number], and under
    [append_b_boolean]. *)
Definition wire_of (o : Overrides) : JsVal :=
  match compileRulesFromMongooseSchema (fun src => Some src) user_schema with
  | Some tree =>
      match applyOverrides tree o with
      | Some effectiveTree => toJsonSchema effectiveTree false
      | None => JUndefined
      end
  | None => JUndefined
  end.

Definition wire_append_a : JsVal := Eval vm_compute in wire_of append_a_number.

Definition wire_append_b : JsVal :=
  Eval vm_compute in wire_of append_b_boolean.

(* ------------------------------------------------------------------ *)
(** ** Further notions: paths of the effective map *)

(** No path of the map is a dotted prefix of another. *)
Definition prefix_free (m : Obj Rule) : Prop :=
  forall p, In p (obj_keys m) -> stands_alone p m.

(** The rebuild of a path can walk down from a children map: every node
    it meets on the way has a [children] map. *)
Fixpoint walkable (parts : list string) (ch : Obj Rule) : bool :=
  match parts with
  | [] => true
  | [_] => true
  | seg :: rest =>
      match obj_get seg ch with
      | None => true
      | Some c =>
          match children c with
          | Val m => walkable rest m
          | _ => false
          end
      end
  end.

(** What the first loop of [applyOverrides] makes of a retained rule. *)
Definition forced (o : Overrides) (path : string) (r : Rule) : Rule :=
  if str_mem path (set_or_empty (required_paths o))
  then set_required (Val true) r
  else if str_mem path (set_or_empty (optional o))
       then set_required (Val false) r
       else r.

(** Overrides on [password_tree] that keep both fields, make ["name"]
    optional and append a nested field. *)
Definition profile_overrides : Overrides :=
  mkOverrides (Val ["name"; "password"]) Absent (Val ["name"]) Absent
    (Val [("address.city", rule_of_type TString)]).

(** ** Induction on rules, through [items] and [children] *)

Fixpoint Rule_nested_ind (P : Rule -> Prop)
         (step : forall t req minL maxL pat en mn mx its minI maxI ch,
             (forall i, its = Val i -> P i) ->
             (forall m, ch = Val m -> Forall (fun e => P (snd e)) m) ->
             P (mkRule t req minL maxL pat en mn mx its minI maxI ch))
         (r : Rule) {struct r} : P r :=
  match r with
  | mkRule t req minL maxL pat en mn mx its minI maxI ch =>
      step t req minL maxL pat en mn mx its minI maxI ch
        (match its as x return forall i, x = Val i -> P i with
         | Val i0 =>
             fun i (H : Val i0 = Val i) =>
               match H in _ = y
                     return match y with Val j => P j | _ => True end
               with eq_refl => Rule_nested_ind P step i0 end
         | Absent => fun i (H : Absent = Val i) =>
                       match H in _ = y
                             return match y with Absent => True | _ => P i end
                       with eq_refl => I end
         | Undefined => fun i (H : Undefined = Val i) =>
                          match H in _ = y
                                return match y with
                                       | Undefined => True | _ => P i end
                          with eq_refl => I end
         end)
        (match ch as x
               return forall m, x = Val m -> Forall (fun e => P (snd e)) m
         with
         | Val m0 =>
             fun m (H : Val m0 = Val m) =>
               match H in _ = y
                     return match y with
                            | Val m' => Forall (fun e => P (snd e)) m'
                            | _ => True
                            end
               with eq_refl =>
                 (fix all (l : list (string * Rule))
                    : Forall (fun e => P (snd e)) l :=
                    match l with
                    | [] => Forall_nil _
                    | e :: rest =>
                        Forall_cons e (Rule_nested_ind P step (snd e))
                                    (all rest)
                    end) m0
               end
         | Absent => fun m (H : Absent = Val m) =>
                       match H in _ = y
                             return match y with
                                    | Absent => True
                                    | _ => Forall (fun e => P (snd e)) m
                                    end
                       with eq_refl => I end
         | Undefined => fun m (H : Undefined = Val m) =>
                          match H in _ = y
                                return match y with
                                       | Undefined => True
                                       | _ => Forall (fun e => P (snd e)) m
                                       end
                          with eq_refl => I end
         end)
  end.

(** The paths a call of [applyOverrides] can put in the effective map: the
    leaf paths of the base tree and the paths of [append]. *)
Definition candidate_paths (ruleTree : RuleTree) (o : Overrides)
  : list string :=
  obj_keys (flatten ruleTree) ++
  obj_keys (match append o with Val m => m | _ => [] end).

(** No path of the list is a dotted prefix of another. *)
Definition part_ways (paths : list string) : Prop :=
  forall p q, In p paths -> In q paths -> p <> q ->
              diverge (split_dot p) (split_dot q) = true.

(** A base tree with the three string fields ["a"], ["b"] and ["c"]. *)
Definition abc_tree : RuleTree :=
  mkRuleTree
    (Val [("a", rule_of_type TString); ("b", rule_of_type TString);
          ("c", rule_of_type TString)])
    Absent.

(* ------------------------------------------------------------------ *)
(** ** Further notions: well-formed trees *)

Fixpoint has_dot (k : string) : bool :=
  match k with
  | EmptyString => false
  | String c rest => Ascii.eqb c "." || has_dot rest
  end.

(** A field name that dotted paths can address: not empty, without dot. *)
Definition good_key (k : string) : bool :=
  negb (String.eqb k EmptyString) && negb (has_dot k).

(** The keys of a children map are distinct field names. *)
Definition wf_children (m : Obj Rule) : Prop :=
  NoDup (obj_keys m) /\ forall k, In k (obj_keys m) -> good_key k = true.

(** What [flatten] records rather than expands. *)
Definition is_leaf (r : Rule) : bool :=
  negb (type_is (type r) TObject && not_nullish (children r)).

(** Every children map that [flatten] expands is well formed. *)
Fixpoint wf_rule (r : Rule) : Prop :=
  match r with
  | mkRule t _ _ _ _ _ _ _ _ _ _ ch =>
      match type_is t TObject, ch with
      | true, Val m =>
          wf_children m /\
          (fix all (l : list (string * Rule)) : Prop :=
             match l with
             | [] => True
             | e :: rest => wf_rule (snd e) /\ all rest
             end) m
      | _, _ => True
      end
  end.

Definition wf_tree (t : RuleTree) : Prop :=
  match rt_children t with
  | Val m => wf_children m /\ Forall (fun e => wf_rule (snd e)) m
  | _ => True
  end.

(** A rule sits at a path of a children map as a leaf below expanded
    nodes. *)
Definition located (root : Obj Rule) (p : string) (r : Rule) : Prop :=
  rule_at_parts (split_dot p) root = Some r /\
  is_leaf r = true /\
  forall pre rest,
    split_dot p = pre ++ rest -> pre <> [] -> rest <> [] ->
    exists n, rule_at_parts pre root = Some n /\ is_leaf n = false.

(** Every entry of a flat map sits at its path of [root]. *)
Definition all_located (root out : Obj Rule) : Prop :=
  forall p r, obj_get p out = Some r -> located root p r.

(** An object node with its [children] and nothing else. *)
Definition bare (n : Rule) : Prop :=
  n = set_children (children n) (rule_of_type TObject) /\
  not_nullish (children n) = true.

(** A base tree with a required nested object ["address"] holding a
    required string ["city"]. *)
Definition address_tree : RuleTree :=
  mkRuleTree
    (Val [("address",
           set_children
             (Val [("city", set_required (Val true) (rule_of_type TString))])
             (set_required (Val true) (rule_of_type TObject)))])
    Absent.

(* ------------------------------------------------------------------ *)
(** ** Further notions: the loop of [nodeToSchema] on an object node *)

(** The loop over the children of an object node, as [nodeToSchema] runs
    it: the accumulators are [properties] and [required]. *)
Fixpoint emit_entries (allowUnknown : bool) (es : list (string * Rule))
         (properties : Obj JsVal) (req : list string)
  : Obj JsVal * list string :=
  match es with
  | [] => (properties, req)
  | (k, child) :: rest =>
      emit_entries allowUnknown rest
        (obj_set k (nodeToSchema allowUnknown child) properties)
        (if truthy_bool (required child) then req ++ [k] else req)
  end.

(** The names of the children whose [required] is truthy, in order. *)
Definition required_names (es : list (string * Rule)) : list string :=
  map fst (filter (fun e => truthy_bool (required (snd e))) es).

(* ------------------------------------------------------------------ *)
(** ** Further notions: names that every object inherits

    The embedding reads [m[k]] among the own properties of [m].  On an
    object literal the source's reads also see what the object inherits
    from [Object.prototype], and an assignment to ["__proto__"] sets the
    prototype rather than a property.  The two readings agree on every
    other name, and the properties that depend on it are stated for paths
    whose segments are none of these names. *)

Definition Object_prototype_names : list string :=
  ["constructor"; "hasOwnProperty"; "isPrototypeOf"; "propertyIsEnumerable";
   "toLocaleString"; "toString"; "valueOf"; "__proto__";
   "__defineGetter__"; "__defineSetter__"; "__lookupGetter__";
   "__lookupSetter__"].

Definition plain_name (k : string) : bool :=
  negb (str_mem k Object_prototype_names).

Definition plain_path (p : string) : bool :=
  forallb plain_name (split_dot p).

Definition plain_paths (l : list string) : bool := forallb plain_path l.

(** ** Further notions: rules that share no children map

    [applyOverrides] copies the [children] reference of a retained leaf and
    of an appended rule.  When none of them holds a children map, the
    rebuild writes into no map that existed before the call (see [Store]),
    and the trees of the registry are the values they were. *)

Definition childless (m : Obj Rule) : bool :=
  forallb (fun e => negb (not_nullish (children (snd e)))) m.

Definition unshared (t : RuleTree) (o : Overrides) : bool :=
  childless (flatten t) &&
  childless (match append o with Val m => m | _ => [] end).

(** The tree the rule-tree cache holds for a schema. *)
Definition cached_tree {V} (s : SchemaArg) (st : Registry V)
  : option RuleTree :=
  match schema_ref s with
  | Some ref =>
      match ref_get ref (ruleTreeCache st) with
      | Some r => tree_of st r
      | None => None
      end
  | None => None
  end.

(** ** Further notions: the no-schema mode *)

(** Overrides without a schema: ["email"] is included and required,
    ["token"] is required though nothing declares it, and the appended
    ["password"], required where it is defined, is made optional. *)
Definition login_overrides : Overrides :=
  mkOverrides (Val ["email"]) Absent (Val ["password"])
    (Val ["email"; "token"])
    (Val [("password",
           mkRule (Val TString) (Val true) (Val (Num 8)) Absent Absent Absent
                  Absent Absent Absent Absent Absent Absent);
          ("age", rule_of_type TNumber)]).

(** The [required] list and the [properties] of the schema made from the
    overrides alone, as the loops of [jsonSchemaFromOverrides] leave
    them. *)
Definition no_schema_required (o : Overrides) : list string :=
  fold_left (fun r k => remove_first k r) (set_or_empty (optional o))
    (fold_left (fun r k => if str_mem k r then r else r ++ [k])
       (set_or_empty (required_paths o))
       (required_names (match append o with Val m => m | _ => [] end))).

Definition no_schema_properties (o : Overrides) : Obj JsVal :=
  fold_left
    (fun props key =>
       if obj_has key props then props
       else obj_set key (JObject [("type", JString "string")]) props)
    (fold_left (fun acc e => set_add (fst e) acc)
       (match append o with Val m => m | _ => [] end)
       (set_of (set_or_empty (include o))))
    (fold_left
       (fun p e =>
          obj_set (fst e) (JObject (obj_delete "required" (rule_js (snd e))))
            p)
       (match append o with Val m => m | _ => [] end) []).

(** ** Further notions: schemas for the examples of the introspector *)

(** A schema with a nested path, an array of strings and an embedded
    document. *)
Definition profile_schema_paths : list (string * SchemaType) :=
  [("name.first",
    mkSchemaType "String"
      (Some (mkOpts true EnumFalsy (MatchString "^[A-Z]") None None
               None None None None))
      None None);
   ("tags",
    mkSchemaType "Array" None
      (Some (mkSchemaType "String"
               (Some (mkOpts false (EnumArray ["a"; "b"]) MatchFalsy
                        None None None None None None))
               None None))
      None);
   ("home",
    mkSchemaType "Embedded" None None
      (Some [("city", mkSchemaType "String" None None None)]))].

Definition profile_schema : SchemaArg := SchemaObj 2 profile_schema_paths.

(** ** Further notions: failure locations *)

Fixpoint has_slash (s : string) : bool :=
  match s with
  | EmptyString => false
  | String c rest => Ascii.eqb c "/" || has_slash rest
  end.

(** A segment of a failure location that is a field name as it stands:
    no separator of locations and no dot in it. *)
Definition plain_segment (s : string) : bool :=
  negb (has_slash s) && negb (has_dot s).

(** ** Further notions: the text of a cache key *)

(** The property list of the replacer: the sorted names of
    [overrideData]. *)
Definition override_names : list string :=
  ["allowUnknown"; "append"; "coerceTypes"; "exclude"; "include";
   "optional"; "required"].

Definition bool_text (b : bool) : string := if b then "true" else "false".

(** The text of a serialized value; undefined has none. *)
Definition text_of (v : JsVal) : string :=
  match serialize override_names v with
  | Some str => str
  | None => EmptyString
  end.

(** The key, member by member. *)
Definition key_text (allowUnknown : bool) (append : string)
           (coerceTypes : bool) (exclude include optional required : string)
  : string :=
  ("{" ++ quote "allowUnknown" ++ ":" ++ bool_text allowUnknown ++ "," ++
   quote "append" ++ ":" ++ append ++ "," ++
   quote "coerceTypes" ++ ":" ++ bool_text coerceTypes ++ "," ++
   quote "exclude" ++ ":" ++ exclude ++ "," ++
   quote "include" ++ ":" ++ include ++ "," ++
   quote "optional" ++ ":" ++ optional ++ "," ++
   quote "required" ++ ":" ++ required ++ "}")%string.

(** The object [{ ...overrides, ...options }] that the engine takes the
    key of. *)
Definition key_input (o : Overrides) (options : ValidatorOptions)
  : Obj JsVal :=
  js_spread (overrides_js o) (options_js options).

(** The value the key sees of a list of paths. *)
Definition paths_js (p : prop (list string)) : JsVal :=
  match p with Val l => JStrings l | _ => JUndefined end.

(* ------------------------------------------------------------------ *)
(** ** Query helpers (policy: parsePagination, buildProjection;
       arrayHelpers: applyProjectionToArray) *)

(** [Number(x) || d] on a number: [d] replaces zero and NaN. *)
Definition number_or (x : JsNumber) (d : Z) : Z :=
  match x with
  | Num z => if (z =? 0)%Z then d else z
  | NaN => d
  end.

(** A destructured parameter with a default: the default replaces a
    missing or undefined property. *)
Definition with_default {A} (p : prop A) (d : A) : A :=
  match p with Val a => a | _ => d end.

Record Pagination : Type :=
  mkPagination {
    pg_page : Z;
    pg_pageSize : Z;
    pg_skip : Z;
    pg_limit : Z
  }.

(** [parsePagination({ page = 1, pageSize = 20 })], on numbers.  The
    product is the one of the integers: it is the [skip] of the source
    while it is a safe integer, where the product of doubles is exact. *)
Definition parsePagination (page pageSize : prop JsNumber) : Pagination :=
  let p := Z.max 1 (number_or (with_default page (Num 1)) 1) in
  let s :=
    Z.max 1 (Z.min 200 (number_or (with_default pageSize (Num 20)) 20)) in
  mkPagination p s ((p - 1) * s) s.

(** [buildProjection({ include = [], exclude = [] })]. *)
Definition buildProjection (include exclude : prop (list string)) : Obj Z :=
  let inc := with_default include [] in
  let exc := with_default exclude [] in
  let proj := fold_left (fun proj f => obj_set f 1%Z proj) inc [] in
  fold_left (fun proj f => obj_set f 0%Z proj) exc proj.

(** One item of [applyProjectionToArray] in include mode and in exclude
    mode: the loops over [Object.keys(projection)]. *)
Definition project_include (projection : Obj Z) (it : Obj JsVal)
  : Obj JsVal :=
  fold_left
    (fun out f =>
       match obj_get f projection with
       | Some 1%Z => obj_set f (js_get f it) out
       | _ => out
       end)
    (obj_keys projection) [].

Definition project_exclude (projection : Obj Z) (it : Obj JsVal)
  : Obj JsVal :=
  fold_left
    (fun out f =>
       match obj_get f projection with
       | Some 0%Z => obj_delete f out
       | _ => out
       end)
    (obj_keys projection) it.

Definition applyProjectionToArray (items : list (Obj JsVal))
           (projection : Obj Z) : list (Obj JsVal) :=
  match obj_keys projection with
  | [] => map (fun it => it) items
  | _ =>
      let includeMode := existsb (fun v => (v =? 1)%Z) (map snd projection) in
      map (fun it =>
             if includeMode then project_include projection it
             else project_exclude projection it)
          items
  end.

(** ** Further notions: the leaves of a tree *)

(** A leaf below a children map, reached through expanded nodes: the walk
    of [flatten] to the place where it records a rule. *)
Fixpoint leaf_at (parts : list string) (m : Obj Rule) (r : Rule) : Prop :=
  match parts with
  | [] => False
  | k :: rest =>
      exists c,
        obj_get k m = Some c /\
        match rest with
        | [] => c = r /\ is_leaf r = true
        | _ :: _ =>
            is_leaf c = false /\
            exists m', children c = Val m' /\ leaf_at rest m' r
        end
  end.

(** A dotted path whose segments are field names: none is empty. *)
Definition good_path (p : string) : bool := forallb good_key (split_dot p).

(** What the effective map of a call must be like for the returned tree
    to flatten back to it: paths of field names, and rules that [flatten]
    records rather than expands. *)
Definition flat_map (m : Obj Rule) : bool :=
  forallb (fun e => good_path (fst e) && is_leaf (snd e)) m.

(** ** Further notions: reading a wire schema *)

(** The [required] list of an object schema; empty when the key is
    missing. *)
Definition wire_required (w : JsVal) : list string :=
  match w with
  | JObject m =>
      match obj_get "required" m with
      | Some (JArray l) => map missing_of l
      | _ => []
      end
  | _ => []
  end.

(** [{}]: a rule object without properties. *)
Definition empty_rule : Rule :=
  mkRule Absent Absent Absent Absent Absent Absent Absent Absent Absent
         Absent Absent Absent.



(* ------------------------------------------------------------------ *)
(** ** Further notions: paths that run into one another

    The rebuild attaches the paths of the effective map in the order of
    its keys.  A proper dotted prefix of [path] that is attached after it
    replaces the node [path] was attached under.  A path that extends
    [path] is replaced by the rule of [path] when it is attached before
    it, and is attached into the [children] of that rule, leaving its
    other properties alone, when it is attached after it. *)

Fixpoint proper_prefix (p q : list string) : bool :=
  match p, q with
  | [], _ :: _ => true
  | a :: p', b :: q' => String.eqb a b && proper_prefix p' q'
  | _, _ => false
  end.

(** A path of the map is a proper dotted prefix of [path]. *)
Definition shadowed (path : string) (m : Obj Rule) : bool :=
  existsb (fun q => proper_prefix (split_dot q) (split_dot path))
          (obj_keys m).

(** [r'] is [r] with some [children]: every other property is the same. *)
Definition but_children (r r' : Rule) : Prop :=
  exists c, r' = set_children c r.

(** An assignment [m[k] = v] makes [k] an own property of an object
    literal [m] for every name but ["__proto__"], which sets the prototype
    of [m] instead. *)
Definition assignable (k : string) : bool := negb (String.eqb k "__proto__").

Definition assignable_path (p : string) : bool :=
  forallb assignable (split_dot p).

Definition assignable_paths (l : list string) : bool :=
  forallb assignable_path l.

(** A base tree with the optional array ["a"], which holds an empty
    children map, and overrides that list ["a"] in both sets while
    appending ["a.x"]. *)
Definition array_tie_tree : RuleTree :=
  mkRuleTree
    (Val [("a",
           set_children (Val [])
             (set_required (Val false) (rule_of_type TArray)))])
    Absent.

Definition array_tie_overrides : Overrides :=
  mkOverrides Absent Absent (Val ["a"]) (Val ["a"])
    (Val [("a.x", rule_of_type TNumber)]).

(** Overrides that only append ["a"], a prefix of the leaf of
    [nested_tie_tree]. *)
Definition shadowed_leaf_overrides : Overrides :=
  mkOverrides Absent Absent Absent Absent
    (Val [("a", rule_of_type TString)]).

(** Overrides without [append] that exclude ["name"] and list
    ["password"] in both [optional] and [required]. *)
Definition strict_overrides : Overrides :=
  mkOverrides (Val ["name"; "password"]) (Val ["name"]) (Val ["password"])
    (Val ["password"]) Absent.

(** ** Further notions: sub-schemas with paths of plain names *)

(** Every path of the sub-schemas of a field, at any depth, has segments
    of plain names. *)
Fixpoint plain_field (f : SchemaType) : bool :=
  let all :=
    fix all (ps : list (string * SchemaType)) : bool :=
      match ps with
      | [] => true
      | (p, g) :: rest => plain_path p && plain_field g && all rest
      end in
  match f with
  | mkSchemaType _ _ cast sch =>
      match cast with
      | Some (mkSchemaType _ _ _ (Some cps)) => all cps
      | _ => true
      end
      && match sch with
         | Some ps => all ps
         | None => true
         end
  end.

Definition plain_schema (ps : list (string * SchemaType)) : bool :=
  forallb (fun e => plain_path (fst e) && plain_field (snd e)) ps.

(** ** Further notions: safe integers

    The numbers of the source are doubles; sums and products of integers
    are exact while the result is a safe integer. *)
Definition MAX_SAFE_INTEGER : Z := 9007199254740991.


(* ================================================================== *)
(** * Properties *)

Unset Implicit Arguments.

(** ** Ordered maps *)

Section ObjFacts.

Context {A : Type}.
Implicit Types (m : Obj A) (k : string) (v : A).

Lemma obj_get_replace_same k v m :
  obj_has k m = true -> obj_get k (obj_replace k v m) = Some v.
Proof.
  unfold obj_has.
  induction m as [|[k' v'] m IH]; simpl; [discriminate|].
  destruct (String.eqb k k') eqn:E; simpl; rewrite E; auto.
Qed.

Lemma obj_get_replace_other k k' v m :
  k <> k' -> obj_get k' (obj_replace k v m) = obj_get k' m.
Proof.
  intros Hne.
  induction m as [|[k1 v1] m IH]; simpl; [reflexivity|].
  destruct (String.eqb k k1) eqn:E; simpl.
  - apply String.eqb_eq in E; subst k1.
    destruct (String.eqb k' k) eqn:E'; [|reflexivity].
    apply String.eqb_eq in E'; congruence.
  - rewrite IH; reflexivity.
Qed.

Lemma obj_get_insert_index_same n k v m :
  obj_get k m = None -> obj_get k (obj_insert_index n k v m) = Some v.
Proof.
  induction m as [|[k1 v1] m IH]; simpl; intros H.
  - rewrite String.eqb_refl; reflexivity.
  - destruct (String.eqb k k1) eqn:E; [discriminate|].
    destruct (array_index k1) as [n1|].
    + destruct (n1 <? n)%N; simpl.
      * rewrite E; auto.
      * rewrite String.eqb_refl; reflexivity.
    + simpl; rewrite String.eqb_refl; reflexivity.
Qed.

Lemma obj_get_insert_index_other n k k' v m :
  k <> k' -> obj_get k' (obj_insert_index n k v m) = obj_get k' m.
Proof.
  intros Hne.
  assert (Hk : String.eqb k' k = false)
    by (apply String.eqb_neq; congruence).
  induction m as [|[k1 v1] m IH]; simpl.
  - rewrite Hk; reflexivity.
  - destruct (array_index k1) as [n1|].
    + destruct (n1 <? n)%N; simpl.
      * rewrite IH; reflexivity.
      * rewrite Hk; reflexivity.
    + simpl; rewrite Hk; reflexivity.
Qed.

Lemma obj_get_app k m1 m2 :
  obj_get k (m1 ++ m2) =
  match obj_get k m1 with Some v => Some v | None => obj_get k m2 end.
Proof.
  induction m1 as [|[k1 v1] m1 IH]; simpl; [reflexivity|].
  destruct (String.eqb k k1); auto.
Qed.

Lemma obj_get_set_same k v m : obj_get k (obj_set k v m) = Some v.
Proof.
  unfold obj_set.
  destruct (obj_has k m) eqn:H.
  - apply obj_get_replace_same; assumption.
  - unfold obj_has in H.
    destruct (obj_get k m) eqn:G; [discriminate|].
    destruct (array_index k).
    + apply obj_get_insert_index_same; assumption.
    + rewrite obj_get_app, G; simpl.
      rewrite String.eqb_refl; reflexivity.
Qed.

Lemma obj_get_set_other k k' v m :
  k <> k' -> obj_get k' (obj_set k v m) = obj_get k' m.
Proof.
  intros Hne. unfold obj_set.
  destruct (obj_has k m).
  - apply obj_get_replace_other; assumption.
  - destruct (array_index k).
    + apply obj_get_insert_index_other; assumption.
    + rewrite obj_get_app. destruct (obj_get k' m); [reflexivity|].
      simpl. destruct (String.eqb k' k) eqn:E; [|reflexivity].
      apply String.eqb_eq in E; congruence.
Qed.

Lemma obj_get_set k k' v m :
  obj_get k' (obj_set k v m) =
  if String.eqb k' k then Some v else obj_get k' m.
Proof.
  destruct (String.eqb k' k) eqn:E.
  - apply String.eqb_eq in E; subst; apply obj_get_set_same.
  - apply String.eqb_neq in E; apply obj_get_set_other; congruence.
Qed.

Lemma obj_has_set k k' v m :
  obj_has k' (obj_set k v m) = String.eqb k' k || obj_has k' m.
Proof.
  unfold obj_has. rewrite obj_get_set.
  destruct (String.eqb k' k); reflexivity.
Qed.

Lemma obj_has_In k m : obj_has k m = true <-> In k (obj_keys m).
Proof.
  unfold obj_has.
  induction m as [|[k1 v1] m IH]; simpl.
  - split; [discriminate|tauto].
  - destruct (String.eqb k k1) eqn:E.
    + apply String.eqb_eq in E; subst; tauto.
    + apply String.eqb_neq in E. rewrite IH. split; [tauto|].
      intros [H|H]; [congruence|assumption].
Qed.

Lemma obj_get_In k v m : obj_get k m = Some v -> In (k, v) m.
Proof.
  induction m as [|[k1 v1] m IH]; simpl; [discriminate|].
  destruct (String.eqb k k1) eqn:E.
  - apply String.eqb_eq in E; subst. intros [= ->]; auto.
  - auto.
Qed.

Lemma obj_get_NoDup k v m :
  NoDup (obj_keys m) -> In (k, v) m -> obj_get k m = Some v.
Proof.
  induction m as [|[k1 v1] m IH]; simpl; [tauto|].
  intros Hnd [H|H]; inversion Hnd as [|? ? Hnot Hnd']; subst.
  - injection H as -> ->. rewrite String.eqb_refl; reflexivity.
  - destruct (String.eqb k k1) eqn:E.
    + apply String.eqb_eq in E; subst.
      exfalso; apply Hnot. apply (in_map fst) in H; exact H.
    + auto.
Qed.

End ObjFacts.

Lemma str_mem_In k l : str_mem k l = true <-> In k l.
Proof.
  unfold str_mem. rewrite existsb_exists. split.
  - intros [x [Hin E]]. apply String.eqb_eq in E; subst; assumption.
  - intros H. exists k. split; [assumption|apply String.eqb_refl].
Qed.

(** ** Override engine: the retained leaf set *)

Lemma select_entry_has o eff path rule p :
  obj_has p (select_entry o eff (path, rule)) =
  obj_has p eff || (String.eqb p path && passes o path).
Proof.
  unfold select_entry, passes.
  destruct (include_set o) as [inc|].
  - destruct (str_mem path inc); simpl.
    + destruct (str_mem path (set_or_empty (exclude o))); simpl.
      * rewrite andb_false_r, orb_false_r; reflexivity.
      * rewrite obj_has_set, andb_true_r. apply orb_comm.
    + rewrite andb_false_r, orb_false_r; reflexivity.
  - simpl. destruct (str_mem path (set_or_empty (exclude o))); simpl.
    + rewrite andb_false_r, orb_false_r; reflexivity.
    + rewrite obj_has_set, andb_true_r. apply orb_comm.
Qed.

Lemma select_fold_has o es : forall eff p,
  obj_has p (fold_left (select_entry o) es eff) =
  obj_has p eff || (obj_has p es && passes o p).
Proof.
  induction es as [|[path rule] es IH]; intros eff p; cbn [fold_left].
  - rewrite orb_false_r; reflexivity.
  - rewrite IH, select_entry_has.
    assert (Hhas : obj_has p ((path, rule) :: es) =
                   String.eqb p path || obj_has p es).
    { unfold obj_has; simpl. destruct (String.eqb p path); reflexivity. }
    rewrite Hhas.
    destruct (String.eqb p path) eqn:E.
    + apply String.eqb_eq in E; subst path. simpl.
      destruct (obj_has p eff), (passes o p), (obj_has p es); reflexivity.
    + simpl. rewrite orb_false_r. reflexivity.
Qed.

Lemma effective_base_has ruleTree o p :
  obj_has p (effective_base ruleTree o) =
  obj_has p (flatten ruleTree) && passes o p.
Proof.
  unfold effective_base. rewrite select_fold_has. reflexivity.
Qed.

Lemma leaf_set_spec_In ruleTree o p :
  In p (leaf_set_spec ruleTree o) <->
  obj_has p (flatten ruleTree) && passes o p = true.
Proof.
  unfold leaf_set_spec, passes, include_set.
  rewrite filter_In, andb_true_iff, andb_true_iff, obj_has_In.
  destruct (include o) as [| |[|x l]]; try rewrite filter_In; tauto.
Qed.

Lemma select_ab_shape es : forall eff,
  eff = [] \/ (exists r, eff = [("a", r)]) ->
  fold_left (select_entry include_ab_exclude_b) es eff = [] \/
  exists r, fold_left (select_entry include_ab_exclude_b) es eff
            = [("a", r)].
Proof.
  induction es as [|[path rule] es IH]; intros eff Heff; cbn [fold_left];
    [exact Heff|].
  apply IH. unfold select_entry; simpl.
  destruct (String.eqb_spec path "a") as [->|Ha]; simpl.
  - right. exists rule. destruct Heff as [->|[r ->]]; reflexivity.
  - destruct (String.eqb path "b"); exact Heff.
Qed.

(** ** Keys of a map built by assignments *)

Section ObjKeys.

Context {A : Type}.
Implicit Types (m : Obj A) (k : string) (v : A).

Lemma obj_keys_replace k v m : obj_keys (obj_replace k v m) = obj_keys m.
Proof.
  induction m as [|[k1 v1] m IH]; simpl; [reflexivity|].
  destruct (String.eqb k k1); simpl; [reflexivity|].
  f_equal. exact IH.
Qed.

Lemma obj_keys_insert_index_In n k v m k' :
  In k' (obj_keys (obj_insert_index n k v m)) <->
  k' = k \/ In k' (obj_keys m).
Proof.
  induction m as [|[k1 v1] m IH]; simpl.
  - intuition congruence.
  - destruct (array_index k1) as [n1|].
    + destruct (n1 <? n)%N; simpl.
      * fold (obj_keys (obj_insert_index n k v m)). rewrite IH.
        intuition congruence.
      * intuition congruence.
    + simpl. intuition congruence.
Qed.

Lemma obj_insert_index_NoDup n k v m :
  ~ In k (obj_keys m) -> NoDup (obj_keys m) ->
  NoDup (obj_keys (obj_insert_index n k v m)).
Proof.
  induction m as [|[k1 v1] m IH]; simpl; intros Hnot Hnd.
  - constructor; [tauto|constructor].
  - inversion Hnd as [|? ? Hk1 Hnd']; subst.
    assert (Hcons : NoDup (k :: k1 :: obj_keys m)).
    { constructor; [simpl; tauto|assumption]. }
    destruct (array_index k1) as [n1|]; [|exact Hcons].
    destruct (n1 <? n)%N; [|exact Hcons].
    simpl. constructor.
    + fold (obj_keys (obj_insert_index n k v m)).
      rewrite obj_keys_insert_index_In. intros [->|H]; tauto.
    + apply IH; tauto.
Qed.

Lemma obj_set_NoDup k v m :
  NoDup (obj_keys m) -> NoDup (obj_keys (obj_set k v m)).
Proof.
  intros Hnd. unfold obj_set.
  destruct (obj_has k m) eqn:H.
  - rewrite obj_keys_replace; assumption.
  - assert (Hnot : ~ In k (obj_keys m)).
    { rewrite <- obj_has_In, H. discriminate. }
    destruct (array_index k).
    + apply obj_insert_index_NoDup; assumption.
    + unfold obj_keys. rewrite map_app. simpl.
      apply NoDup_app; [assumption| constructor; [tauto|constructor] |].
      intros x Hx [<-|[]]. exact (Hnot Hx).
Qed.

End ObjKeys.

Lemma split_dot_aux_nonempty s : forall cur, split_dot_aux s cur <> [].
Proof.
  induction s as [|c s IH]; intros cur; simpl; [discriminate|].
  destruct (Ascii.eqb c "."); [discriminate|apply IH].
Qed.

Lemma split_dot_nonempty path : split_dot path <> [].
Proof. apply split_dot_aux_nonempty. Qed.

(** ** Override engine: what the rebuild leaves at a path *)

Lemma rule_at_parts_cons a p ch :
  rule_at_parts (a :: p) ch =
  match p with
  | [] => obj_get a ch
  | _ :: _ =>
      match obj_get a ch with
      | Some c => match children c with
                  | Val m => rule_at_parts p m
                  | _ => None
                  end
      | None => None
      end
  end.
Proof. destruct p; reflexivity. Qed.

Lemma rule_at_parts_empty p : rule_at_parts p [] = None.
Proof. destruct p as [|a [|b p]]; reflexivity. Qed.

Lemma attach_parts_cons seg rest rule ch :
  rest <> [] ->
  attach_parts (seg :: rest) rule ch =
  let child := match obj_get seg ch with
               | Some c => c
               | None => empty_object_rule
               end in
  match children child with
  | Val m =>
      match attach_parts rest rule m with
      | Some m' => Some (obj_set seg (set_children (Val m') child) ch)
      | None => None
      end
  | _ => None
  end.
Proof. destruct rest; [congruence|reflexivity]. Qed.

Lemma attach_parts_same parts : forall rule ch ch',
  parts <> [] ->
  attach_parts parts rule ch = Some ch' ->
  rule_at_parts parts ch' = Some rule.
Proof.
  induction parts as [|seg rest IH]; intros rule ch ch' Hne H; [congruence|].
  destruct rest as [|seg' rest'].
  - simpl in H. injection H as <-. simpl. apply obj_get_set_same.
  - rewrite attach_parts_cons in H by discriminate. cbv zeta in H.
    destruct (children _) as [| |m] eqn:Hch; try discriminate.
    destruct (attach_parts (seg' :: rest') rule m) as [m'|] eqn:Hatt;
      [|discriminate].
    injection H as <-.
    rewrite rule_at_parts_cons, obj_get_set_same. simpl children.
    apply (IH rule m m'); [discriminate|assumption].
Qed.

Lemma attach_parts_other q : forall p rule ch ch',
  diverge q p = true ->
  attach_parts q rule ch = Some ch' ->
  rule_at_parts p ch' = rule_at_parts p ch.
Proof.
  induction q as [|b q IH]; intros p rule ch ch' Hdiv H; [discriminate|].
  destruct p as [|a p]; [discriminate|].
  simpl in Hdiv.
  destruct (String.eqb b a) eqn:E.
  - apply String.eqb_eq in E; subst a.
    destruct q as [|b' q']; [discriminate|].
    destruct p as [|a' p']; [destruct b'; discriminate|].
    rewrite attach_parts_cons in H by discriminate. cbv zeta in H.
    destruct (children _) as [| |m] eqn:Hch; try discriminate.
    destruct (attach_parts (b' :: q') rule m) as [m'|] eqn:Hatt;
      [|discriminate].
    injection H as <-.
    rewrite (rule_at_parts_cons b (a' :: p') ch).
    rewrite (rule_at_parts_cons b (a' :: p')), obj_get_set_same.
    simpl children. cbv iota.
    rewrite (IH (a' :: p') rule m m' Hdiv Hatt).
    destruct (obj_get b ch) as [c|].
    + rewrite Hch. reflexivity.
    + simpl in Hch. injection Hch as <-. apply rule_at_parts_empty.
  - apply String.eqb_neq in E.
    assert (Hget : obj_get a ch' = obj_get a ch).
    { destruct q as [|b' q'].
      - simpl in H. injection H as <-. apply obj_get_set_other; assumption.
      - rewrite attach_parts_cons in H by discriminate. cbv zeta in H.
        destruct (children _) as [| |m]; try discriminate.
        destruct (attach_parts (b' :: q') rule m); [|discriminate].
        injection H as <-. apply obj_get_set_other; assumption. }
    rewrite !rule_at_parts_cons, Hget. reflexivity.
Qed.

Lemma rebuild_keeps es : forall ch ch' p r,
  rebuild es ch = Some ch' ->
  rule_at_parts (split_dot p) ch = Some r ->
  (forall q, In q (obj_keys es) ->
             diverge (split_dot q) (split_dot p) = true) ->
  rule_at_parts (split_dot p) ch' = Some r.
Proof.
  induction es as [|[q v] es IH]; intros ch ch' p r H Hat Hall; simpl in H.
  - injection H as <-. assumption.
  - destruct (attach_parts (split_dot q) v ch) as [ch1|] eqn:Hatt;
      [|discriminate].
    apply (IH ch1 ch' p r H).
    + erewrite attach_parts_other;
        [exact Hat|exact (Hall q (or_introl eq_refl))|exact Hatt].
    + intros q' Hq'. apply Hall. right. assumption.
Qed.

Lemma rebuild_finds es : forall ch ch' p r,
  NoDup (obj_keys es) ->
  In (p, r) es ->
  (forall q, In q (obj_keys es) -> q <> p ->
             diverge (split_dot q) (split_dot p) = true) ->
  rebuild es ch = Some ch' ->
  rule_at_parts (split_dot p) ch' = Some r.
Proof.
  induction es as [|[q v] es IH]; intros ch ch' p r Hnd Hin Hall H;
    [destruct Hin|].
  simpl in H, Hnd.
  inversion Hnd as [|? ? Hq Hnd']; subst.
  destruct (attach_parts (split_dot q) v ch) as [ch1|] eqn:Hatt;
    [|discriminate].
  destruct (String.eqb_spec q p) as [->|Hne].
  - assert (v = r) as ->.
    { destruct Hin as [Heq|Hin]; [congruence|].
      exfalso. apply Hq. apply (in_map fst) in Hin. exact Hin. }
    eapply rebuild_keeps; [exact H| |].
    + eapply attach_parts_same; [apply split_dot_nonempty|exact Hatt].
    + intros q' Hq'. apply Hall; [right; assumption|].
      intros ->. exact (Hq Hq').
  - destruct Hin as [Heq|Hin]; [congruence|].
    apply (IH ch1 ch' p r Hnd' Hin); [|assumption].
    intros q' Hq' Hne'. apply Hall; [right; assumption|assumption].
Qed.

(** ** Override engine: the effective path map *)

Lemma select_entry_NoDup o eff e :
  NoDup (obj_keys eff) -> NoDup (obj_keys (select_entry o eff e)).
Proof.
  intros Hnd. destruct e as [path rule]. unfold select_entry.
  destruct (match include_set o with
            | Some inc => negb (str_mem path inc)
            | None => false
            end); [assumption|].
  destruct (str_mem path (set_or_empty (exclude o))); [assumption|].
  apply obj_set_NoDup; assumption.
Qed.

Lemma fold_left_NoDup {B} (f : Obj Rule -> B -> Obj Rule) es :
  (forall eff e, NoDup (obj_keys eff) -> NoDup (obj_keys (f eff e))) ->
  forall eff, NoDup (obj_keys eff) -> NoDup (obj_keys (fold_left f es eff)).
Proof.
  intros Hf. induction es as [|e es IH]; intros eff Hnd; simpl; auto.
Qed.

Lemma effective_all_NoDup ruleTree o :
  NoDup (obj_keys (effective_all ruleTree o)).
Proof.
  unfold effective_all, effective_base.
  apply fold_left_NoDup.
  - intros eff e. apply obj_set_NoDup.
  - apply fold_left_NoDup.
    + intros eff e. apply select_entry_NoDup.
    + constructor.
Qed.

Lemma select_entry_required o eff path rule :
  passes o path = true ->
  str_mem path (set_or_empty (required_paths o)) = true ->
  exists r, obj_get path (select_entry o eff (path, rule)) = Some r /\
            required r = Val true.
Proof.
  unfold passes, select_entry. intros Hpass Hreq.
  apply andb_true_iff in Hpass. destruct Hpass as [Hinc Hexc].
  apply negb_true_iff in Hexc. rewrite Hexc, Hreq.
  destruct (include_set o) as [inc|]; [rewrite Hinc|]; simpl;
    rewrite obj_get_set_same; eexists; split; reflexivity.
Qed.

Lemma select_entry_other o eff path rule p :
  p <> path ->
  obj_get p (select_entry o eff (path, rule)) = obj_get p eff.
Proof.
  intros Hne. unfold select_entry.
  destruct (match include_set o with
            | Some inc => negb (str_mem path inc)
            | None => false
            end); [reflexivity|].
  destruct (str_mem path (set_or_empty (exclude o))); [reflexivity|].
  apply obj_get_set_other. congruence.
Qed.

Lemma select_fold_required o p es : forall eff,
  passes o p = true ->
  str_mem p (set_or_empty (required_paths o)) = true ->
  obj_has p es = true \/
  (exists r, obj_get p eff = Some r /\ required r = Val true) ->
  exists r, obj_get p (fold_left (select_entry o) es eff) = Some r /\
            required r = Val true.
Proof.
  induction es as [|[path rule] es IH]; intros eff Hpass Hreq Hor;
    cbn [fold_left].
  - destruct Hor as [H|H]; [discriminate|assumption].
  - apply IH; try assumption.
    destruct (String.eqb_spec p path) as [->|Hne].
    + right. apply select_entry_required; assumption.
    + destruct Hor as [H|H].
      * left. unfold obj_has in *. simpl in H.
        apply String.eqb_neq in Hne. rewrite Hne in H. exact H.
      * right. rewrite select_entry_other by assumption. exact H.
Qed.

Lemma append_fold_other (f : Rule -> Rule) p m : forall eff,
  obj_has p m = false ->
  obj_get p (fold_left (fun eff e => obj_set (fst e) (f (snd e)) eff) m eff)
  = obj_get p eff.
Proof.
  induction m as [|[k v] m IH]; intros eff H; simpl; [reflexivity|].
  unfold obj_has in H. simpl in H.
  destruct (String.eqb p k) eqn:E; [discriminate|].
  rewrite IH by exact H.
  apply obj_get_set_other. apply String.eqb_neq in E. congruence.
Qed.


Lemma applyOverrides_children ruleTree o tree :
  applyOverrides ruleTree o = Some tree ->
  exists ch, rebuild (effective_all ruleTree o) [] = Some ch /\
             tree = mkRuleTree (Val ch) Absent.
Proof.
  unfold applyOverrides.
  destruct (rebuild (effective_all ruleTree o) []) as [ch|]; [|discriminate].
  intros [= <-]. exists ch. split; reflexivity.
Qed.

Lemma applyOverrides_rule_at ruleTree o tree path r :
  applyOverrides ruleTree o = Some tree ->
  obj_get path (effective_all ruleTree o) = Some r ->
  stands_alone path (effective_all ruleTree o) ->
  rule_at path tree = Some r.
Proof.
  intros Happ Hget Halone.
  destruct (applyOverrides_children _ _ _ Happ) as [ch [Hre ->]].
  unfold rule_at; simpl.
  eapply rebuild_finds;
    [apply effective_all_NoDup|apply obj_get_In; exact Hget
    |exact Halone|exact Hre].
Qed.


(** ** Cache keys *)

Lemma serialize_array K l :
  serialize K (JArray l) =
  Some ("[" ++ join "," (ser_elems K l) ++ "]")%string.
Proof. reflexivity. Qed.

Lemma serialize_object K m :
  serialize K (JObject m) =
  Some ("{" ++ join "," (members_for K (ser_members K m)) ++ "}")%string.
Proof.
  cbn [serialize]. do 5 f_equal.
  induction m as [|[k e] m IH]; [reflexivity|].
  cbn [ser_members map fst snd]. f_equal. exact IH.
Qed.

Lemma obj_get_ser_members K P m :
  match obj_get P (ser_members K m) with
  | Some (Some str) => Some str
  | _ => None
  end = serialize K (js_get P m).
Proof.
  unfold js_get.
  induction m as [|[k e] m IH]; simpl; [reflexivity|].
  destruct (String.eqb P k); [|exact IH].
  destruct (serialize K e); reflexivity.
Qed.

Lemma members_for_ext K m1 m2 : forall K',
  (forall P, serialize K (js_get P m1) = serialize K (js_get P m2)) ->
  members_for K' (ser_members K m1) = members_for K' (ser_members K m2).
Proof.
  intros K' Hext.
  induction K' as [|P K' IH]; simpl; [reflexivity|].
  pose proof (obj_get_ser_members K P m1) as H1.
  pose proof (obj_get_ser_members K P m2) as H2.
  rewrite <- Hext, <- H1 in H2.
  destruct (obj_get P (ser_members K m1)) as [[s1|]|],
           (obj_get P (ser_members K m2)) as [[s2|]|];
    try discriminate; try (rewrite IH; reflexivity).
  injection H2 as ->. rewrite IH. reflexivity.
Qed.

Lemma serialize_equiv K v1 v2 :
  js_equiv v1 v2 ->
  serialize K v1 = serialize K v2 /\
  (forall l1 l2, v1 = JArray l1 -> v2 = JArray l2 ->
                 ser_elems K l1 = ser_elems K l2).
Proof.
  induction 1 as [v| |x y l1 l2 Hxy [IHxy _] Hl [_ IHl]|m1 m2 Hm IH].
  - split; [reflexivity|]. intros l1 l2 -> [= ->]. reflexivity.
  - split; [reflexivity|]. intros l1 l2 [= <-] [= <-]. reflexivity.
  - assert (Helems : ser_elems K (x :: l1) = ser_elems K (y :: l2)).
    { simpl. rewrite IHxy, (IHl l1 l2 eq_refl eq_refl). reflexivity. }
    split.
    + rewrite !serialize_array, Helems. reflexivity.
    + intros l1' l2' [= <-] [= <-]. exact Helems.
  - split; [|discriminate].
    rewrite !serialize_object.
    rewrite (members_for_ext K m1 m2 K (fun P => proj1 (IH P))).
    reflexivity.
Qed.

Lemma truthy_equiv v1 v2 : js_equiv v1 v2 -> truthy v1 = truthy v2.
Proof. destruct 1; reflexivity. Qed.

Lemma or_null_equiv v1 v2 :
  js_equiv v1 v2 -> js_equiv (or_null v1) (or_null v2).
Proof.
  intros H. unfold or_null. rewrite (truthy_equiv _ _ H).
  destruct (truthy v2); [assumption|constructor].
Qed.

Lemma js_get_equiv o1 o2 k :
  js_equiv (JObject o1) (JObject o2) ->
  js_equiv (js_get k o1) (js_get k o2).
Proof.
  intros H. inversion H; subst; [constructor|auto].
Qed.

Lemma js_get_cons k k' v m :
  js_get k ((k', v) :: m) = if String.eqb k k' then v else js_get k m.
Proof. unfold js_get; simpl. destruct (String.eqb k k'); reflexivity. Qed.

Lemma overrideData_equiv o1 o2 :
  js_equiv (JObject o1) (JObject o2) ->
  js_equiv (JObject (overrideData o1)) (JObject (overrideData o2)).
Proof.
  intros H. apply js_equiv_object. intros k.
  unfold overrideData. rewrite !js_get_cons.
  repeat (destruct (String.eqb k _);
          [first [apply or_null_equiv, js_get_equiv, H
                 |rewrite (truthy_equiv _ _ (js_get_equiv _ _ _ H));
                  constructor]|]).
  constructor.
Qed.

Ltac by_key k :=
  repeat match goal with
         | |- context [String.eqb k ?s] =>
             destruct (String.eqb_spec k s); [subst k|]; simpl
         end.

(** C6: two overrides-plus-options objects that are structurally equal up
    to the order of their keys and up to a property being undefined or
    missing get the same key from [makeOverrideKey]. *)
Theorem makeOverrideKey_structural (o1 o2 : Obj JsVal) :
  js_equiv (JObject o1) (JObject o2) ->
  makeOverrideKey o1 = makeOverrideKey o2.
Proof.
  intros H. unfold makeOverrideKey, stringify_object.
  change (obj_keys (overrideData o2)) with (obj_keys (overrideData o1)).
  rewrite (proj1 (serialize_equiv _ _ _ (overrideData_equiv _ _ H))).
  reflexivity.
Qed.

Lemma makeOverrideKey_structural_witness :
  js_equiv (JObject key_input_1) (JObject key_input_2) /\
  makeOverrideKey key_input_1 = makeOverrideKey key_input_2.
Proof.
  assert (H : js_equiv (JObject key_input_1) (JObject key_input_2)).
  { apply js_equiv_object. intros k.
    unfold key_input_1, key_input_2. rewrite !js_get_cons. by_key k;
      try apply js_equiv_same.
    apply js_equiv_object. intros k.
    rewrite !js_get_cons. by_key k; try apply js_equiv_same.
    apply js_equiv_object. intros k.
    rewrite !js_get_cons. by_key k; apply js_equiv_same. }
  split; [exact H|].
  exact (makeOverrideKey_structural key_input_1 key_input_2 H).
Defined.

(** ** Introspect, then emit *)

(** C8: for the schema with a required string ["username"] of length 3 to
    64 and an optional number ["age"] from 13 to 120, compiling the rule
    tree and emitting it gives an object schema whose [required] is exactly
    [["username"]], whose [properties.username] is
    [{type: "string", minLength: 3, maxLength: 64}] and whose
    [properties.age] is [{type: "number", minimum: 13, maximum: 120}]. *)
Theorem user_schema_round_trip (RegExp_new : string -> option string) :
  exists tree wire properties,
    compileRulesFromMongooseSchema RegExp_new user_schema = Some tree /\
    toJsonSchema tree false = JObject wire /\
    js_get "type" wire = JString "object" /\
    js_get "required" wire = JArray [JString "username"] /\
    js_get "properties" wire = JObject properties /\
    js_get "username" properties =
      JObject [("type", JString "string"); ("minLength", JNumber (Num 3));
               ("maxLength", JNumber (Num 64))] /\
    js_get "age" properties =
      JObject [("type", JString "number"); ("minimum", JNumber (Num 13));
               ("maximum", JNumber (Num 120))] /\
    obj_keys properties = ["username"; "age"] /\
    JObject wire = user_wire_schema.
Proof.
  do 3 eexists. repeat split; reflexivity.
Qed.

(** ** Validator results *)

Lemma slashes_to_dots_list s :
  slashes_to_dots s =
  string_of_list_ascii
    (map (fun c => if Ascii.eqb c "/" then "."%char else c)
         (list_ascii_of_string s)).
Proof.
  induction s as [|c s IH]; simpl; [reflexivity|]. rewrite IH. reflexivity.
Qed.

Lemma strip_leading_slash_list s :
  list_ascii_of_string (strip_leading_slash s) =
  match list_ascii_of_string s with
  | c :: rest => if Ascii.eqb c "/" then rest else c :: rest
  | [] => []
  end.
Proof.
  destruct s as [|c s]; simpl; [reflexivity|].
  destruct (Ascii.eqb c "/"); reflexivity.
Qed.

Lemma error_field_spec e : error_field e = field_spec e.
Proof.
  unfold error_field, field_spec, truthy_string, location_spec.
  destruct (instancePath e) as [| |s].
  - simpl. destruct (missingProperty e) as [| |m]; try reflexivity.
    destruct (String.eqb_spec m EmptyString); congruence.
  - simpl. destruct (missingProperty e) as [| |m]; try reflexivity.
    destruct (String.eqb_spec m EmptyString); congruence.
  - rewrite <- strip_leading_slash_list, <- slashes_to_dots_list.
    destruct (String.eqb (slashes_to_dots (strip_leading_slash s))
                         EmptyString); simpl; [|reflexivity].
    destruct (missingProperty e) as [| |m]; try reflexivity.
    destruct (String.eqb_spec m EmptyString); congruence.
Qed.

Lemma validator_spec (P : Type) (run : P -> AjvOutcome P) payload :
  validator run payload = result_spec (run payload).
Proof.
  unfold validator, result_spec.
  destruct (valid (run payload)); simpl; [reflexivity|].
  f_equal. apply map_ext. intros e.
  unfold normalize_error. rewrite error_field_spec. reflexivity.
Qed.

Lemma ref_get_set_same {A} k (v : A) m : ref_get k (ref_set k v m) = Some v.
Proof.
  induction m as [|[k' v'] m IH]; simpl.
  - rewrite Nat.eqb_refl. reflexivity.
  - destruct (Nat.eqb k k') eqn:E; simpl; rewrite E; auto.
Qed.

Lemma validator_cache_get_set (V : Type) s key (v : V) st :
  validator_cache_get s key (validator_cache_set s key v st) = Some v.
Proof.
  unfold validator_cache_get, validator_cache_set.
  destruct (schema_ref s) as [ref|]; simpl.
  - rewrite ref_get_set_same. apply obj_get_set_same.
  - apply obj_get_set_same.
Qed.

(** C9: the function [buildAjvValidator] returns is total and answers with
    a result, never an exception of its own: [{ok: true, data, errors: []}]
    when the compiled validator accepts, and [{ok: false, data: null,
    errors}] when it rejects, each error carrying as [field] the engine's
    instance path without its leading ['/'] and with the other ['/'] turned
    into ['.'] or, when that is empty, the name of the missing property
    (else the empty string), as [error] the engine's keyword and as
    [message] the engine's message. *)
Theorem buildAjvValidator_result
        (V P : Type) (ajv : AjvEngine V P)
        (RegExp_new : string -> option string)
        (s : SchemaArg) (o : Overrides) (options : ValidatorOptions)
        (st st' : Registry V) (validate : P -> ValidatorResult P) :
  buildAjvValidator ajv RegExp_new s o options st = Some (validate, st') ->
  exists validateFn,
    validator_cache_get s (override_key o options) st' = Some validateFn /\
    forall payload,
      validate payload = result_spec (ajv_validate ajv validateFn payload).
Proof.
  unfold buildAjvValidator.
  destruct (emitJsonSchema RegExp_new s o options st) as [[wire st1]|];
    [|discriminate].
  destruct (validator_cache_get s (override_key o options) st1)
    as [validateFn|] eqn:Hget.
  - intros [= <- <-]. exists validateFn. split; [exact Hget|].
    intros payload. apply validator_spec.
  - destruct (ajv_compile ajv (ajv_config options) wire) as [validateFn|];
      [|discriminate].
    intros [= <- <-]. exists validateFn.
    split; [apply validator_cache_get_set|].
    intros payload. apply validator_spec.
Qed.

Lemma buildAjvValidator_result_witness :
  exists validate st' validateFn,
    buildAjvValidator required_only_engine (fun src => Some src) SchemaNull
      no_schema_overrides no_options (empty_registry JsVal)
    = Some (validate, st') /\
    validator_cache_get SchemaNull
      (override_key no_schema_overrides no_options) st' = Some validateFn /\
    forall payload,
      validate payload =
      result_spec (ajv_validate required_only_engine validateFn payload).
Proof.
  destruct (buildAjvValidator required_only_engine (fun src => Some src)
              SchemaNull no_schema_overrides no_options
              (empty_registry JsVal)) as [[validate st']|] eqn:H.
  - exists validate, st'.
    destruct (buildAjvValidator_result _ _ _ _ _ _ _ _ _ _ H)
      as [validateFn [Hget Hall]].
    exists validateFn. repeat split; assumption.
  - vm_compute in H. discriminate H.
Defined.

(** ** Cache keys and appended fields *)

(** C10: [makeOverrideKey] does not tell apart overrides that differ only
    in [append]: appending [a] as a number and appending [b] as a boolean
    give the same key, since the array replacer keeps the seven top-level
    names only, at every depth.  So, for one schema, [emitJsonSchema]
    answers the second overrides with the wire schema cached for the first,
    and [buildAjvValidator] with the validator compiled for the first. *)
Theorem makeOverrideKey_ignores_append
        (V P : Type) (ajv : AjvEngine V P)
        (RegExp_new : string -> option string) (v1 : V) :
  ajv_compile ajv (ajv_config no_options) wire_append_a = Some v1 ->
  append append_a_number <> append append_b_boolean /\
  override_key append_a_number no_options =
  override_key append_b_boolean no_options /\
  wire_append_a <> wire_append_b /\
  (exists st1 st2,
     emitJsonSchema RegExp_new user_schema append_a_number no_options
       (empty_registry V) = Some (wire_append_a, st1) /\
     emitJsonSchema RegExp_new user_schema append_b_boolean no_options
       (empty_registry V) = Some (wire_append_b, st2) /\
     emitJsonSchema RegExp_new user_schema append_b_boolean no_options st1
     = Some (wire_append_a, st1)) /\
  (exists st1 st2,
     buildAjvValidator ajv RegExp_new user_schema append_a_number no_options
       (empty_registry V) = Some (validator (ajv_validate ajv v1), st1) /\
     buildAjvValidator ajv RegExp_new user_schema append_b_boolean no_options
       st1 = Some (validator (ajv_validate ajv v1), st2)).
Proof.
  intros Hcompile.
  split; [discriminate|].
  split; [reflexivity|].
  split; [discriminate|].
  split.
  - do 2 eexists. repeat split; reflexivity.
  - unfold buildAjvValidator.
    assert (He1 : emitJsonSchema RegExp_new user_schema append_a_number
                    no_options (empty_registry V) =
                  Some (wire_append_a,
                        json_cache_set user_schema
                          (override_key append_a_number no_options)
                          wire_append_a
                          (mkRegistry
                             [match compileRulesFromMongooseSchema
                                      RegExp_new user_schema with
                              | Some t => t
                              | None => empty_root
                              end]
                             [1%nat] [(1%nat, TreeAt 0)] [] [] [] [])))
      by reflexivity.
    rewrite He1.
    cbn [validator_cache_get schema_ref user_schema ajvValidatorCache
         json_cache_set ref_get].
    rewrite Hcompile.
    do 2 eexists. split; [reflexivity|].
    reflexivity.
Qed.

Lemma makeOverrideKey_ignores_append_witness :
  ajv_compile required_only_engine (ajv_config no_options) wire_append_a
  = Some wire_append_a /\
  override_key append_a_number no_options =
  override_key append_b_boolean no_options /\
  exists st1 st2,
    buildAjvValidator required_only_engine (fun src => Some src) user_schema
      append_a_number no_options (empty_registry JsVal)
    = Some (validator (required_only_validate wire_append_a), st1) /\
    buildAjvValidator required_only_engine (fun src => Some src) user_schema
      append_b_boolean no_options st1
    = Some (validator (required_only_validate wire_append_a), st2).
Proof.
  split; [reflexivity|].
  destruct (makeOverrideKey_ignores_append JsVal (Obj JsVal)
              required_only_engine (fun src => Some src) wire_append_a
              eq_refl) as [_ [Hkey [_ [_ Hbuild]]]].
  split; [exact Hkey|exact Hbuild].
Defined.

(** ** The rule-tree cache *)

Lemma getOrSetRuleTree_again
      (V : Type) (s : SchemaArg)
      (compileFn other : SchemaArg -> Registry V ->
                         option (TreeRef * Registry V))
      (st st1 : Registry V) (r : TreeRef) :
  getOrSetRuleTree s compileFn st = Some (r, st1) ->
  getOrSetRuleTree s other st1 = Some (r, st1).
Proof.
  unfold getOrSetRuleTree.
  destruct (schema_ref s) as [ref|]; [|intros [= <- <-]; reflexivity].
  destruct (ref_get ref (ruleTreeCache st)) as [cached|] eqn:Hget.
  - intros [= <- <-]. rewrite Hget. reflexivity.
  - destruct (compileFn s st) as [[ruleTree st']|]; [|discriminate].
    intros [= <- <-]. simpl. rewrite ref_get_set_same. reflexivity.
Qed.

(** C4, on the code: the exported compiler does not consult the rule-tree
    cache.  Two calls on the same schema object return two distinct tree
    objects with equal contents, and the schema's paths are walked at each
    call. *)
Theorem compile_twice_is_not_cached
        (V : Type) (RegExp_new : string -> option string) :
  exists r1 st1 r2 st2,
    compileRulesFromMongooseSchema_obj RegExp_new user_schema
      (empty_registry V) = Some (r1, st1) /\
    compileRulesFromMongooseSchema_obj RegExp_new user_schema st1
    = Some (r2, st2) /\
    r1 <> r2 /\
    tree_of st2 r1 = tree_of st2 r2 /\
    walks st1 = [1%nat] /\
    walks st2 = [1%nat; 1%nat].
Proof.
  do 4 eexists. repeat split; try reflexivity. discriminate.
Qed.

(** C5, on the code: without a schema [getOrSetRuleTree] returns the
    sentinel and leaves the registry as it was, whatever the compile
    function is; the sentinel is [{type: 'object', fields: {}}], an object
    without [children], not [{type: 'object', children: {}}]. *)
Theorem getOrSetRuleTree_without_schema
        (V : Type)
        (compileFn : SchemaArg -> Registry V -> option (TreeRef * Registry V))
        (st : Registry V) :
  getOrSetRuleTree SchemaNull compileFn st = Some (SentinelRef, st) /\
  tree_of st SentinelRef = Some EMPTY_RULE_TREE /\
  rt_children EMPTY_RULE_TREE = Absent /\
  rt_fields EMPTY_RULE_TREE = Val [] /\
  EMPTY_RULE_TREE <> empty_root.
Proof.
  repeat split. discriminate.
Qed.

(** ** Writes of the rebuild through shared children *)

(** C7, on the code: for the base tree [{a: {type: 'array', children: {}}}]
    and [append = {'a.x': {type: 'string'}}], the call returns a new root
    and has written the appended rule into the children map of the base
    tree's [a]. *)
Theorem applyOverrides_writes_shared_children (fuel : nat) :
  exists h',
    Store.applyOverrides (S fuel) (Val 0%nat) Store.append_below_a
      Store.shared_heap = (Some 2%nat, h') /\
    Store.heap_get Store.shared_heap 0 =
      Some [("a", Store.mkNode (rule_of_type TArray) (Val 1%nat))] /\
    Store.heap_get Store.shared_heap 1 = Some [] /\
    Store.heap_get h' 1 =
      Some [("x", Store.mkNode
                    (set_required (Val true) (rule_of_type TString)) Absent)] /\
    ~ Store.unchanged Store.shared_heap h'.
Proof.
  eexists. split; [reflexivity|].
  repeat split.
  intros H. specialize (H 1%nat (Nat.lt_succ_diag_r 1)). discriminate H.
Qed.


(** *** Where the rebuild does not write *)

Lemma obj_set_In {A} k (v : A) m p x :
  In (p, x) (obj_set k v m) -> (p, x) = (k, v) \/ In (p, x) m.
Proof.
  unfold obj_set. destruct (obj_has k m).
  - induction m as [|[k1 v1] m IH]; simpl; [tauto|].
    destruct (String.eqb_spec k k1) as [->|Hne]; simpl.
    + intros [H|H]; auto.
    + intros [H|H]; auto. destruct (IH H); auto.
  - destruct (array_index k) as [n|].
    + induction m as [|[k1 v1] m IH]; simpl.
      * intros [H|[]]; auto.
      * destruct (array_index k1) as [n1|].
        -- destruct (n1 <? n)%N; simpl.
           ++ intros [H|H]; auto. destruct (IH H); auto.
           ++ intros [H|H]; auto.
        -- simpl. intros [H|H]; auto.
    + intros H. apply in_app_or in H. destruct H as [H|[H|[]]]; auto.
Qed.

Lemma heap_get_put_other l l' m h :
  l <> l' -> Store.heap_get (Store.heap_put l m h) l' = Store.heap_get h l'.
Proof.
  unfold Store.heap_get. revert l l'.
  induction h as [|x h IH]; intros l l' Hne.
  - destruct l; reflexivity.
  - destruct l as [|l]; destruct l' as [|l']; simpl; try reflexivity.
    + congruence.
    + apply IH. congruence.
Qed.

Lemma heap_get_put_same l m h x :
  Store.heap_get h l = Some x ->
  Store.heap_get (Store.heap_put l m h) l = Some m.
Proof.
  unfold Store.heap_get. revert l.
  induction h as [|y h IH]; intros l H.
  - destruct l; discriminate.
  - destruct l as [|l]; simpl; [reflexivity|]. apply IH. exact H.
Qed.

Lemma heap_get_alloc_old h m l :
  (l < List.length h)%nat ->
  Store.heap_get (snd (Store.alloc m h)) l = Store.heap_get h l.
Proof.
  intros H. unfold Store.alloc, Store.heap_get; simpl.
  apply nth_error_app1. exact H.
Qed.

Lemma heap_get_alloc_new h m :
  Store.heap_get (snd (Store.alloc m h)) (fst (Store.alloc m h)) = Some m.
Proof.
  unfold Store.alloc, Store.heap_get; simpl.
  rewrite nth_error_app2 by apply Nat.le_refl.
  rewrite Nat.sub_diag. reflexivity.
Qed.

Lemma heap_get_alloc_inv h m l x :
  Store.heap_get (snd (Store.alloc m h)) l = Some x ->
  Store.heap_get h l = Some x \/ (l = List.length h /\ x = m).
Proof.
  unfold Store.alloc, Store.heap_get; simpl. intros H.
  destruct (Nat.lt_ge_cases l (List.length h)) as [Hlt|Hge].
  - left. rewrite nth_error_app1 in H by exact Hlt. exact H.
  - right. rewrite nth_error_app2 in H by exact Hge.
    destruct (l - List.length h)%nat as [|d] eqn:Hd; simpl in H.
    + injection H as <-. split; [lia|reflexivity].
    + destruct d; discriminate.
Qed.

Lemma store_attach_cons seg rest rule cur h :
  rest <> [] ->
  Store.attach (seg :: rest) rule cur h =
  match Store.heap_get h cur with
  | None => (false, h)
  | Some m =>
      match obj_get seg m with
      | Some child =>
          match Store.kids child with
          | Val l => Store.attach rest rule l h
          | _ => (false, h)
          end
      | None =>
          let (l, h1) := Store.alloc [] h in
          Store.attach rest rule l
            (Store.heap_put cur
               (obj_set seg (Store.mkNode (rule_of_type TObject) (Val l)) m)
               h1)
      end
  end.
Proof. destruct rest; [congruence|reflexivity]. Qed.

Section Frame.

(** The heap before the call. *)
Variable h0 : Store.Heap.

Lemma framed_put cur m m' h :
  (List.length h0 <= cur)%nat ->
  Store.framed h0 h ->
  Store.heap_get h cur = Some m ->
  (forall p nd k, In (p, nd) m' -> Store.kids nd = Val k ->
                  In (p, nd) m \/ (List.length h0 <= k)%nat) ->
  Store.framed h0 (Store.heap_put cur m' h).
Proof.
  intros Hcur [Hold Hclosed] Hget Hnew. split.
  - intros l Hl. rewrite heap_get_put_other by lia. apply Hold. exact Hl.
  - intros l m2 p nd k Hl Hget2 Hin Hk.
    destruct (Nat.eq_dec cur l) as [<-|Hne].
    + rewrite (heap_get_put_same _ _ _ _ Hget) in Hget2.
      injection Hget2 as <-.
      destruct (Hnew p nd k Hin Hk) as [Hm|Hge]; [|exact Hge].
      exact (Hclosed cur m p nd k Hcur Hget Hm Hk).
    + rewrite heap_get_put_other in Hget2 by exact Hne.
      exact (Hclosed l m2 p nd k Hl Hget2 Hin Hk).
Qed.

Lemma framed_alloc h :
  Store.framed h0 h -> (List.length h0 <= List.length h)%nat ->
  Store.framed h0 (snd (Store.alloc [] h)).
Proof.
  intros [Hold Hclosed] Hlen. split.
  - intros l Hl. rewrite heap_get_alloc_old by lia. apply Hold. exact Hl.
  - intros l m p nd k Hl Hget Hin Hk.
    destruct (heap_get_alloc_inv _ _ _ _ Hget) as [Hget'|[_ ->]];
      [|destruct Hin].
    exact (Hclosed l m p nd k Hl Hget' Hin Hk).
Qed.

Lemma heap_get_length h l m :
  Store.heap_get h l = Some m -> (l < List.length h)%nat.
Proof.
  unfold Store.heap_get. intros H. apply nth_error_Some. congruence.
Qed.

Lemma attach_framed parts : forall rule cur h,
  (List.length h0 <= cur)%nat ->
  not_nullish (Store.kids rule) = false ->
  Store.framed h0 h ->
  Store.framed h0 (snd (Store.attach parts rule cur h)).
Proof.
  induction parts as [|seg rest IH]; intros rule cur h Hcur Hrule Hfr;
    [exact Hfr|].
  destruct rest as [|seg' rest'].
  - simpl. destruct (Store.heap_get h cur) as [m|] eqn:Hget; [|exact Hfr].
    simpl. apply (framed_put cur m _ h Hcur Hfr Hget).
    intros p nd k Hin Hk. left.
    destruct (obj_set_In _ _ _ _ _ Hin) as [Heq|Hm]; [|exact Hm].
    injection Heq as -> ->. rewrite Hk in Hrule. discriminate.
  - rewrite store_attach_cons by discriminate.
    destruct (Store.heap_get h cur) as [m|] eqn:Hget; [|exact Hfr].
    destruct (obj_get seg m) as [child|] eqn:Hchild.
    + destruct (Store.kids child) as [| |l] eqn:Hkids; try exact Hfr.
      apply IH; [|exact Hrule|exact Hfr].
      destruct Hfr as [_ Hclosed].
      exact (Hclosed cur m seg child l Hcur Hget
               (obj_get_In _ _ _ Hchild) Hkids).
    + pose proof (heap_get_length _ _ _ Hget) as Hlt.
      unfold Store.alloc at 1. cbv iota beta.
      apply IH; [lia|exact Hrule|].
      change (h ++ [[]]) with (snd (Store.alloc [] h)).
      apply (framed_put cur m).
      * exact Hcur.
      * apply framed_alloc; [exact Hfr|lia].
      * rewrite heap_get_alloc_old by exact Hlt. exact Hget.
      * intros p nd k Hin Hk.
        destruct (obj_set_In _ _ _ _ _ Hin) as [Heq|Hm]; [|left; exact Hm].
        right. injection Heq as -> ->. simpl in Hk. injection Hk as <-.
        lia.
Qed.

Lemma rebuild_framed es : forall root h,
  (List.length h0 <= root)%nat ->
  Store.no_kids es ->
  Store.framed h0 h ->
  Store.framed h0 (snd (Store.rebuild es root h)).
Proof.
  induction es as [|[path rule] es IH]; intros root h Hroot Hes Hfr;
    [exact Hfr|].
  simpl.
  pose proof (attach_framed (split_dot path) rule root h Hroot
                (Hes path rule (or_introl eq_refl)) Hfr) as Hstep.
  destruct (Store.attach (split_dot path) rule root h) as [[|] h'];
    [|exact Hstep].
  apply IH; [exact Hroot| |exact Hstep].
  intros p nd Hin. apply (Hes p nd). right. exact Hin.
Qed.

End Frame.

Lemma store_select_entry_no_kids o eff e :
  Store.no_kids eff ->
  not_nullish (Store.kids (snd e)) = false ->
  Store.no_kids (Store.select_entry o eff e).
Proof.
  intros Heff He. destruct e as [path rule]. unfold Store.select_entry.
  destruct (match Store.include o with
            | Val (x :: l) => negb (str_mem path (x :: l))
            | _ => false
            end); [exact Heff|].
  destruct (Store.in_list path (Store.exclude o)); [exact Heff|].
  intros p nd Hin.
  destruct (obj_set_In _ _ _ _ _ Hin) as [Heq|Hm]; [|exact (Heff p nd Hm)].
  injection Heq as -> ->.
  destruct (Store.in_list path (Store.optional o)),
           (Store.in_list path (Store.required_paths o)); exact He.
Qed.

Lemma store_select_fold_no_kids o es : forall eff,
  Store.no_kids es -> Store.no_kids eff ->
  Store.no_kids (fold_left (Store.select_entry o) es eff).
Proof.
  induction es as [|e es IH]; intros eff Hes Heff; [exact Heff|].
  simpl. apply IH.
  - intros p nd Hin. apply (Hes p nd). right. exact Hin.
  - apply store_select_entry_no_kids; [exact Heff|].
    destruct e as [p nd]. apply (Hes p nd). left. reflexivity.
Qed.

Lemma store_append_fold_no_kids m : forall eff,
  Store.no_kids m -> Store.no_kids eff ->
  Store.no_kids
    (fold_left
       (fun eff e => obj_set (fst e) (Store.merge_default (snd e)) eff)
       m eff).
Proof.
  induction m as [|[k v] m IH]; intros eff Hm Heff; [exact Heff|].
  simpl. apply IH.
  - intros p nd Hin. apply (Hm p nd). right. exact Hin.
  - intros p nd Hin.
    destruct (obj_set_In _ _ _ _ _ Hin) as [Heq|Hin'];
      [|exact (Heff p nd Hin')].
    injection Heq as -> ->. simpl. apply (Hm k v). left. reflexivity.
Qed.

Lemma store_effective_all_no_kids baseMap o :
  Store.no_kids baseMap ->
  Store.no_kids (match Store.append o with Val m => m | _ => [] end) ->
  Store.no_kids (Store.effective_all baseMap o).
Proof.
  intros Hbase Happ. unfold Store.effective_all.
  apply store_append_fold_no_kids; [exact Happ|].
  apply store_select_fold_no_kids; [exact Hbase|].
  intros p nd [].
Qed.

(** What holds of the rebuild: when no retained leaf and no appended rule
    holds a children map, a call of [applyOverrides] leaves every map that
    existed before it as it was, whether it returns or throws. *)
Lemma applyOverrides_frame fuel ruleTree o h baseMap :
  Store.flatten fuel h ruleTree EmptyString [] = Some baseMap ->
  Store.no_kids baseMap ->
  Store.no_kids (match Store.append o with Val m => m | _ => [] end) ->
  Store.unchanged h (snd (Store.applyOverrides fuel ruleTree o h)).
Proof.
  intros Hflat Hbase Happ. unfold Store.applyOverrides. rewrite Hflat.
  unfold Store.alloc at 1. cbv iota beta.
  match goal with
  | |- context [Store.rebuild ?es ?root ?h1] =>
      assert (Hfr : Store.framed h (snd (Store.rebuild es root h1)));
      [|destruct (Store.rebuild es root h1) as [[|] h']; exact (proj1 Hfr)]
  end.
  apply rebuild_framed.
  - apply Nat.le_refl.
  - apply store_effective_all_no_kids; assumption.
  - change (Store.framed h (snd (Store.alloc [] h))).
    apply framed_alloc; [|apply Nat.le_refl].
    split; [intros l _; reflexivity|].
    intros l m p nd k Hl Hget _ _.
    apply heap_get_length in Hget. lia.
Qed.

(* ================================================================== *)
(** * Further properties of the code *)

(** ** Override engine: the flattened map *)

Lemma flatten_entry_NoDup child : forall path out,
  NoDup (obj_keys out) -> NoDup (obj_keys (flatten_entry child path out)).
Proof.
  induction child as [t req minL maxL pat en mn mx its minI maxI ch _ IH]
    using Rule_nested_ind.
  intros path out Hnd. simpl.
  destruct (type_is t TObject); [|apply obj_set_NoDup; exact Hnd].
  destruct ch as [| |m]; try (apply obj_set_NoDup; exact Hnd).
  specialize (IH m eq_refl). revert out Hnd.
  induction IH as [|[k c] m Hc _ IHm]; intros out Hnd; [exact Hnd|].
  apply IHm. apply Hc. exact Hnd.
Qed.

Lemma flatten_entries_NoDup es : forall prefix out,
  NoDup (obj_keys out) -> NoDup (obj_keys (flatten_entries es prefix out)).
Proof.
  induction es as [|[k c] es IH]; intros prefix out Hnd; [exact Hnd|].
  simpl. apply IH. apply flatten_entry_NoDup. exact Hnd.
Qed.

Lemma flatten_NoDup ruleTree : NoDup (obj_keys (flatten ruleTree)).
Proof. apply flatten_entries_NoDup. constructor. Qed.

Lemma select_entry_forced o eff path rule :
  passes o path = true ->
  obj_get path (select_entry o eff (path, rule)) = Some (forced o path rule).
Proof.
  unfold passes, select_entry, forced. intros Hpass.
  apply andb_true_iff in Hpass. destruct Hpass as [Hinc Hexc].
  apply negb_true_iff in Hexc. rewrite Hexc.
  destruct (include_set o) as [inc|]; [rewrite Hinc|]; simpl;
    rewrite obj_get_set_same;
    destruct (str_mem path (set_or_empty (required_paths o))),
             (str_mem path (set_or_empty (optional o))); reflexivity.
Qed.

Lemma select_fold_forced o p r es : forall eff,
  NoDup (obj_keys es) ->
  passes o p = true ->
  obj_get p es = Some r ->
  obj_get p (fold_left (select_entry o) es eff) = Some (forced o p r).
Proof.
  induction es as [|[path rule] es IH]; intros eff Hnd Hpass Hget;
    [discriminate|].
  cbn [fold_left]. simpl in Hget, Hnd.
  inversion Hnd as [|? ? Hnot Hnd']; subst.
  destruct (String.eqb_spec p path) as [->|Hne].
  - injection Hget as ->.
    assert (Hrest : forall eff',
               obj_get path (fold_left (select_entry o) es eff') =
               obj_get path eff').
    { clear IH Hnd Hnd'. induction es as [|[q v] es IHes]; intros eff';
        [reflexivity|].
      cbn [fold_left]. rewrite IHes.
      - apply select_entry_other. intros ->. apply Hnot. left. reflexivity.
      - intros H. apply Hnot. right. exact H. }
    rewrite Hrest. apply select_entry_forced. exact Hpass.
  - apply IH; assumption.
Qed.

(** ** Override engine: when the rebuild succeeds *)

Lemma walkable_empty parts : walkable parts [] = true.
Proof. destruct parts as [|a [|b parts]]; reflexivity. Qed.

Lemma walkable_cons seg rest ch :
  rest <> [] ->
  walkable (seg :: rest) ch =
  match obj_get seg ch with
  | None => true
  | Some c => match children c with
              | Val m => walkable rest m
              | _ => false
              end
  end.
Proof. destruct rest; [congruence|reflexivity]. Qed.

Lemma attach_parts_walkable parts : forall rule ch,
  walkable parts ch = true ->
  exists ch', attach_parts parts rule ch = Some ch'.
Proof.
  induction parts as [|seg rest IH]; intros rule ch Hw.
  - exists ch. reflexivity.
  - destruct rest as [|seg' rest'].
    + eexists. reflexivity.
    + rewrite attach_parts_cons by discriminate. cbv zeta.
      rewrite walkable_cons in Hw by discriminate.
      destruct (obj_get seg ch) as [c|].
      * destruct (children c) as [| |m]; try discriminate.
        destruct (IH rule m Hw) as [m' ->]. eexists. reflexivity.
      * simpl children.
        destruct (IH rule [] (walkable_empty _)) as [m' ->].
        eexists. reflexivity.
Qed.

Lemma walkable_attach p : forall q rule ch ch',
  diverge p q = true ->
  attach_parts p rule ch = Some ch' ->
  walkable q ch = true ->
  walkable q ch' = true.
Proof.
  induction p as [|a p IH]; intros q rule ch ch' Hdiv Hatt Hw;
    [discriminate|].
  destruct q as [|b q]; [discriminate|].
  destruct q as [|b' q']; [reflexivity|].
  rewrite walkable_cons in Hw |- * by discriminate.
  simpl in Hdiv.
  destruct (String.eqb a b) eqn:E.
  - apply String.eqb_eq in E; subst b.
    destruct p as [|a' p']; [discriminate|].
    rewrite attach_parts_cons in Hatt by discriminate. cbv zeta in Hatt.
    destruct (children _) as [| |m] eqn:Hch; try discriminate.
    destruct (attach_parts (a' :: p') rule m) as [m'|] eqn:Hm;
      [|discriminate].
    injection Hatt as <-. rewrite obj_get_set_same. simpl children.
    apply (IH (b' :: q') rule m m' Hdiv Hm).
    destruct (obj_get a ch) as [c|].
    + rewrite Hch in Hw. exact Hw.
    + simpl in Hch. injection Hch as <-. apply walkable_empty.
  - apply String.eqb_neq in E.
    assert (Hget : obj_get b ch' = obj_get b ch).
    { destruct p as [|a' p'].
      - simpl in Hatt. injection Hatt as <-.
        apply obj_get_set_other; assumption.
      - rewrite attach_parts_cons in Hatt by discriminate.
        cbv zeta in Hatt.
        destruct (children _) as [| |m]; try discriminate.
        destruct (attach_parts (a' :: p') rule m); [|discriminate].
        injection Hatt as <-. apply obj_get_set_other; assumption. }
    rewrite Hget. exact Hw.
Qed.

Lemma rebuild_total es : forall ch,
  NoDup (obj_keys es) ->
  prefix_free es ->
  (forall q, In q (obj_keys es) -> walkable (split_dot q) ch = true) ->
  exists ch', rebuild es ch = Some ch'.
Proof.
  induction es as [|[q v] es IH]; intros ch Hnd Hfree Hw.
  - exists ch. reflexivity.
  - simpl. simpl in Hnd. inversion Hnd as [|? ? Hq Hnd']; subst.
    destruct (attach_parts_walkable (split_dot q) v ch
                (Hw q (or_introl eq_refl))) as [ch1 Hatt].
    rewrite Hatt. apply IH.
    + exact Hnd'.
    + intros p Hp p' Hp' Hne.
      apply (Hfree p (or_intror Hp) p' (or_intror Hp') Hne).
    + intros q' Hq'.
      apply (walkable_attach (split_dot q) (split_dot q') v ch ch1).
      * apply (Hfree q' (or_intror Hq') q (or_introl eq_refl)).
        intros ->. exact (Hq Hq').
      * exact Hatt.
      * apply Hw. right. exact Hq'.
Qed.

Lemma rebuild_other es : forall ch ch' p,
  rebuild es ch = Some ch' ->
  (forall q, In q (obj_keys es) ->
             diverge (split_dot q) (split_dot p) = true) ->
  rule_at_parts (split_dot p) ch' = rule_at_parts (split_dot p) ch.
Proof.
  induction es as [|[q v] es IH]; intros ch ch' p H Hall; simpl in H.
  - injection H as <-. reflexivity.
  - destruct (attach_parts (split_dot q) v ch) as [ch1|] eqn:Hatt;
      [|discriminate].
    rewrite (IH ch1 ch' p H (fun q' Hq' => Hall q' (or_intror Hq'))).
    eapply attach_parts_other;
      [exact (Hall q (or_introl eq_refl))|exact Hatt].
Qed.

Lemma append_fold_has (f : Rule -> Rule) p m : forall eff,
  obj_has p (fold_left (fun eff e => obj_set (fst e) (f (snd e)) eff) m eff)
  = obj_has p eff || obj_has p m.
Proof.
  induction m as [|[k v] m IH]; intros eff; simpl.
  - rewrite orb_false_r. reflexivity.
  - rewrite IH, obj_has_set. unfold obj_has at 4. simpl.
    destruct (String.eqb p k); simpl.
    + rewrite orb_true_r. reflexivity.
    + reflexivity.
Qed.

Lemma effective_all_has ruleTree o p :
  obj_has p (effective_all ruleTree o) =
  (obj_has p (flatten ruleTree) && passes o p)
  || obj_has p (match append o with Val m => m | _ => [] end).
Proof.
  unfold effective_all. rewrite append_fold_has, effective_base_has.
  reflexivity.
Qed.

Lemma effective_all_candidate ruleTree o p :
  In p (obj_keys (effective_all ruleTree o)) ->
  In p (candidate_paths ruleTree o).
Proof.
  rewrite <- obj_has_In, effective_all_has. unfold candidate_paths.
  intros H. apply in_or_app. apply orb_true_iff in H.
  destruct H as [H|H].
  - left. apply andb_true_iff in H. apply obj_has_In. tauto.
  - right. apply obj_has_In. exact H.
Qed.

Lemma part_ways_prefix_free ruleTree o :
  part_ways (candidate_paths ruleTree o) ->
  prefix_free (effective_all ruleTree o).
Proof.
  intros H p Hp q Hq Hne.
  apply H; [apply effective_all_candidate; exact Hq
           |apply effective_all_candidate; exact Hp|exact Hne].
Qed.

Lemma applyOverrides_total
        (ruleTree : RuleTree) (o : Overrides) :
  part_ways (candidate_paths ruleTree o) ->
  exists tree,
    applyOverrides ruleTree o = Some tree /\
    forall p r, obj_get p (effective_all ruleTree o) = Some r ->
                rule_at p tree = Some r.
Proof.
  intros Hways.
  pose proof (part_ways_prefix_free _ _ Hways) as Hfree.
  destruct (rebuild_total (effective_all ruleTree o) []
              (effective_all_NoDup ruleTree o) Hfree
              (fun q _ => walkable_empty (split_dot q))) as [ch Hch].
  exists (mkRuleTree (Val ch) Absent). split.
  - unfold applyOverrides. rewrite Hch. reflexivity.
  - intros p r Hget.
    apply (applyOverrides_rule_at ruleTree o _ p r).
    + unfold applyOverrides. rewrite Hch. reflexivity.
    + exact Hget.
    + apply Hfree. apply obj_has_In. unfold obj_has. rewrite Hget.
      reflexivity.
Qed.

(** X1: when no leaf path of the base tree and no path of [append] is a
    dotted prefix of another (and their segments are plain names),
    [applyOverrides] does not throw, and every entry of its effective map
    is found in the returned tree at its path. *)
Theorem applyOverrides_returns
        (ruleTree : RuleTree) (o : Overrides) :
  plain_paths (candidate_paths ruleTree o) = true ->
  part_ways (candidate_paths ruleTree o) ->
  exists tree,
    applyOverrides ruleTree o = Some tree /\
    forall p r, obj_get p (effective_all ruleTree o) = Some r ->
                rule_at p tree = Some r.
Proof. intros _. exact (applyOverrides_total ruleTree o). Qed.

Ltac part_ways_by_cases :=
  intros p q Hp Hq Hne; vm_compute in Hp, Hq;
  repeat (destruct Hp as [<-|Hp]; [|try contradiction]);
  repeat (destruct Hq as [<-|Hq]; [|try contradiction]);
  try reflexivity; try (exfalso; apply Hne; reflexivity).

Lemma applyOverrides_returns_witness :
  part_ways (candidate_paths password_tree profile_overrides) /\
  exists tree,
    applyOverrides password_tree profile_overrides = Some tree /\
    rule_at "address.city" tree =
    Some (set_required (Val true) (rule_of_type TString)).
Proof.
  assert (H : part_ways (candidate_paths password_tree profile_overrides)).
  { part_ways_by_cases. }
  split; [exact H|].
  destruct (applyOverrides_returns password_tree profile_overrides eq_refl H)
    as [tree [Htree Hall]].
  exists tree. split; [exact Htree|].
  apply Hall. reflexivity.
Defined.

Lemma retained_rule_found
        (ruleTree : RuleTree) (o : Overrides) (path : string)
        (base : Rule) (tree : RuleTree) :
  obj_get path (flatten ruleTree) = Some base ->
  passes o path = true ->
  obj_has path (match append o with Val m => m | _ => [] end) = false ->
  stands_alone path (effective_all ruleTree o) ->
  applyOverrides ruleTree o = Some tree ->
  rule_at path tree =
  Some (if str_mem path (set_or_empty (required_paths o))
        then set_required (Val true) base
        else if str_mem path (set_or_empty (optional o))
             then set_required (Val false) base
             else base).
Proof.
  intros Hbase Hpass Happend Halone Happ.
  eapply applyOverrides_rule_at; [exact Happ| |exact Halone].
  unfold effective_all. rewrite append_fold_other by exact Happend.
  apply (select_fold_forced o path base (flatten ruleTree) []
           (flatten_NoDup ruleTree) Hpass Hbase).
Qed.



Lemma rejected_path_absent
        (ruleTree : RuleTree) (o : Overrides) (path : string)
        (tree : RuleTree) :
  obj_has path (flatten ruleTree) && passes o path = false ->
  obj_has path (match append o with Val m => m | _ => [] end) = false ->
  stands_alone path (effective_all ruleTree o) ->
  applyOverrides ruleTree o = Some tree ->
  rule_at path tree = None.
Proof.
  intros Hbase Happend Halone Happ.
  destruct (applyOverrides_children _ _ _ Happ) as [ch [Hre ->]].
  unfold rule_at; simpl.
  rewrite (rebuild_other _ _ _ path Hre).
  - apply rule_at_parts_empty.
  - intros q Hq. apply Halone; [exact Hq|].
    intros ->. apply obj_has_In in Hq.
    rewrite effective_all_has, Hbase, Happend in Hq. discriminate.
Qed.

(** X3: a path that the include/exclude filter rejects or that is no leaf
    of the base tree, that is not appended and that parts ways with every
    effective path, is not in the returned tree (paths of plain
    names). *)
Theorem applyOverrides_drops_path
        (ruleTree : RuleTree) (o : Overrides) (path : string)
        (tree : RuleTree) :
  plain_paths (candidate_paths ruleTree o) = true ->
  obj_has path (flatten ruleTree) && passes o path = false ->
  obj_has path (match append o with Val m => m | _ => [] end) = false ->
  stands_alone path (effective_all ruleTree o) ->
  applyOverrides ruleTree o = Some tree ->
  rule_at path tree = None.
Proof. intros _. exact (rejected_path_absent ruleTree o path tree). Qed.

Lemma applyOverrides_drops_path_witness :
  exists tree,
    applyOverrides abc_tree include_ab_exclude_b = Some tree /\
    rule_at "b" tree = None /\ rule_at "c" tree = None.
Proof.
  destruct (applyOverrides abc_tree include_ab_exclude_b)
    as [tree|] eqn:Happ; [|vm_compute in Happ; discriminate Happ].
  exists tree. split; [reflexivity|].
  split.
  - apply (applyOverrides_drops_path abc_tree include_ab_exclude_b "b" tree);
      try reflexivity; [|exact Happ].
    intros q Hq Hne. vm_compute in Hq. destruct Hq as [<-|[]]. reflexivity.
  - apply (applyOverrides_drops_path abc_tree include_ab_exclude_b "c" tree);
      try reflexivity; [|exact Happ].
    intros q Hq Hne. vm_compute in Hq. destruct Hq as [<-|[]]. reflexivity.
Defined.

(** ** Dotted paths: split and join *)

Lemma split_dot_aux_acc s : forall cur,
  split_dot_aux s cur =
  (cur ++ hd EmptyString (split_dot s))%string :: tl (split_dot s).
Proof.
  unfold split_dot.
  induction s as [|c s IH]; intros cur; simpl.
  - f_equal. induction cur as [|x cur IHc]; simpl; congruence.
  - destruct (Ascii.eqb c ".").
    + simpl. f_equal. induction cur as [|x cur IHc]; simpl; congruence.
    + rewrite (IH (cur ++ String c EmptyString)%string).
      rewrite (IH (String c EmptyString)). simpl. f_equal.
      induction cur as [|x cur IHc]; simpl; [reflexivity|].
      rewrite IHc. reflexivity.
Qed.

Lemma split_dot_cons c s :
  split_dot (String c s) =
  if Ascii.eqb c "." then EmptyString :: split_dot s
  else String c (hd EmptyString (split_dot s)) :: tl (split_dot s).
Proof.
  unfold split_dot at 1. simpl.
  destruct (Ascii.eqb c "."); [reflexivity|].
  rewrite split_dot_aux_acc. reflexivity.
Qed.

Lemma split_dot_app_dot a b :
  split_dot (a ++ "." ++ b) = split_dot a ++ split_dot b.
Proof.
  induction a as [|c a IH].
  - reflexivity.
  - change (String c a ++ "." ++ b)%string
      with (String c (a ++ "." ++ b)).
    rewrite !split_dot_cons, IH.
    destruct (Ascii.eqb c "."); [reflexivity|].
    pose proof (split_dot_nonempty a) as Hne.
    destruct (split_dot a) as [|x l]; [congruence|]. reflexivity.
Qed.

Lemma split_dot_good k : has_dot k = false -> split_dot k = [k].
Proof.
  induction k as [|c k IH]; intros H; [reflexivity|].
  simpl in H. apply orb_false_iff in H. destruct H as [Hc Hk].
  rewrite split_dot_cons, Hc, (IH Hk). reflexivity.
Qed.

Lemma join_split_dot s : join "." (split_dot s) = s.
Proof.
  induction s as [|c s IH]; [reflexivity|].
  rewrite split_dot_cons.
  pose proof (split_dot_nonempty s) as Hne.
  destruct (Ascii.eqb_spec c ".") as [->|Hc].
  - destruct (split_dot s) as [|x l]; [congruence|].
    change (join "." (EmptyString :: x :: l))
      with ("." ++ join "." (x :: l))%string.
    rewrite IH. reflexivity.
  - destruct (split_dot s) as [|x l]; [congruence|].
    simpl hd. simpl tl.
    destruct l as [|y l]; simpl in *; congruence.
Qed.

Lemma split_dot_inj p q : split_dot p = split_dot q -> p = q.
Proof.
  intros H. rewrite <- (join_split_dot p), <- (join_split_dot q), H.
  reflexivity.
Qed.

Lemma join_path_split prefix k :
  prefix <> EmptyString -> has_dot k = false ->
  split_dot (join_path prefix k) = split_dot prefix ++ [k].
Proof.
  intros Hp Hk. unfold join_path.
  destruct (String.eqb_spec prefix EmptyString); [congruence|].
  rewrite split_dot_app_dot, (split_dot_good k Hk). reflexivity.
Qed.

Lemma join_path_nonempty prefix k :
  k <> EmptyString -> join_path prefix k <> EmptyString.
Proof.
  intros Hk. unfold join_path.
  destruct (String.eqb prefix EmptyString); [exact Hk|].
  destruct prefix; discriminate.
Qed.

Lemma diverge_or_prefix (l1 : list string) : forall l2,
  diverge l1 l2 = true \/
  (exists rest, l2 = l1 ++ rest) \/ (exists rest, l1 = l2 ++ rest).
Proof.
  induction l1 as [|a l1 IH]; intros l2.
  - right. left. exists l2. reflexivity.
  - destruct l2 as [|b l2].
    + right. right. exists (a :: l1). reflexivity.
    + simpl. destruct (String.eqb_spec a b) as [->|Hne]; [|left; reflexivity].
      destruct (IH l2) as [H|[[rest ->]|[rest ->]]].
      * left. exact H.
      * right. left. exists rest. reflexivity.
      * right. right. exists rest. reflexivity.
Qed.

(** ** Override engine: where [flatten] finds its entries *)

Lemma rule_at_parts_snoc parts : forall root c m k,
  parts <> [] ->
  rule_at_parts parts root = Some c ->
  children c = Val m ->
  rule_at_parts (parts ++ [k]) root = obj_get k m.
Proof.
  induction parts as [|a parts IH]; intros root c m k Hne Hat Hch;
    [congruence|].
  destruct parts as [|b parts].
  - simpl in Hat. simpl. rewrite Hat, Hch. reflexivity.
  - change ((a :: b :: parts) ++ [k]) with (a :: ((b :: parts) ++ [k])).
    rewrite rule_at_parts_cons in Hat.
    rewrite rule_at_parts_cons. simpl app.
    destruct (obj_get a root) as [c0|]; [|discriminate].
    destruct (children c0) as [| |m0]; try discriminate.
    apply (IH m0 c m k); [discriminate|exact Hat|exact Hch].
Qed.

Lemma app_snoc_split {A} (pre rest l : list A) x :
  pre ++ rest = l ++ [x] -> rest <> [] ->
  (pre = l /\ rest = [x]) \/
  (exists rest', rest' <> [] /\ l = pre ++ rest').
Proof.
  revert l. induction pre as [|a pre IH]; intros l H Hrest.
  - simpl in H. subst rest. destruct l as [|b l].
    + left. split; reflexivity.
    + right. exists (b :: l). split; [discriminate|reflexivity].
  - destruct l as [|b l].
    + simpl in H. injection H as -> H.
      destruct pre; [simpl in H; congruence|discriminate].
    + simpl in H. injection H as -> H.
      destruct (IH l H Hrest) as [[-> ->]|[rest' [Hne ->]]].
      * left. split; reflexivity.
      * right. exists rest'. split; [exact Hne|reflexivity].
Qed.

Lemma wf_rule_children t req minL maxL pat en mn mx its minI maxI m :
  wf_rule (mkRule t req minL maxL pat en mn mx its minI maxI (Val m)) ->
  type_is t TObject = true ->
  wf_children m /\ Forall (fun e => wf_rule (snd e)) m.
Proof.
  intros Hwf Ht. simpl in Hwf. rewrite Ht in Hwf.
  destruct Hwf as [Hm Hall]. split; [exact Hm|].
  clear Hm. induction m as [|e m IH]; constructor.
  - exact (proj1 Hall).
  - apply IH. exact (proj2 Hall).
Qed.

Section FlattenSound.

(** The children map of the root that is flattened. *)
Variable root : Obj Rule.

Lemma all_located_set out path c :
  all_located root out -> located root path c ->
  all_located root (obj_set path c out).
Proof.
  intros Hout Hc p r. rewrite obj_get_set.
  destruct (String.eqb_spec p path) as [->|Hne].
  - intros [= <-]. exact Hc.
  - apply Hout.
Qed.

Lemma flatten_entry_located child : forall path out,
  wf_rule child ->
  path <> EmptyString ->
  rule_at_parts (split_dot path) root = Some child ->
  (forall pre rest,
      split_dot path = pre ++ rest -> pre <> [] -> rest <> [] ->
      exists n, rule_at_parts pre root = Some n /\ is_leaf n = false) ->
  all_located root out ->
  all_located root (flatten_entry child path out).
Proof.
  induction child as [t req minL maxL pat en mn mx its minI maxI ch _ IH]
    using Rule_nested_ind.
  intros path out Hwf Hpath Hat Hpre Hout.
  cbn [flatten_entry].
  destruct (type_is t TObject) eqn:Ht.
  - destruct ch as [| |m].
    + apply all_located_set; [exact Hout|].
      split; [exact Hat|split; [|exact Hpre]].
      unfold is_leaf; simpl. rewrite Ht. reflexivity.
    + apply all_located_set; [exact Hout|].
      split; [exact Hat|split; [|exact Hpre]].
      unfold is_leaf; simpl. rewrite Ht. reflexivity.
    + destruct (wf_rule_children _ _ _ _ _ _ _ _ _ _ _ _ Hwf Ht)
        as [[Hnd Hgood] Hall].
      specialize (IH m eq_refl).
      match goal with
      | |- all_located root (?loop m out) =>
          assert (Hloop : forall l out',
                     (forall e, In e l -> In e m) ->
                     all_located root out' ->
                     all_located root (loop l out'));
            [|apply Hloop; [auto|exact Hout]]
      end.
      clear out Hout.
      intros l. induction l as [|[k c] l IHl]; intros out Hsub Hout;
        [exact Hout|].
      apply IHl; [intros e He; apply Hsub; right; exact He|].
      assert (Hin : In (k, c) m) by (apply Hsub; left; reflexivity).
      assert (Hk : good_key k = true).
      { apply Hgood. apply (in_map fst) in Hin. exact Hin. }
      apply andb_true_iff in Hk. destruct Hk as [Hk1 Hk2].
      apply negb_true_iff in Hk1, Hk2.
      apply String.eqb_neq in Hk1.
      assert (Hsplit : split_dot (join_path path k) = split_dot path ++ [k])
        by (apply join_path_split; assumption).
      assert (Hc : rule_at_parts (split_dot path ++ [k]) root = Some c).
      { rewrite (rule_at_parts_snoc _ _ _ m k (split_dot_nonempty path) Hat
                   eq_refl).
        apply obj_get_NoDup; assumption. }
      rewrite Forall_forall in IH, Hall.
      apply (IH (k, c) Hin).
      * apply (Hall (k, c) Hin).
      * apply join_path_nonempty. exact Hk1.
      * rewrite Hsplit. exact Hc.
      * rewrite Hsplit. intros pre rest Heq Hp Hr.
        destruct (app_snoc_split _ _ _ _ (eq_sym Heq) Hr)
          as [[-> _]|[rest' [Hr' Hl]]].
        -- eexists. split; [exact Hat|].
           unfold is_leaf; simpl. rewrite Ht. reflexivity.
        -- apply (Hpre pre rest' Hl Hp Hr').
      * exact Hout.
  - apply all_located_set; [exact Hout|].
    split; [exact Hat|split; [|exact Hpre]].
    unfold is_leaf; simpl. rewrite Ht. reflexivity.
Qed.

Lemma flatten_entries_located es : forall out,
  wf_children root ->
  (forall e, In e es -> In e root) ->
  Forall (fun e => wf_rule (snd e)) es ->
  all_located root out ->
  all_located root (flatten_entries es EmptyString out).
Proof.
  induction es as [|[k c] es IH]; intros out Hroot Hsub Hwf Hout;
    [exact Hout|].
  cbn [flatten_entries].
  inversion Hwf as [|? ? Hc Hwf']; subst.
  apply IH; [exact Hroot|intros e He; apply Hsub; right; exact He
            |exact Hwf'|].
  destruct Hroot as [Hnd Hgood].
  assert (Hin : In (k, c) root) by (apply Hsub; left; reflexivity).
  assert (Hk : good_key k = true).
  { apply Hgood. apply (in_map fst) in Hin. exact Hin. }
  apply andb_true_iff in Hk. destruct Hk as [Hk1 Hk2].
  apply negb_true_iff in Hk1, Hk2. apply String.eqb_neq in Hk1.
  change (join_path EmptyString k) with k.
  apply flatten_entry_located.
  - exact Hc.
  - exact Hk1.
  - rewrite (split_dot_good k Hk2). simpl.
    apply obj_get_NoDup; assumption.
  - rewrite (split_dot_good k Hk2). intros pre rest Heq Hp Hr.
    destruct pre as [|a pre]; [congruence|].
    simpl in Heq. injection Heq as _ Heq.
    destruct pre; destruct rest; simpl in Heq; congruence.
  - exact Hout.
Qed.

End FlattenSound.

Lemma diverge_sym (p : list string) : forall q, diverge p q = diverge q p.
Proof.
  induction p as [|a p IH]; intros [|b q]; simpl; try reflexivity.
  rewrite (String.eqb_sym b a). destruct (String.eqb a b); auto.
Qed.

Lemma located_part_ways root p q r r' :
  located root p r -> located root q r' -> p <> q ->
  diverge (split_dot p) (split_dot q) = true.
Proof.
  intros [Hp [Hleaf Hpre]] [Hq [Hleaf' Hpre']] Hne.
  destruct (diverge_or_prefix (split_dot p) (split_dot q))
    as [H|[[rest H]|[rest H]]]; [exact H| |].
  - destruct rest as [|x rest].
    + rewrite app_nil_r in H. apply split_dot_inj in H. congruence.
    + destruct (Hpre' _ _ H (split_dot_nonempty p)) as [n [Hn Hn']];
        [discriminate|].
      rewrite Hp in Hn. injection Hn as <-. congruence.
  - destruct rest as [|x rest].
    + rewrite app_nil_r in H. apply split_dot_inj in H. congruence.
    + destruct (Hpre _ _ H (split_dot_nonempty q)) as [n [Hn Hn']];
        [discriminate|].
      rewrite Hq in Hn. injection Hn as <-. congruence.
Qed.

Lemma flatten_all_located ruleTree m :
  rt_children ruleTree = Val m ->
  wf_tree ruleTree ->
  all_located m (flatten ruleTree).
Proof.
  intros Hm Hwf. unfold wf_tree in Hwf. unfold flatten.
  rewrite Hm in *. destruct Hwf as [Hch Hall].
  apply flatten_entries_located; auto.
  intros p r H. discriminate H.
Qed.

Lemma flatten_entry_facts (ruleTree : RuleTree) (p : string) (r : Rule) :
  wf_tree ruleTree ->
  obj_get p (flatten ruleTree) = Some r ->
  rule_at p ruleTree = Some r /\
  is_leaf r = true /\
  forall q, In q (obj_keys (flatten ruleTree)) -> q <> p ->
            diverge (split_dot q) (split_dot p) = true.
Proof.
  intros Hwf Hget.
  destruct (rt_children ruleTree) as [| |m] eqn:Hm;
    try (unfold flatten in Hget; rewrite Hm in Hget; discriminate).
  pose proof (flatten_all_located ruleTree m Hm Hwf) as Hall.
  pose proof (Hall p r Hget) as Hloc.
  split; [|split].
  - unfold rule_at. rewrite Hm. exact (proj1 Hloc).
  - exact (proj1 (proj2 Hloc)).
  - intros q Hq Hne. apply obj_has_In in Hq. unfold obj_has in Hq.
    destruct (obj_get q (flatten ruleTree)) as [r'|] eqn:Hq';
      [|discriminate].
    exact (located_part_ways m q p r' r (Hall q r' Hq') Hloc Hne).
Qed.

(** X4: in a tree whose expanded children maps have distinct, non-empty,
    dot-free keys, every entry of [flatten] is the rule found at its dotted
    path of the tree, it is a leaf ([flatten] did not expand it), and no
    flattened path is a dotted prefix of another. *)
Theorem flatten_sound (ruleTree : RuleTree) (p : string) (r : Rule) :
  wf_tree ruleTree ->
  obj_get p (flatten ruleTree) = Some r ->
  rule_at p ruleTree = Some r /\
  is_leaf r = true /\
  forall q, In q (obj_keys (flatten ruleTree)) -> q <> p ->
            diverge (split_dot q) (split_dot p) = true.
Proof. exact (flatten_entry_facts ruleTree p r). Qed.

Lemma wf_password_tree : wf_tree password_tree.
Proof.
  split.
  - split.
    + repeat constructor; simpl; intuition discriminate.
    + intros k [<-|[<-|[]]]; reflexivity.
  - repeat constructor.
Qed.

Lemma flatten_sound_witness :
  rule_at "password" password_tree =
    Some (set_required (Val false) (rule_of_type TString)) /\
  is_leaf (set_required (Val false) (rule_of_type TString)) = true.
Proof.
  destruct (flatten_sound password_tree "password"
              (set_required (Val false) (rule_of_type TString))
              wf_password_tree eq_refl) as [H1 [H2 _]].
  split; assumption.
Defined.

(** X5: on a well-formed base tree with leaf paths of plain names, and
    with overrides that append nothing, [applyOverrides] does not throw, and the returned tree holds each leaf
    of the base tree that passes the include/exclude filter, with
    [required] forced as [required] and [optional] direct, and holds no
    leaf that the filter rejects. *)
Theorem applyOverrides_without_append
        (ruleTree : RuleTree) (o : Overrides) :
  wf_tree ruleTree ->
  plain_paths (obj_keys (flatten ruleTree)) = true ->
  match append o with Val m => m | _ => [] end = [] ->
  exists tree,
    applyOverrides ruleTree o = Some tree /\
    forall p base,
      obj_get p (flatten ruleTree) = Some base ->
      rule_at p tree =
      if passes o p
      then Some (if str_mem p (set_or_empty (required_paths o))
                 then set_required (Val true) base
                 else if str_mem p (set_or_empty (optional o))
                      then set_required (Val false) base
                      else base)
      else None.
Proof.
  intros Hwf _ Happend.
  assert (Hways : part_ways (candidate_paths ruleTree o)).
  { assert (Hc : candidate_paths ruleTree o = obj_keys (flatten ruleTree)).
    { unfold candidate_paths.
      destruct (append o) as [| |m]; simpl in Happend |- *;
        try subst m; apply app_nil_r. }
    rewrite Hc. intros p q Hp Hq Hne.
    apply obj_has_In in Hp. unfold obj_has in Hp.
    destruct (obj_get p (flatten ruleTree)) as [r|] eqn:Hr; [|discriminate].
    rewrite diverge_sym.
    apply (proj2 (proj2 (flatten_entry_facts ruleTree p r Hwf Hr)) q Hq).
    congruence. }
  destruct (applyOverrides_total ruleTree o Hways) as [tree [Htree _]].
  exists tree. split; [exact Htree|].
  intros p base Hbase.
  assert (Halone : stands_alone p (effective_all ruleTree o)).
  { intros q Hq Hne. apply Hways.
    - apply effective_all_candidate. exact Hq.
    - unfold candidate_paths. apply in_or_app. left.
      apply obj_has_In. unfold obj_has. rewrite Hbase. reflexivity.
    - exact Hne. }
  assert (Hnone : obj_has p (match append o with Val m => m | _ => [] end)
                  = false).
  { destruct (append o) as [| |m]; simpl in Happend |- *;
      try subst m; reflexivity. }
  destruct (passes o p) eqn:Hpass.
  - apply (retained_rule_found ruleTree o p base tree);
      assumption.
  - apply (rejected_path_absent ruleTree o p tree); try assumption.
    rewrite Hpass. apply andb_false_r.
Qed.

Lemma applyOverrides_without_append_witness :
  exists tree,
    applyOverrides password_tree strict_overrides = Some tree /\
    rule_at "name" tree = None /\
    rule_at "password" tree =
      Some (set_required (Val true) (rule_of_type TString)).
Proof.
  destruct (applyOverrides_without_append password_tree strict_overrides
              wf_password_tree eq_refl eq_refl) as [tree [Htree Hall]].
  exists tree. split; [exact Htree|]. split.
  - exact (Hall "name" _ eq_refl).
  - exact (Hall "password" _ eq_refl).
Defined.

(** ** Override engine: the inner nodes of the returned tree *)

Lemma diverge_prefix_false (l : list string) : forall r,
  diverge l (l ++ r) = false.
Proof.
  induction l as [|a l IH]; intros r; [reflexivity|].
  simpl. rewrite String.eqb_refl. apply IH.
Qed.

Lemma bare_set_children n m :
  bare n -> bare (set_children (Val m) n).
Proof.
  intros [Hn _]. split; [|reflexivity].
  rewrite Hn. reflexivity.
Qed.

Lemma bare_empty_object m : bare (set_children (Val m) empty_object_rule).
Proof. split; reflexivity. Qed.

Lemma attach_parts_inner pre : forall rest rule ch ch',
  pre <> [] -> rest <> [] ->
  attach_parts (pre ++ rest) rule ch = Some ch' ->
  (forall n, rule_at_parts pre ch = Some n -> bare n) ->
  exists n', rule_at_parts pre ch' = Some n' /\ bare n'.
Proof.
  induction pre as [|a pre IH]; intros rest rule ch ch' Hpre Hrest Hatt Hq;
    [congruence|].
  assert (Hne : pre ++ rest <> []).
  { destruct pre; [exact Hrest|discriminate]. }
  change ((a :: pre) ++ rest) with (a :: (pre ++ rest)) in Hatt.
  rewrite attach_parts_cons in Hatt by exact Hne. cbv zeta in Hatt.
  destruct (children _) as [| |m] eqn:Hch; try discriminate.
  destruct (attach_parts (pre ++ rest) rule m) as [m'|] eqn:Hm;
    [|discriminate].
  injection Hatt as <-.
  rewrite rule_at_parts_cons, obj_get_set_same.
  destruct pre as [|b pre].
  - eexists. split; [reflexivity|].
    destruct (obj_get a ch) as [c|] eqn:Hc.
    + apply bare_set_children. apply Hq. simpl. exact Hc.
    + apply bare_empty_object.
  - simpl children. cbv iota.
    apply (IH rest rule m m'); [discriminate|exact Hrest|exact Hm|].
    intros n Hn. apply Hq. rewrite rule_at_parts_cons.
    destruct (obj_get a ch) as [c|].
    + rewrite Hch. exact Hn.
    + simpl in Hch. injection Hch as <-.
      rewrite rule_at_parts_empty in Hn. discriminate.
Qed.

Lemma rebuild_inner_kept pre es : forall ch ch' n,
  pre <> [] ->
  (forall q, In q (obj_keys es) ->
             diverge (split_dot q) pre = true \/
             exists rest, rest <> [] /\ split_dot q = pre ++ rest) ->
  rebuild es ch = Some ch' ->
  rule_at_parts pre ch = Some n -> bare n ->
  exists n', rule_at_parts pre ch' = Some n' /\ bare n'.
Proof.
  induction es as [|[q v] es IH]; intros ch ch' n Hpre Hkeys Hre Hn Hb.
  - simpl in Hre. injection Hre as <-. exists n. split; assumption.
  - simpl in Hre.
    destruct (attach_parts (split_dot q) v ch) as [ch1|] eqn:Hatt;
      [|discriminate].
    assert (Hkeys' : forall q', In q' (obj_keys es) ->
               diverge (split_dot q') pre = true \/
               exists rest, rest <> [] /\ split_dot q' = pre ++ rest).
    { intros q' Hq'. apply Hkeys. right. exact Hq'. }
    destruct (Hkeys q (or_introl eq_refl)) as [Hdiv|[rest [Hrest Hsplit]]].
    + apply (IH ch1 ch' n Hpre Hkeys' Hre); [|exact Hb].
      erewrite attach_parts_other; [exact Hn|exact Hdiv|exact Hatt].
    + rewrite Hsplit in Hatt.
      destruct (attach_parts_inner pre rest v ch ch1 Hpre Hrest Hatt)
        as [n1 [Hn1 Hb1]].
      { intros n0 Hn0. rewrite Hn in Hn0. injection Hn0 as <-. exact Hb. }
      apply (IH ch1 ch' n1 Hpre Hkeys' Hre Hn1 Hb1).
Qed.

Lemma rebuild_inner pre es : forall ch ch' q rest,
  pre <> [] ->
  (forall q, In q (obj_keys es) ->
             diverge (split_dot q) pre = true \/
             exists rest, rest <> [] /\ split_dot q = pre ++ rest) ->
  rebuild es ch = Some ch' ->
  (forall n, rule_at_parts pre ch = Some n -> bare n) ->
  In q (obj_keys es) -> rest <> [] -> split_dot q = pre ++ rest ->
  exists n, rule_at_parts pre ch' = Some n /\ bare n.
Proof.
  induction es as [|[q0 v] es IH];
    intros ch ch' q rest Hpre Hkeys Hre Hq Hin Hrest Hsplit;
    [destruct Hin|].
  simpl in Hre.
  destruct (attach_parts (split_dot q0) v ch) as [ch1|] eqn:Hatt;
    [|discriminate].
  assert (Hkeys' : forall q', In q' (obj_keys es) ->
             diverge (split_dot q') pre = true \/
             exists rest, rest <> [] /\ split_dot q' = pre ++ rest).
  { intros q' Hq'. apply Hkeys. right. exact Hq'. }
  destruct (Hkeys q0 (or_introl eq_refl)) as [Hdiv|[rest0 [Hrest0 Hsplit0]]].
  - destruct Hin as [Heq|Hin].
    + simpl in Heq. subst q0. rewrite Hsplit, diverge_sym in Hdiv.
      rewrite diverge_prefix_false in Hdiv. discriminate.
    + apply (IH ch1 ch' q rest Hpre Hkeys' Hre); try assumption.
      intros n Hn. apply Hq.
      erewrite <- attach_parts_other; [exact Hn|exact Hdiv|exact Hatt].
  - rewrite Hsplit0 in Hatt.
    destruct (attach_parts_inner pre rest0 v ch ch1 Hpre Hrest0 Hatt Hq)
      as [n1 [Hn1 Hb1]].
    apply (rebuild_inner_kept pre es ch1 ch' n1 Hpre Hkeys' Hre Hn1 Hb1).
Qed.

Lemma inner_keys_condition m p pre rest :
  stands_alone p m ->
  split_dot p = pre ++ rest -> rest <> [] ->
  forall q, In q (obj_keys m) ->
            diverge (split_dot q) pre = true \/
            exists rest', rest' <> [] /\ split_dot q = pre ++ rest'.
Proof.
  intros Halone Hsplit Hrest q Hq.
  destruct (String.eqb_spec q p) as [->|Hne].
  - right. exists rest. split; assumption.
  - pose proof (Halone q Hq Hne) as Hdiv. rewrite Hsplit in Hdiv.
    destruct (diverge_or_prefix (split_dot q) pre)
      as [H|[[r H]|[r H]]]; [left; exact H| |].
    + rewrite H, <- app_assoc, diverge_prefix_false in Hdiv. discriminate.
    + right. exists r. split; [|exact H].
      intros ->. rewrite app_nil_r in H.
      rewrite H, diverge_prefix_false in Hdiv. discriminate.
Qed.

(** X6: the inner nodes of the returned tree are bare object nodes.  When
    an effective path (one that no other effective path runs into) lies
    below a dotted prefix, the node the returned tree has at that prefix is
    [{type: 'object', children}] and nothing else: the [required] flag and
    every other property a nested object had in the base tree are not
    carried over (paths of plain names). *)
Theorem applyOverrides_inner_node
        (ruleTree : RuleTree) (o : Overrides) (tree : RuleTree)
        (inner below : string) :
  plain_paths (candidate_paths ruleTree o) = true ->
  In (inner ++ "." ++ below)%string (obj_keys (effective_all ruleTree o)) ->
  stands_alone (inner ++ "." ++ below)%string (effective_all ruleTree o) ->
  applyOverrides ruleTree o = Some tree ->
  exists n,
    rule_at inner tree = Some n /\
    n = set_children (children n) (rule_of_type TObject) /\
    not_nullish (children n) = true.
Proof.
  intros _ Hin Halone Happ.
  destruct (applyOverrides_children _ _ _ Happ) as [ch [Hre ->]].
  unfold rule_at; simpl.
  pose proof (split_dot_app_dot inner below) as Hsplit.
  apply (rebuild_inner (split_dot inner) (effective_all ruleTree o) [] ch
           (inner ++ "." ++ below)%string (split_dot below)).
  - apply split_dot_nonempty.
  - apply (inner_keys_condition _ _ _ _ Halone Hsplit).
    apply split_dot_nonempty.
  - exact Hre.
  - intros n Hn. rewrite rule_at_parts_empty in Hn. discriminate.
  - exact Hin.
  - apply split_dot_nonempty.
  - exact Hsplit.
Qed.

Lemma applyOverrides_inner_node_witness :
  (exists r, rule_at "address" address_tree = Some r /\
             required r = Val true) /\
  exists tree n,
    applyOverrides address_tree no_overrides = Some tree /\
    rule_at "address" tree = Some n /\
    required n = Absent.
Proof.
  split; [eexists; split; reflexivity|].
  destruct (applyOverrides address_tree no_overrides)
    as [tree|] eqn:Happ; [|vm_compute in Happ; discriminate Happ].
  destruct (applyOverrides_inner_node address_tree no_overrides tree
              "address" "city") as [n [Hn [Hbare _]]].
  - reflexivity.
  - vm_compute. auto.
  - intros q Hq Hne. vm_compute in Hq. destruct Hq as [<-|[]].
    exfalso; apply Hne; reflexivity.
  - exact Happ.
  - exists tree, n. split; [reflexivity|]. split; [exact Hn|].
    rewrite Hbare. reflexivity.
Defined.

(** ** Schema emitter: the root object *)

Lemma toJsonSchema_unfold tree au :
  toJsonSchema tree au =
  let '(properties, req) :=
    match rt_children tree with
    | Val m => emit_entries au m [] []
    | _ => ([], [])
    end in
  let schema := [("type", JString "object");
                 ("properties", JObject properties)] in
  let schema := match req with
                | [] => schema
                | _ => obj_set "required" (JStrings req) schema
                end in
  JObject (obj_set "additionalProperties" (JBool au) schema).
Proof.
  destruct tree as [[| |m] f]; try reflexivity.
  unfold toJsonSchema. simpl.
  match goal with
  | |- context [?loop m [] []] =>
      assert (Hloop : forall l props req,
                 loop l props req = emit_entries au l props req)
  end.
  { induction l as [|[k c] l IH]; intros props req; simpl; [reflexivity|].
    apply IH. }
  rewrite Hloop. reflexivity.
Qed.

Lemma emit_entries_spec au es : forall props req,
  snd (emit_entries au es props req) = req ++ required_names es /\
  forall k, obj_has k (fst (emit_entries au es props req)) =
            obj_has k props || obj_has k es.
Proof.
  induction es as [|[k0 c] es IH]; intros props req; simpl.
  - rewrite app_nil_r. split; [reflexivity|].
    intros k. rewrite orb_false_r. reflexivity.
  - destruct (IH (obj_set k0 (nodeToSchema au c) props)
                (if truthy_bool (required c) then req ++ [k0] else req))
      as [H1 H2].
    split.
    + rewrite H1. unfold required_names. simpl.
      destruct (truthy_bool (required c)); simpl; [|reflexivity].
      rewrite <- app_assoc. reflexivity.
    + intros k. rewrite H2, obj_has_set. unfold obj_has at 4. simpl.
      destruct (String.eqb k k0); simpl.
      * rewrite orb_true_r. reflexivity.
      * reflexivity.
Qed.

Lemma required_names_In es k :
  In k (required_names es) -> obj_has k es = true.
Proof.
  unfold required_names. intros H. apply in_map_iff in H.
  destruct H as [[k' c] [Heq Hin]]. simpl in Heq. subst k'.
  apply filter_In in Hin. destruct Hin as [Hin _]. apply obj_has_In.
  apply (in_map fst) in Hin. exact Hin.
Qed.

(** X7: the schema [toJsonSchema] emits for a tree whose root fields have
    plain names is an object schema with [additionalProperties] set to
    [allowUnknown]; it has one property per child of the root; its
    [required] key is the list of the children whose [required] is truthy,
    in their order, and is left out (not an empty list) when there is
    none; every required name is a declared property. *)
Theorem toJsonSchema_root (tree : RuleTree) (allowUnknown : bool) :
  let es := match rt_children tree with Val m => m | _ => [] end in
  forallb plain_name (obj_keys es) = true ->
  exists properties,
    toJsonSchema tree allowUnknown =
    JObject
      (match required_names es with
       | [] => [("type", JString "object");
                ("properties", JObject properties);
                ("additionalProperties", JBool allowUnknown)]
       | req => [("type", JString "object");
                 ("properties", JObject properties);
                 ("required", JStrings req);
                 ("additionalProperties", JBool allowUnknown)]
       end) /\
    (forall k, obj_has k properties = obj_has k es) /\
    (forall k, In k (required_names es) -> obj_has k properties = true).
Proof.
  intros es _. rewrite toJsonSchema_unfold.
  assert (H : exists props,
             match rt_children tree with
             | Val m => emit_entries allowUnknown m [] []
             | _ => ([], [])
             end = (props, required_names es) /\
             forall k, obj_has k props = obj_has k es).
  { subst es. destruct (rt_children tree) as [| |m].
    - exists []. split; reflexivity.
    - exists []. split; reflexivity.
    - destruct (emit_entries_spec allowUnknown m [] []) as [H1 H2].
      destruct (emit_entries allowUnknown m [] []) as [props req].
      simpl in H1, H2. exists props. subst req.
      split; [reflexivity|exact H2]. }
  destruct H as [props [-> Hprops]].
  exists props. split; [|split].
  - destruct (required_names es); reflexivity.
  - exact Hprops.
  - intros k Hk. rewrite Hprops. apply required_names_In. exact Hk.
Qed.

Lemma toJsonSchema_root_witness :
  exists properties,
    toJsonSchema password_tree false =
    JObject [("type", JString "object");
             ("properties", JObject properties);
             ("required", JStrings ["name"]);
             ("additionalProperties", JBool false)] /\
    obj_has "password" properties = true.
Proof.
  destruct (toJsonSchema_root password_tree false eq_refl)
    as [properties [Heq [Hkeys _]]].
  exists properties. split; [exact Heq|].
  rewrite Hkeys. reflexivity.
Defined.

(** ** Cache registry: what a call leaves behind *)

Lemma ref_get_set_other {A} k k' (v : A) m :
  k <> k' -> ref_get k' (ref_set k v m) = ref_get k' m.
Proof.
  intros Hne. induction m as [|[k1 v1] m IH]; simpl.
  - destruct (Nat.eqb_spec k' k); [congruence|reflexivity].
  - destruct (Nat.eqb_spec k k1) as [->|H1]; simpl.
    + destruct (Nat.eqb_spec k' k1); [congruence|reflexivity].
    + rewrite IH. reflexivity.
Qed.

Lemma json_cache_get_set_same (V : Type) s key w (st : Registry V) :
  json_cache_get s key (json_cache_set s key w st) = Some w.
Proof.
  unfold json_cache_get, json_cache_set.
  destruct (schema_ref s) as [ref|]; simpl.
  - rewrite ref_get_set_same. apply obj_get_set_same.
  - apply obj_get_set_same.
Qed.

Lemma json_cache_get_set_other (V : Type) s key w s0 key0
      (st : Registry V) :
  schema_ref s0 <> schema_ref s \/ key0 <> key ->
  json_cache_get s0 key0 (json_cache_set s key w st) =
  json_cache_get s0 key0 st.
Proof.
  unfold json_cache_get, json_cache_set. intros H.
  destruct (schema_ref s) as [ref|], (schema_ref s0) as [ref0|]; simpl;
    try reflexivity.
  - destruct (Nat.eq_dec ref ref0) as [->|Hne].
    + rewrite ref_get_set_same.
      destruct H as [H|H]; [congruence|].
      rewrite obj_get_set_other by congruence.
      destruct (ref_get ref0 (jsonSchemaCache st)); reflexivity.
    + rewrite ref_get_set_other by exact Hne. reflexivity.
  - destruct H as [H|H]; [congruence|].
    apply obj_get_set_other. congruence.
Qed.

Lemma validator_cache_get_set_other (V : Type) s key (v : V) s0 key0 st :
  schema_ref s0 <> schema_ref s \/ key0 <> key ->
  validator_cache_get s0 key0 (validator_cache_set s key v st) =
  validator_cache_get s0 key0 st.
Proof.
  unfold validator_cache_get, validator_cache_set. intros H.
  destruct (schema_ref s) as [ref|], (schema_ref s0) as [ref0|]; simpl;
    try reflexivity.
  - destruct (Nat.eq_dec ref ref0) as [->|Hne].
    + rewrite ref_get_set_same.
      destruct H as [H|H]; [congruence|].
      rewrite obj_get_set_other by congruence.
      destruct (ref_get ref0 (ajvValidatorCache st)); reflexivity.
    + rewrite ref_get_set_other by exact Hne. reflexivity.
  - destruct H as [H|H]; [congruence|].
    apply obj_get_set_other. congruence.
Qed.

(** What [getOrSetRuleTree] with the compiler leaves in the registry. *)
Lemma getOrSetRuleTree_compile_facts (V : Type) RegExp_new s
      (st st0 : Registry V) r :
  getOrSetRuleTree s (compileRulesFromMongooseSchema_obj (V:=V) RegExp_new)
    st = Some (r, st0) ->
  jsonSchemaCache st0 = jsonSchemaCache st /\
  ajvValidatorCache st0 = ajvValidatorCache st /\
  NullSchemaJsonCache st0 = NullSchemaJsonCache st /\
  NullSchemaValidatorCache st0 = NullSchemaValidatorCache st /\
  (forall ref, schema_ref s = Some ref ->
               ref_get ref (ruleTreeCache st0) = Some r) /\
  (forall ref0 r0, ref_get ref0 (ruleTreeCache st) = Some r0 ->
                   ref_get ref0 (ruleTreeCache st0) = Some r0) /\
  (forall loc t, nth_error (trees st) loc = Some t ->
                 nth_error (trees st0) loc = Some t) /\
  ((exists ref, schema_ref s = Some ref /\
                ref_get ref (ruleTreeCache st) <> None) ->
   st0 = st).
Proof.
  unfold getOrSetRuleTree.
  destruct (schema_ref s) as [ref|] eqn:Hs.
  - destruct (ref_get ref (ruleTreeCache st)) as [cached|] eqn:Hget.
    + intros [= <- <-]. repeat split; auto.
      intros ref' [= <-]. exact Hget.
    + unfold compileRulesFromMongooseSchema_obj.
      destruct s as [|ref'|ref' ps]; try discriminate.
      destruct (compileRulesFromMongooseSchema RegExp_new (SchemaObj ref' ps))
        as [t|]; [|discriminate].
      intros [= <- <-]. simpl. repeat split.
      * intros ref'' [= <-]. apply ref_get_set_same.
      * intros ref0 r0 H0. rewrite ref_get_set_other; [exact H0|].
        intros ->. congruence.
      * intros loc t0 H0. rewrite nth_error_app1; [exact H0|].
        apply nth_error_Some. congruence.
      * intros [ref'' [[= <-] Hne]]. congruence.
  - intros [= <- <-]. repeat split; auto; try discriminate.
Qed.

Lemma json_cache_set_fields (V : Type) s key w (st : Registry V) :
  trees (json_cache_set s key w st) = trees st /\
  walks (json_cache_set s key w st) = walks st /\
  ruleTreeCache (json_cache_set s key w st) = ruleTreeCache st /\
  ajvValidatorCache (json_cache_set s key w st) = ajvValidatorCache st /\
  NullSchemaValidatorCache (json_cache_set s key w st)
  = NullSchemaValidatorCache st.
Proof.
  unfold json_cache_set. destruct (schema_ref s); simpl; auto.
Qed.

Lemma json_cache_get_ext (V : Type) s key (st st' : Registry V) :
  jsonSchemaCache st' = jsonSchemaCache st ->
  NullSchemaJsonCache st' = NullSchemaJsonCache st ->
  json_cache_get s key st' = json_cache_get s key st.
Proof.
  intros H1 H2. unfold json_cache_get. rewrite H1, H2. reflexivity.
Qed.

Lemma validator_cache_get_ext (V : Type) s key (st st' : Registry V) :
  ajvValidatorCache st' = ajvValidatorCache st ->
  NullSchemaValidatorCache st' = NullSchemaValidatorCache st ->
  validator_cache_get s key st' = validator_cache_get s key st.
Proof.
  intros H1 H2. unfold validator_cache_get. rewrite H1, H2. reflexivity.
Qed.

(** What a call of [emitJsonSchema] leaves in the registry. *)
Lemma emitJsonSchema_facts (V : Type) RegExp_new s o options
      (st st1 : Registry V) w :
  emitJsonSchema RegExp_new s o options st = Some (w, st1) ->
  json_cache_get s (override_key o options) st1 = Some w /\
  (forall s0 k0 w0, json_cache_get s0 k0 st = Some w0 ->
                    json_cache_get s0 k0 st1 = Some w0) /\
  (forall ref0 r0, ref_get ref0 (ruleTreeCache st) = Some r0 ->
                   ref_get ref0 (ruleTreeCache st1) = Some r0) /\
  (forall ref, schema_ref s = Some ref ->
               ref_get ref (ruleTreeCache st1) <> None) /\
  (forall s0 k0, validator_cache_get s0 k0 st1 =
                 validator_cache_get s0 k0 st) /\
  ((forall ref, schema_ref s = Some ref ->
                ref_get ref (ruleTreeCache st) <> None) ->
   trees st1 = trees st /\ walks st1 = walks st).
Proof.
  unfold emitJsonSchema.
  set (key := override_key o options).
  destruct (schema_ref s) as [ref|] eqn:Hs.
  - destruct (getOrSetRuleTree s _ st) as [[r st0]|] eqn:Hg; [|discriminate].
    destruct (getOrSetRuleTree_compile_facts V RegExp_new s st st0 r Hg)
      as [Hj [Hv [Hnj [Hnv [Hr [Hkeep [_ Hhit]]]]]]].
    destruct (tree_of st0 r) as [tree|]; [|discriminate].
    destruct (applyOverrides tree o) as [eff|]; [|discriminate].
    destruct (json_cache_get s key st0) as [cached|] eqn:Hget.
    + intros [= <- <-]. repeat split.
      * exact Hget.
      * intros s0 k0 w0 H0.
        rewrite (json_cache_get_ext V s0 k0 st st0 Hj Hnj). exact H0.
      * exact Hkeep.
      * intros ref' [= <-]. rewrite (Hr ref Hs). discriminate.
      * intros s0 k0. apply validator_cache_get_ext; assumption.
      * rewrite Hhit; [reflexivity|]. exists ref. split; [exact Hs|].
        apply H. reflexivity.
      * rewrite Hhit; [reflexivity|]. exists ref. split; [exact Hs|].
        apply H. reflexivity.
    + intros [= <- <-].
      destruct (json_cache_set_fields V s key
                  (toJsonSchema eff (truthy_bool (allowUnknown options))) st0)
        as [Ft [Fw [Fr [Fv Fnv]]]].
      repeat split.
      * apply json_cache_get_set_same.
      * intros s0 k0 w0 H0.
        rewrite <- (json_cache_get_ext V s0 k0 st st0 Hj Hnj) in H0.
        rewrite json_cache_get_set_other; [exact H0|].
        destruct (String.eqb_spec k0 key) as [->|Hk]; [|right; exact Hk].
        left. intros Heq. unfold json_cache_get in H0, Hget.
        rewrite Heq in H0. rewrite H0 in Hget. discriminate.
      * intros ref0 r0 H0. rewrite Fr. apply Hkeep. exact H0.
      * intros ref' [= <-]. rewrite Fr, (Hr ref Hs). discriminate.
      * intros s0 k0.
        rewrite (validator_cache_get_ext V s0 k0 st0 _ Fv Fnv).
        apply validator_cache_get_ext; assumption.
      * rewrite Ft, Hhit; [reflexivity|]. exists ref.
        split; [exact Hs|]. apply H. reflexivity.
      * rewrite Fw, Hhit; [reflexivity|]. exists ref.
        split; [exact Hs|]. apply H. reflexivity.
  - destruct (json_cache_get s key st) as [cached|] eqn:Hget.
    + intros [= <- <-]. repeat split; auto; try discriminate.
    + intros [= <- <-].
      destruct (json_cache_set_fields V s key
                  (jsonSchemaFromOverrides o
                     (truthy_bool (allowUnknown options))) st)
        as [Ft [Fw [Fr [Fv Fnv]]]].
      repeat split; auto; try discriminate.
      * apply json_cache_get_set_same.
      * intros s0 k0 w0 H0.
        rewrite json_cache_get_set_other; [exact H0|].
        destruct (String.eqb_spec k0 key) as [->|Hk]; [|right; exact Hk].
        left. intros Heq. unfold json_cache_get in H0, Hget.
        rewrite Heq in H0. rewrite H0 in Hget. discriminate.
      * intros ref0 r0 H0. rewrite Fr. exact H0.
      * intros s0 k0. apply validator_cache_get_ext; assumption.
Qed.

Lemma emitJsonSchema_again (V : Type) RegExp_new s o options
      (st st1 : Registry V) w :
  emitJsonSchema RegExp_new s o options st = Some (w, st1) ->
  emitJsonSchema RegExp_new s o options st1 = Some (w, st1).
Proof.
  intros H.
  destruct (emitJsonSchema_facts V RegExp_new s o options st st1 w H)
    as [Hw [_ [_ [Hin _]]]].
  revert H. unfold emitJsonSchema.
  set (key := override_key o options) in *.
  destruct (schema_ref s) as [ref|] eqn:Hs.
  - destruct (getOrSetRuleTree s _ st) as [[r st0]|] eqn:Hg; [|discriminate].
    destruct (getOrSetRuleTree_compile_facts V RegExp_new s st st0 r Hg)
      as [_ [_ [_ [_ [Hr _]]]]].
    destruct (tree_of st0 r) as [tree|] eqn:Ht; [|discriminate].
    destruct (applyOverrides tree o) as [eff|] eqn:He; [|discriminate].
    assert (Hsecond : forall st',
               ruleTreeCache st' = ruleTreeCache st0 ->
               trees st' = trees st0 ->
               getOrSetRuleTree s
                 (compileRulesFromMongooseSchema_obj (V:=V) RegExp_new) st'
               = Some (r, st') /\ tree_of st' r = Some tree).
    { intros st' Hc Htr. unfold getOrSetRuleTree.
      rewrite Hs, Hc, (Hr ref Hs). split; [reflexivity|].
      destruct r; [exact Ht|]. simpl in Ht |- *. rewrite Htr. exact Ht. }
    destruct (json_cache_get s key st0) as [cached|] eqn:Hget.
    + intros [= <- <-].
      destruct (Hsecond st0 eq_refl eq_refl) as [-> ->].
      rewrite He, Hget. reflexivity.
    + intros [= <- <-].
      destruct (json_cache_set_fields V s key
                  (toJsonSchema eff (truthy_bool (allowUnknown options))) st0)
        as [Ft [_ [Fr _]]].
      destruct (Hsecond _ Fr Ft) as [-> ->].
      rewrite He, json_cache_get_set_same. reflexivity.
  - destruct (json_cache_get s key st) as [cached|] eqn:Hget.
    + intros [= <- <-]. rewrite Hget. reflexivity.
    + intros [= <- <-]. rewrite json_cache_get_set_same. reflexivity.
Qed.

(** X8: a call of [emitJsonSchema] that returned is repeatable: the same
    call on the registry it left returns the same wire schema and leaves
    the registry as it is.  (For a cached tree and overrides that share no
    children map, so that the override engine has written nothing into
    the cached tree.) *)
Theorem emitJsonSchema_twice
        (V : Type) (RegExp_new : string -> option string)
        (s : SchemaArg) (o : Overrides) (options : ValidatorOptions)
        (st st1 : Registry V) (w : JsVal) :
  emitJsonSchema RegExp_new s o options st = Some (w, st1) ->
  (forall t, cached_tree s st1 = Some t -> unshared t o = true) ->
  emitJsonSchema RegExp_new s o options st1 = Some (w, st1).
Proof.
  intros H _. exact (emitJsonSchema_again V RegExp_new s o options st st1 w H).
Qed.

Lemma emitJsonSchema_twice_witness :
  exists w st1,
    emitJsonSchema (V:=nat) (fun src => Some src) user_schema
      append_a_number no_options (empty_registry nat) = Some (w, st1) /\
    emitJsonSchema (fun src => Some src) user_schema append_a_number
      no_options st1 = Some (w, st1).
Proof.
  destruct (emitJsonSchema (V:=nat) (fun src => Some src) user_schema
              append_a_number no_options (empty_registry nat))
    as [[w st1]|] eqn:H; [|vm_compute in H; discriminate H].
  exists w, st1. split; [reflexivity|].
  apply (emitJsonSchema_twice nat _ _ _ _ _ _ _ H).
  intros t Ht. vm_compute in H. injection H as _ <-.
  vm_compute in Ht. injection Ht as <-. reflexivity.
Defined.

(** X9: once [emitJsonSchema] has returned for a schema, later calls for
    that schema, with whatever overrides and options, do not compile it
    again: they do not call its [eachPath] and create no tree object. *)
Theorem emitJsonSchema_walks_once
        (V : Type) (RegExp_new : string -> option string)
        (s : SchemaArg) (o o' : Overrides)
        (options options' : ValidatorOptions)
        (st st1 st2 : Registry V) (w w' : JsVal) :
  emitJsonSchema RegExp_new s o options st = Some (w, st1) ->
  emitJsonSchema RegExp_new s o' options' st1 = Some (w', st2) ->
  walks st2 = walks st1 /\
  List.length (trees st2) = List.length (trees st1).
Proof.
  intros H1 H2.
  destruct (emitJsonSchema_facts V RegExp_new s o options st st1 w H1)
    as [_ [_ [_ [Hin _]]]].
  destruct (emitJsonSchema_facts V RegExp_new s o' options' st1 st2 w' H2)
    as [_ [_ [_ [_ [_ Hsame]]]]].
  destruct (Hsame Hin) as [Ht Hw]. split; [assumption|].
  rewrite Ht. reflexivity.
Qed.

Lemma emitJsonSchema_walks_once_witness :
  exists w st1 w' st2,
    emitJsonSchema (V:=nat) (fun src => Some src) user_schema
      append_a_number no_options (empty_registry nat) = Some (w, st1) /\
    emitJsonSchema (fun src => Some src) user_schema tie_overrides
      (mkOptions Absent (Val true)) st1 = Some (w', st2) /\
    walks st1 = [1%nat] /\ walks st2 = [1%nat].
Proof.
  destruct (emitJsonSchema (V:=nat) (fun src => Some src) user_schema
              append_a_number no_options (empty_registry nat))
    as [[w st1]|] eqn:H1; [|vm_compute in H1; discriminate H1].
  destruct (emitJsonSchema (fun src => Some src) user_schema tie_overrides
              (mkOptions Absent (Val true)) st1)
    as [[w' st2]|] eqn:H2.
  - exists w, st1, w', st2.
    destruct (emitJsonSchema_walks_once nat _ _ _ _ _ _ _ _ _ _ _ H1 H2)
      as [Hw _].
    assert (Hw1 : walks st1 = [1%nat]).
    { vm_compute in H1. injection H1 as _ <-. reflexivity. }
    repeat split; congruence.
  - vm_compute in H1. injection H1 as _ <-. vm_compute in H2.
    discriminate H2.
Defined.

(** X10: calls of [emitJsonSchema] never evict or replace an entry: after
    any call that returns, a wire schema cached under a schema and key is
    still cached there, a schema that had a tree object in the rule-tree
    cache still has that same object, and the validator caches are as they
    were. *)
Theorem emitJsonSchema_keeps_entries
        (V : Type) (RegExp_new : string -> option string)
        (s : SchemaArg) (o : Overrides) (options : ValidatorOptions)
        (st st1 : Registry V) (w : JsVal) :
  emitJsonSchema RegExp_new s o options st = Some (w, st1) ->
  (forall s0 k0 w0, json_cache_get s0 k0 st = Some w0 ->
                    json_cache_get s0 k0 st1 = Some w0) /\
  (forall ref0 r0, ref_get ref0 (ruleTreeCache st) = Some r0 ->
                   ref_get ref0 (ruleTreeCache st1) = Some r0) /\
  (forall s0 k0, validator_cache_get s0 k0 st1 =
                 validator_cache_get s0 k0 st).
Proof.
  intros H.
  destruct (emitJsonSchema_facts V RegExp_new s o options st st1 w H)
    as [_ [H1 [H2 [_ [H3 _]]]]].
  repeat split; assumption.
Qed.

Lemma emitJsonSchema_keeps_entries_witness :
  exists w st1 w' st2,
    emitJsonSchema (V:=nat) (fun src => Some src) user_schema
      append_a_number no_options (empty_registry nat) = Some (w, st1) /\
    emitJsonSchema (fun src => Some src) SchemaNull no_schema_overrides
      no_options st1 = Some (w', st2) /\
    json_cache_get user_schema (override_key append_a_number no_options) st2
    = Some w.
Proof.
  destruct (emitJsonSchema (V:=nat) (fun src => Some src) user_schema
              append_a_number no_options (empty_registry nat))
    as [[w st1]|] eqn:H1; [|vm_compute in H1; discriminate H1].
  destruct (emitJsonSchema (fun src => Some src) SchemaNull
              no_schema_overrides no_options st1)
    as [[w' st2]|] eqn:H2;
    [|vm_compute in H1; injection H1 as _ <-; vm_compute in H2;
      discriminate H2].
  exists w, st1, w', st2. split; [reflexivity|split; [exact H2|]].
  destruct (emitJsonSchema_keeps_entries nat _ _ _ _ _ _ _ H2) as [Hk _].
  apply Hk.
  destruct (emitJsonSchema_facts nat _ _ _ _ _ _ _ H1) as [Hw _].
  exact Hw.
Defined.

Lemma emitJsonSchema_validator_frame (V : Type) RegExp_new s o options
      s' key (v : V) (st : Registry V) :
  emitJsonSchema RegExp_new s o options (validator_cache_set s' key v st) =
  match emitJsonSchema RegExp_new s o options st with
  | Some (w, st1) => Some (w, validator_cache_set s' key v st1)
  | None => None
  end.
Proof.
  destruct st as [tr wk rc jc vc nj nv].
  unfold emitJsonSchema, json_cache_get, json_cache_set, getOrSetRuleTree,
    validator_cache_set, compileRulesFromMongooseSchema_obj, tree_of,
    set_ruleTreeCache.
  destruct (schema_ref s') as [ref'|]; cbn [trees walks ruleTreeCache
    jsonSchemaCache ajvValidatorCache NullSchemaJsonCache
    NullSchemaValidatorCache].
  all: destruct s as [|ref|ref ps]; cbn [schema_ref trees walks ruleTreeCache
    jsonSchemaCache ajvValidatorCache NullSchemaJsonCache
    NullSchemaValidatorCache].
  all: try (destruct (obj_get (override_key o options) nj); reflexivity).
  all: destruct (ref_get ref rc) as [r|];
    cbn [schema_ref trees walks ruleTreeCache
    jsonSchemaCache ajvValidatorCache NullSchemaJsonCache
    NullSchemaValidatorCache]; try reflexivity.
  all: try (destruct (compileRulesFromMongooseSchema RegExp_new
                        (SchemaObj ref ps)) as [t|];
            cbn [schema_ref trees walks ruleTreeCache
              jsonSchemaCache ajvValidatorCache NullSchemaJsonCache
              NullSchemaValidatorCache]; [|reflexivity]).
  all: match goal with
       | |- context [match ?x with SentinelRef => _ | TreeAt _ => _ end] =>
           destruct (match x with SentinelRef => Some EMPTY_RULE_TREE
                             | TreeAt loc => nth_error tr loc end)
             as [tree|]
       | |- context [nth_error ?l ?n] => destruct (nth_error l n) as [tree|]
       end; try reflexivity.
  all: destruct (applyOverrides tree o); [|reflexivity].
  all: match goal with
       | |- context [match ref_get ?k ?c with Some _ => _ | None => None end]
         => destruct (match ref_get k c with
                      | Some map => obj_get (override_key o options) map
                      | None => None end)
       end; reflexivity.
Qed.

(** X11: a call of [buildAjvValidator] that returned is repeatable without
    the engine compiling anything: on the registry it left, the same call
    returns the same validator function and leaves the registry as it is,
    whatever the engine's [compile] would do.  (For a cached tree and
    overrides that share no children map.) *)
Theorem buildAjvValidator_twice
        (V P : Type) (ajv ajv' : AjvEngine V P)
        (RegExp_new : string -> option string)
        (s : SchemaArg) (o : Overrides) (options : ValidatorOptions)
        (st st1 : Registry V) (validate : P -> ValidatorResult P) :
  buildAjvValidator ajv RegExp_new s o options st = Some (validate, st1) ->
  (forall t, cached_tree s st1 = Some t -> unshared t o = true) ->
  ajv_validate ajv' = ajv_validate ajv ->
  buildAjvValidator ajv' RegExp_new s o options st1 = Some (validate, st1).
Proof.
  unfold buildAjvValidator. intros H _ Hval.
  destruct (emitJsonSchema RegExp_new s o options st) as [[w st0]|] eqn:He;
    [|discriminate].
  pose proof (emitJsonSchema_again V _ _ _ _ _ _ _ He) as He'.
  destruct (validator_cache_get s (override_key o options) st0)
    as [validateFn|] eqn:Hget.
  - injection H as <- <-. rewrite He', Hget, Hval. reflexivity.
  - destruct (ajv_compile ajv (ajv_config options) w) as [validateFn|];
      [|discriminate].
    injection H as <- <-.
    rewrite emitJsonSchema_validator_frame, He'.
    rewrite validator_cache_get_set, Hval. reflexivity.
Qed.

Lemma buildAjvValidator_twice_witness :
  exists validate st1,
    buildAjvValidator required_only_engine (fun src => Some src) user_schema
      append_a_number no_options (empty_registry JsVal)
    = Some (validate, st1) /\
    buildAjvValidator
      (mkAjvEngine (fun _ _ => None) required_only_validate)
      (fun src => Some src) user_schema append_a_number no_options st1
    = Some (validate, st1).
Proof.
  destruct (buildAjvValidator required_only_engine (fun src => Some src)
              user_schema append_a_number no_options (empty_registry JsVal))
    as [[validate st1]|] eqn:H; [|vm_compute in H; discriminate H].
  exists validate, st1. split; [reflexivity|].
  apply (buildAjvValidator_twice _ _ required_only_engine
           (mkAjvEngine (fun _ _ => None) required_only_validate)
           _ _ _ _ _ _ _ H); [|reflexivity].
  intros t Ht. vm_compute in H. injection H as _ <-.
  vm_compute in Ht. injection Ht as <-. reflexivity.
Defined.

(** X12: the rule-tree cache answers a repeated call.  After a call of
    [getOrSetRuleTree] that returned, a call for the same schema returns
    the same tree object without calling the compile function it is given,
    and leaves the registry as it is. *)
Theorem getOrSetRuleTree_cached
        (V : Type) (s : SchemaArg)
        (compileFn other : SchemaArg -> Registry V ->
                           option (TreeRef * Registry V))
        (st st1 : Registry V) (r : TreeRef) :
  getOrSetRuleTree s compileFn st = Some (r, st1) ->
  getOrSetRuleTree s other st1 = Some (r, st1).
Proof. exact (getOrSetRuleTree_again V s compileFn other st st1 r). Qed.

Lemma getOrSetRuleTree_cached_witness :
  exists r st1,
    getOrSetRuleTree user_schema
      (compileRulesFromMongooseSchema_obj (V:=nat) (fun src => Some src))
      (empty_registry nat) = Some (r, st1) /\
    getOrSetRuleTree user_schema (fun _ _ => None) st1 = Some (r, st1).
Proof.
  destruct (getOrSetRuleTree user_schema
              (compileRulesFromMongooseSchema_obj (V:=nat)
                 (fun src => Some src))
              (empty_registry nat)) as [[r st1]|] eqn:H;
    [|vm_compute in H; discriminate H].
  exists r, st1. split; [reflexivity|].
  exact (getOrSetRuleTree_cached nat _ _ (fun _ _ => None) _ _ _ H).
Defined.

(** ** No-schema mode: the schema made from the overrides alone *)

Lemma append_entry_fold (m : Obj Rule) : forall inc props req,
  fold_left append_entry m (inc, props, req) =
  (fold_left (fun acc e => set_add (fst e) acc) m inc,
   fold_left
     (fun p e =>
        obj_set (fst e) (JObject (obj_delete "required" (rule_js (snd e)))) p)
     m props,
   req ++ required_names m).
Proof.
  induction m as [|[k def] m IH]; intros inc props req.
  - simpl. rewrite app_nil_r. reflexivity.
  - cbn [fold_left append_entry]. rewrite IH. unfold required_names.
    cbn [filter snd fst]. destruct (truthy_bool (required def)).
    + cbn [map fst]. rewrite <- app_assoc. reflexivity.
    + reflexivity.
Qed.

Lemma required_names_iff (m : Obj Rule) k :
  In k (required_names m) <->
  exists def, In (k, def) m /\ truthy_bool (required def) = true.
Proof.
  unfold required_names. rewrite in_map_iff. split.
  - intros [[k' def] [Heq Hin]]. simpl in Heq. subst k'.
    apply filter_In in Hin. destruct Hin as [Hin Ht].
    exists def. split; assumption.
  - intros [def [Hin Ht]]. exists (k, def). split; [reflexivity|].
    apply filter_In. split; assumption.
Qed.

Lemma required_names_NoDup (m : Obj Rule) :
  NoDup (obj_keys m) -> NoDup (required_names m).
Proof.
  induction m as [|[k def] m IH]; intros Hnd; [constructor|].
  inversion Hnd as [|? ? Hnot Hnd']; subst.
  unfold required_names. cbn [filter snd].
  destruct (truthy_bool (required def)).
  - cbn [map fst]. constructor; [|apply IH; exact Hnd'].
    intros Hin. apply Hnot.
    apply (proj1 (required_names_iff m k)) in Hin.
    destruct Hin as [d [Hin _]]. apply (in_map fst) in Hin. exact Hin.
  - apply IH. exact Hnd'.
Qed.

Lemma add_missing_fold (l : list string) : forall r,
  NoDup r ->
  NoDup (fold_left (fun r k => if str_mem k r then r else r ++ [k]) l r) /\
  forall k,
    In k (fold_left (fun r k => if str_mem k r then r else r ++ [k]) l r) <->
    In k r \/ In k l.
Proof.
  induction l as [|x l IH]; intros r Hnd.
  - simpl. split; [exact Hnd|]. intros k. tauto.
  - cbn [fold_left]. destruct (str_mem x r) eqn:Hx.
    + destruct (IH r Hnd) as [H1 H2]. split; [exact H1|].
      intros k. rewrite H2. simpl. apply str_mem_In in Hx.
      split; [tauto|]. intros [H|[<-|H]]; auto.
    + assert (Hnot : ~ In x r).
      { intros H. apply str_mem_In in H. congruence. }
      assert (Hnd' : NoDup (r ++ [x])).
      { apply NoDup_app.
        - exact Hnd.
        - constructor; [intros []|constructor].
        - intros y Hy [<-|[]]. exact (Hnot Hy). }
      destruct (IH (r ++ [x]) Hnd') as [H1 H2]. split; [exact H1|].
      intros k. rewrite H2, in_app_iff. simpl. tauto.
Qed.

Lemma remove_first_In (k : string) (r : list string) :
  NoDup r -> forall x, In x (remove_first k r) <-> In x r /\ x <> k.
Proof.
  induction r as [|y r IH]; intros Hnd x; [simpl; tauto|].
  inversion Hnd as [|? ? Hnot Hnd']; subst. simpl.
  destruct (String.eqb_spec k y) as [->|Hne].
  - split.
    + intros H. split; [right; exact H|]. intros ->. exact (Hnot H).
    + intros [[->|H] Hx]; [congruence|exact H].
  - simpl. rewrite (IH Hnd' x). split.
    + intros [->|[H Hx]]; [split; [left; reflexivity|congruence]|tauto].
    + intros [[->|H] Hx]; [left; reflexivity|right; tauto].
Qed.

Lemma remove_first_NoDup (k : string) (r : list string) :
  NoDup r -> NoDup (remove_first k r).
Proof.
  induction r as [|y r IH]; intros Hnd; [constructor|].
  inversion Hnd as [|? ? Hnot Hnd']; subst. simpl.
  destruct (String.eqb k y); [exact Hnd'|].
  constructor; [|apply IH; exact Hnd'].
  intros H. apply (remove_first_In k r Hnd') in H. tauto.
Qed.

Lemma remove_fold (l : list string) : forall r,
  NoDup r ->
  NoDup (fold_left (fun r k => remove_first k r) l r) /\
  forall x,
    In x (fold_left (fun r k => remove_first k r) l r) <->
    In x r /\ ~ In x l.
Proof.
  induction l as [|k l IH]; intros r Hnd.
  - simpl. split; [exact Hnd|]. intros x. tauto.
  - cbn [fold_left].
    destruct (IH (remove_first k r) (remove_first_NoDup k r Hnd)) as [H1 H2].
    split; [exact H1|].
    intros x. rewrite H2, (remove_first_In k r Hnd x). simpl.
    split.
    + intros [[Hx Hne] Hl]. split; [exact Hx|].
      intros [->|H]; [congruence|exact (Hl H)].
    + intros [Hx Hl]. split; [split; [exact Hx|]|].
      * intros ->. apply Hl. left. reflexivity.
      * intros H. apply Hl. right. exact H.
Qed.

Lemma jsonSchemaFromOverrides_shape (o : Overrides) (au : bool) :
  jsonSchemaFromOverrides o au =
  JObject
    [("type", JString "object");
     ("properties", JObject (no_schema_properties o));
     ("required",
      match no_schema_required o with
      | [] => JUndefined
      | _ => JStrings (no_schema_required o)
      end);
     ("additionalProperties", JBool au)].
Proof.
  unfold jsonSchemaFromOverrides, no_schema_properties, no_schema_required.
  destruct (append o) as [| |m]; cbv zeta;
    try rewrite append_entry_fold; cbn [fold_left app];
    destruct (include o), (required_paths o), (optional o); reflexivity.
Qed.

(** X13: without a schema, [optional] wins over [required].  The
    [required] list of the schema that [jsonSchemaFromOverrides] makes names
    a field exactly when the field is not in [optional] and is in
    [required] or is appended with a truthy [required]; it has no
    duplicates, also holds names that no property declares, and when it
    would be empty the [required] key is undefined. *)
Theorem jsonSchemaFromOverrides_required
        (o : Overrides) (allowUnknown : bool) :
  NoDup (obj_keys (match append o with Val m => m | _ => [] end)) ->
  exists properties req,
    jsonSchemaFromOverrides o allowUnknown =
    JObject [("type", JString "object");
             ("properties", JObject properties);
             ("required",
              match req with [] => JUndefined | _ => JStrings req end);
             ("additionalProperties", JBool allowUnknown)] /\
    NoDup req /\
    forall k,
      In k req <->
      ~ In k (set_or_empty (optional o)) /\
      (In k (set_or_empty (required_paths o)) \/
       exists def,
         In (k, def) (match append o with Val m => m | _ => [] end) /\
         truthy_bool (required def) = true).
Proof.
  intros Hnd. rewrite jsonSchemaFromOverrides_shape.
  destruct (add_missing_fold (set_or_empty (required_paths o)) _
              (required_names_NoDup _ Hnd)) as [Hnd1 Hin1].
  destruct (remove_fold (set_or_empty (optional o)) _ Hnd1) as [Hnd2 Hin2].
  exists (no_schema_properties o), (no_schema_required o).
  split; [reflexivity|split; [exact Hnd2|]].
  intros k. unfold no_schema_required.
  rewrite Hin2, Hin1, required_names_iff. tauto.
Qed.

Lemma jsonSchemaFromOverrides_required_witness :
  exists properties,
    jsonSchemaFromOverrides login_overrides false =
    JObject [("type", JString "object");
             ("properties", JObject properties);
             ("required", JStrings ["email"; "token"]);
             ("additionalProperties", JBool false)] /\
    obj_has "token" properties = false.
Proof.
  assert (Hnd : NoDup (obj_keys (match append login_overrides with
                                 | Val m => m | _ => [] end))).
  { repeat constructor; simpl; intuition discriminate. }
  destruct (jsonSchemaFromOverrides_required login_overrides false Hnd)
    as [properties [req [Heq _]]].
  vm_compute in Heq. injection Heq as <- Hreq.
  eexists. split; reflexivity.
Defined.

Lemma set_add_In k x l : In x (set_add k l) <-> In x l \/ x = k.
Proof.
  unfold set_add. destruct (str_mem k l) eqn:Hk.
  - apply str_mem_In in Hk. split; [tauto|]. intros [H| ->]; assumption.
  - rewrite in_app_iff. simpl. split.
    + intros [H|[<-|[]]]; tauto.
    + intros [H| ->]; tauto.
Qed.

Lemma set_of_In (l : list string) x : In x (set_of l) <-> In x l.
Proof.
  unfold set_of.
  assert (H : forall acc,
             In x (fold_left (fun acc k => set_add k acc) l acc) <->
             In x acc \/ In x l).
  { induction l as [|k l IH]; intros acc; simpl; [tauto|].
    rewrite IH, set_add_In. split.
    - intros [[H| ->]|H]; tauto.
    - intros [H|[<-|H]]; tauto. }
  rewrite H. simpl. tauto.
Qed.

Lemma included_fold_In (m : Obj Rule) x : forall inc,
  In x (fold_left (fun acc e => set_add (fst e) acc) m inc) <->
  In x inc \/ In x (obj_keys m).
Proof.
  induction m as [|[k def] m IH]; intros inc; simpl; [tauto|].
  rewrite IH, set_add_In. simpl. split.
  - intros [[H| ->]|H]; tauto.
  - intros [H|[<-|H]]; tauto.
Qed.

Lemma appended_properties_get (m : Obj Rule) k : forall props,
  NoDup (obj_keys m) ->
  obj_get k
    (fold_left
       (fun p e =>
          obj_set (fst e) (JObject (obj_delete "required" (rule_js (snd e))))
            p)
       m props) =
  match obj_get k m with
  | Some def => Some (JObject (obj_delete "required" (rule_js def)))
  | None => obj_get k props
  end.
Proof.
  induction m as [|[k1 d1] m IH]; intros props Hnd; [reflexivity|].
  inversion Hnd as [|? ? Hnot Hnd']; subst.
  cbn [fold_left fst snd obj_get]. rewrite (IH _ Hnd').
  destruct (String.eqb_spec k k1) as [->|Hne].
  - assert (Hnone : obj_get k1 m = None).
    { destruct (obj_get k1 m) as [d|] eqn:Hd; [|reflexivity].
      exfalso. apply Hnot. apply obj_get_In in Hd.
      apply (in_map fst) in Hd. exact Hd. }
    rewrite Hnone. apply obj_get_set_same.
  - destruct (obj_get k m); [reflexivity|].
    apply obj_get_set_other. congruence.
Qed.

Lemma default_properties_get (included : list string) k : forall props,
  obj_get k
    (fold_left
       (fun props key =>
          if obj_has key props then props
          else obj_set key (JObject [("type", JString "string")]) props)
       included props) =
  match obj_get k props with
  | Some v => Some v
  | None =>
      if str_mem k included
      then Some (JObject [("type", JString "string")])
      else None
  end.
Proof.
  induction included as [|x l IH]; intros props.
  - simpl. destruct (obj_get k props); reflexivity.
  - cbn [fold_left]. rewrite IH. unfold obj_has.
    destruct (obj_get x props) as [vx|] eqn:Hx.
    + destruct (obj_get k props) as [v|] eqn:Hk; [reflexivity|].
      simpl. destruct (String.eqb_spec k x) as [->|Hne]; [congruence|].
      reflexivity.
    + rewrite obj_get_set. simpl.
      destruct (String.eqb_spec k x) as [->|Hne].
      * rewrite Hx. reflexivity.
      * destruct (obj_get k props); reflexivity.
Qed.

Lemma obj_get_js_prop {A} k k' (p : prop A) f rest :
  k <> k' ->
  obj_get k (js_prop k' p f ++ rest) = obj_get k rest.
Proof.
  intros Hne. apply String.eqb_neq in Hne.
  destruct p; simpl; try rewrite Hne; reflexivity.
Qed.

Lemma obj_get_delete_none {A} k (m : Obj A) :
  obj_get k m = None -> obj_get k (obj_delete k m) = None.
Proof.
  induction m as [|[k1 v1] m IH]; simpl; [reflexivity|].
  destruct (String.eqb k k1) eqn:E; [discriminate|].
  intros H. simpl. rewrite E. apply IH. exact H.
Qed.

Lemma rule_js_without_required (def : Rule) :
  obj_get "required" (obj_delete "required" (rule_js def)) = None.
Proof.
  destruct def as [t req minL maxL pat en mn mx its minI maxI ch].
  cbn [rule_js].
  assert (Hrest : forall rest,
             obj_get "required" rest = None ->
             obj_get "required"
               (obj_delete "required"
                  (js_prop "type" t (fun x => JString (type_name x)) ++
                   js_prop "required" req JBool ++ rest)) = None).
  { intros rest Hr.
    destruct t, req; simpl; try exact Hr; apply obj_get_delete_none;
      exact Hr. }
  apply Hrest.
  repeat (rewrite obj_get_js_prop by discriminate).
  assert (Hitems : forall rest,
             obj_get "required" rest = None ->
             obj_get "required"
               (match its with
                | Absent => []
                | Undefined => [("items", JUndefined)]
                | Val i => [("items", JObject (rule_js i))]
                end ++ rest) = None).
  { intros rest Hr. destruct its; simpl; exact Hr. }
  apply Hitems.
  repeat (rewrite obj_get_js_prop by discriminate).
  destruct ch; reflexivity.
Qed.

(** X14: the [properties] of the schema made from the overrides alone.  A
    name has a property exactly when it is appended or included; an
    appended field's property is a copy of its definition without the
    [required] key, also when the name is included; an included name that
    is not appended gets [{type: 'string'}].  (Names that are plain.) *)
Theorem jsonSchemaFromOverrides_properties
        (o : Overrides) (allowUnknown : bool) :
  let appended := match append o with Val m => m | _ => [] end in
  NoDup (obj_keys appended) ->
  forallb plain_name (set_or_empty (include o) ++ obj_keys appended)
  = true ->
  exists properties req,
    jsonSchemaFromOverrides o allowUnknown =
    JObject [("type", JString "object");
             ("properties", JObject properties);
             ("required", req);
             ("additionalProperties", JBool allowUnknown)] /\
    (forall k,
        obj_get k properties =
        match obj_get k appended with
        | Some def => Some (JObject (obj_delete "required" (rule_js def)))
        | None =>
            if str_mem k (set_or_empty (include o))
            then Some (JObject [("type", JString "string")])
            else None
        end) /\
    (forall k def,
        In (k, def) appended ->
        exists members,
          obj_get k properties = Some (JObject members) /\
          obj_get "required" members = None).
Proof.
  intros appended Hnd _. rewrite jsonSchemaFromOverrides_shape.
  assert (Hget : forall k,
             obj_get k (no_schema_properties o) =
             match obj_get k appended with
             | Some def =>
                 Some (JObject (obj_delete "required" (rule_js def)))
             | None =>
                 if str_mem k (set_or_empty (include o))
                 then Some (JObject [("type", JString "string")])
                 else None
             end).
  { intros k. unfold no_schema_properties.
    rewrite default_properties_get.
    fold appended. rewrite (appended_properties_get appended k [] Hnd).
    destruct (obj_get k appended) as [def|] eqn:Hk; [reflexivity|].
    simpl obj_get.
    assert (Hnot : ~ In k (obj_keys appended)).
    { intros H. apply obj_has_In in H. unfold obj_has in H.
      rewrite Hk in H. discriminate. }
    destruct (str_mem k (set_or_empty (include o))) eqn:Hinc.
    - assert (Hmem : str_mem k
                       (fold_left (fun acc e => set_add (fst e) acc)
                          appended (set_of (set_or_empty (include o))))
                     = true).
      { apply str_mem_In. apply included_fold_In. left.
        apply set_of_In. apply str_mem_In. exact Hinc. }
      rewrite Hmem. reflexivity.
    - destruct (str_mem k
                  (fold_left (fun acc e => set_add (fst e) acc)
                     appended (set_of (set_or_empty (include o)))))
        eqn:Hmem; [|reflexivity].
      exfalso. apply str_mem_In in Hmem. apply included_fold_In in Hmem.
      destruct Hmem as [H|H]; [|exact (Hnot H)].
      apply (proj1 (set_of_In _ _)) in H.
      apply (proj2 (str_mem_In _ _)) in H. congruence. }
  eexists. eexists. split; [reflexivity|]. split; [exact Hget|].
  intros k def Hin.
  exists (obj_delete "required" (rule_js def)). split.
  - rewrite Hget, (obj_get_NoDup k def appended Hnd Hin). reflexivity.
  - apply rule_js_without_required.
Qed.

Lemma jsonSchemaFromOverrides_properties_witness :
  exists properties req,
    jsonSchemaFromOverrides login_overrides false =
    JObject [("type", JString "object");
             ("properties", JObject properties);
             ("required", req);
             ("additionalProperties", JBool false)] /\
    obj_get "email" properties = Some (JObject [("type", JString "string")]) /\
    obj_get "password" properties =
      Some (JObject [("type", JString "string");
                     ("minLength", JNumber (Num 8))]) /\
    obj_get "token" properties = None.
Proof.
  assert (Hnd : NoDup (obj_keys (match append login_overrides with
                                 | Val m => m | _ => [] end))).
  { repeat constructor; simpl; intuition discriminate. }
  destruct (jsonSchemaFromOverrides_properties login_overrides false Hnd
              eq_refl) as [properties [req [Heq [Hget _]]]].
  exists properties, req. split; [exact Heq|].
  rewrite !Hget. repeat split; reflexivity.
Defined.

(** ** Schema introspector: where [setNested] puts a rule *)

Lemma setNested_parts_cons seg rest value ch :
  rest <> [] ->
  setNested_parts (seg :: rest) value ch =
  let child := match obj_get seg ch with
               | Some c => c
               | None => empty_object_rule
               end in
  obj_set seg
    (set_children (Val (setNested_parts rest value (children_or_empty child)))
       child)
    ch.
Proof. destruct rest; [congruence|reflexivity]. Qed.

Lemma setNested_parts_same parts : forall value ch,
  parts <> [] ->
  rule_at_parts parts (setNested_parts parts value ch) = Some value.
Proof.
  induction parts as [|seg rest IH]; intros value ch Hne; [congruence|].
  destruct rest as [|seg' rest'].
  - simpl. apply obj_get_set_same.
  - rewrite setNested_parts_cons by discriminate. cbv zeta.
    rewrite rule_at_parts_cons, obj_get_set_same. simpl children.
    apply IH. discriminate.
Qed.

Lemma setNested_parts_other q : forall p value ch,
  diverge q p = true ->
  rule_at_parts p (setNested_parts q value ch) = rule_at_parts p ch.
Proof.
  induction q as [|b q IH]; intros p value ch Hdiv; [discriminate|].
  destruct p as [|a p]; [discriminate|].
  simpl in Hdiv.
  destruct (String.eqb b a) eqn:E.
  - apply String.eqb_eq in E; subst a.
    destruct q as [|b' q']; [discriminate|].
    destruct p as [|a' p']; [destruct b'; discriminate|].
    rewrite setNested_parts_cons by discriminate. cbv zeta.
    rewrite (rule_at_parts_cons b (a' :: p') ch).
    rewrite (rule_at_parts_cons b (a' :: p')), obj_get_set_same.
    cbn [children set_children].
    rewrite (IH (a' :: p') value _ Hdiv).
    unfold children_or_empty.
    destruct (obj_get b ch) as [c|].
    + destruct (children c); try reflexivity; apply rule_at_parts_empty.
    + apply rule_at_parts_empty.
  - apply String.eqb_neq in E.
    assert (Hget : obj_get a (setNested_parts (b :: q) value ch)
                   = obj_get a ch).
    { destruct q as [|b' q'].
      - simpl. apply obj_get_set_other; assumption.
      - rewrite setNested_parts_cons by discriminate. cbv zeta.
        apply obj_get_set_other; assumption. }
    rewrite !rule_at_parts_cons, Hget. reflexivity.
Qed.

(** Where the rebuild of [applyOverrides] does not throw, it attaches a
    rule as [setNested] does. *)
Lemma attach_parts_setNested parts : forall rule ch ch',
  attach_parts parts rule ch = Some ch' ->
  setNested_parts parts rule ch = ch'.
Proof.
  induction parts as [|seg rest IH]; intros rule ch ch' H.
  - simpl in H. injection H as <-. reflexivity.
  - destruct rest as [|seg' rest'].
    + simpl in H. injection H as <-. reflexivity.
    + rewrite attach_parts_cons in H by discriminate. cbv zeta in H.
      rewrite setNested_parts_cons by discriminate. cbv zeta.
      unfold children_or_empty.
      destruct (children _) as [| |m] eqn:Hch; try discriminate.
      destruct (attach_parts (seg' :: rest') rule m) as [m'|] eqn:Hatt;
        [|discriminate].
      injection H as <-. rewrite (IH rule m m' Hatt). reflexivity.
Qed.

Lemma setNested_same (root : RuleTree) (path : string) (value : Rule) :
  rule_at path (setNested root path value) = Some value.
Proof.
  unfold rule_at, setNested. cbn [rt_children].
  apply setNested_parts_same. apply split_dot_nonempty.
Qed.

Lemma setNested_other (root : RuleTree) (path q : string) (value : Rule) :
  diverge (split_dot path) (split_dot q) = true ->
  rule_at q (setNested root path value) = rule_at q root.
Proof.
  intros Hdiv. unfold rule_at, setNested. cbn [rt_children].
  rewrite (setNested_parts_other _ _ value _ Hdiv).
  destruct (rt_children root); try reflexivity; apply rule_at_parts_empty.
Qed.

(** X15: [setNested] puts the rule where its dotted path says and moves
    nothing else: in the tree it leaves, the rule at [path] is [value],
    whatever the tree held before, and the rule at any path that parts ways
    with [path] is what it was.  (Segments that are plain names.) *)
Theorem setNested_puts
        (root : RuleTree) (path : string) (value : Rule) :
  plain_path path = true ->
  rule_at path (setNested root path value) = Some value /\
  forall q,
    diverge (split_dot path) (split_dot q) = true ->
    rule_at q (setNested root path value) = rule_at q root.
Proof.
  intros _. split.
  - apply setNested_same.
  - intros q. apply setNested_other.
Qed.

Lemma setNested_puts_witness :
  rule_at "address.zip"
    (setNested address_tree "address.zip" (rule_of_type TNumber))
  = Some (rule_of_type TNumber) /\
  rule_at "address.city"
    (setNested address_tree "address.zip" (rule_of_type TNumber))
  = Some (set_required (Val true) (rule_of_type TString)).
Proof.
  destruct (setNested_puts address_tree "address.zip" (rule_of_type TNumber)
              eq_refl) as [H1 H2].
  split; [exact H1|].
  rewrite (H2 "address.city" eq_refl). reflexivity.
Defined.

(** X16: where the rebuild of [applyOverrides] returns, it has attached
    the rule as [setNested] attaches one: the two loops differ only in
    that the rebuild throws at a node without a [children] map, which
    [setNested] gives one. *)
Theorem attach_parts_as_setNested
        (path : string) (rule : Rule) (ch ch' : Obj Rule) :
  attach_parts (split_dot path) rule ch = Some ch' ->
  setNested (mkRuleTree (Val ch) Absent) path rule
  = mkRuleTree (Val ch') Absent.
Proof.
  intros H. unfold setNested. cbn [rt_children rt_fields].
  rewrite (attach_parts_setNested _ _ _ _ H). reflexivity.
Qed.

Lemma attach_parts_as_setNested_witness :
  setNested (mkRuleTree (Val []) Absent) "a.b" (rule_of_type TString)
  = mkRuleTree
      (Val [("a", set_children (Val [("b", rule_of_type TString)])
                    (rule_of_type TObject))])
      Absent.
Proof.
  apply (attach_parts_as_setNested "a.b" (rule_of_type TString) []).
  reflexivity.
Defined.

(** ** Schema introspector: the compiled tree *)

Lemma compile_paths_keeps RegExp_new ps : forall tree t p r,
  compile_paths RegExp_new ps tree = Some t ->
  rule_at p tree = Some r ->
  (forall q, In q (map fst ps) ->
             diverge (split_dot q) (split_dot p) = true) ->
  rule_at p t = Some r.
Proof.
  induction ps as [|[q f] ps IH]; intros tree t p r H Hat Hall; simpl in H.
  - injection H as <-. exact Hat.
  - destruct (compile_field RegExp_new f) as [v|]; [|discriminate].
    apply (IH _ t p r H).
    + rewrite setNested_other; [exact Hat|].
      apply Hall. left. reflexivity.
    + intros q' Hq'. apply Hall. right. exact Hq'.
Qed.

Lemma compile_paths_finds RegExp_new ps : forall tree t p f,
  NoDup (map fst ps) ->
  In (p, f) ps ->
  (forall q, In q (map fst ps) -> q <> p ->
             diverge (split_dot q) (split_dot p) = true) ->
  compile_paths RegExp_new ps tree = Some t ->
  exists r, compile_field RegExp_new f = Some r /\ rule_at p t = Some r.
Proof.
  induction ps as [|[q g] ps IH]; intros tree t p f Hnd Hin Hall H;
    [destruct Hin|].
  simpl in H, Hnd. inversion Hnd as [|? ? Hq Hnd']; subst.
  destruct (compile_field RegExp_new g) as [v|] eqn:Hv; [|discriminate].
  destruct (String.eqb_spec q p) as [->|Hne].
  - assert (g = f) as ->.
    { destruct Hin as [Heq|Hin]; [congruence|].
      exfalso. apply Hq. apply (in_map fst) in Hin. exact Hin. }
    exists v. split; [exact Hv|].
    apply (compile_paths_keeps RegExp_new ps _ t p v H).
    + apply setNested_same.
    + intros q' Hq'. apply Hall; [right; exact Hq'|].
      intros ->. exact (Hq Hq').
  - destruct Hin as [Heq|Hin]; [congruence|].
    apply (IH (setNested tree q v) t p f Hnd' Hin); [|exact H].
    intros q' Hq' Hne'. apply Hall; [right; exact Hq'|exact Hne'].
Qed.

Lemma compile_paths_none RegExp_new ps : forall tree,
  compile_paths RegExp_new ps tree = None <->
  exists p f, In (p, f) ps /\ compile_field RegExp_new f = None.
Proof.
  induction ps as [|[q g] ps IH]; intros tree; simpl.
  - split; [discriminate|]. intros [p [f [[] _]]].
  - destruct (compile_field RegExp_new g) as [v|] eqn:Hv.
    + rewrite IH. split.
      * intros [p [f [Hin Hf]]]. exists p, f. split; [right; exact Hin|].
        exact Hf.
      * intros [p [f [[Heq|Hin] Hf]]].
        -- injection Heq as -> ->. congruence.
        -- exists p, f. split; assumption.
    + split; [|reflexivity]. intros _. exists q, g.
      split; [left; reflexivity|exact Hv].
Qed.

(** X17: the compiled tree holds each field of the schema at its path.
    For a schema whose paths are distinct, the compiler throws exactly when
    the rule of one of its fields cannot be made; when it returns, every
    path that no other path of the schema runs into holds the rule made
    for its field.  (Paths of plain names, in the schema and in its
    sub-schemas at every depth.) *)
Theorem compileRulesFromMongooseSchema_fields
        (RegExp_new : string -> option string) (ref : nat)
        (ps : list (string * SchemaType)) :
  NoDup (map fst ps) ->
  plain_schema ps = true ->
  (compileRulesFromMongooseSchema RegExp_new (SchemaObj ref ps) = None <->
   exists p f, In (p, f) ps /\ compile_field RegExp_new f = None) /\
  forall tree p f,
    compileRulesFromMongooseSchema RegExp_new (SchemaObj ref ps)
    = Some tree ->
    In (p, f) ps ->
    (forall q, In q (map fst ps) -> q <> p ->
               diverge (split_dot q) (split_dot p) = true) ->
    exists r, compile_field RegExp_new f = Some r /\ rule_at p tree = Some r.
Proof.
  intros Hnd _. split.
  - apply compile_paths_none.
  - intros tree p f H Hin Hall.
    apply (compile_paths_finds RegExp_new ps empty_root tree p f Hnd Hin
             Hall H).
Qed.

Lemma compileRulesFromMongooseSchema_fields_witness :
  exists tree,
    compileRulesFromMongooseSchema (fun src => Some src) profile_schema
    = Some tree /\
    exists r, rule_at "name.first" tree = Some r /\
              pattern r = Val (PatRegExp "^[A-Z]") /\
              required r = Val true.
Proof.
  assert (Hnd : NoDup (map fst profile_schema_paths)).
  { repeat constructor; simpl; intuition discriminate. }
  destruct (compileRulesFromMongooseSchema_fields (fun src => Some src) 2
              profile_schema_paths Hnd eq_refl) as [_ Hall].
  destruct (compileRulesFromMongooseSchema (fun src => Some src)
              profile_schema) as [tree|] eqn:H;
    [|vm_compute in H; discriminate H].
  exists tree. split; [reflexivity|].
  destruct (Hall tree "name.first" _ H (or_introl eq_refl))
    as [r [Hr Hat]].
  - intros q Hq Hne. simpl in Hq.
    destruct Hq as [<-|[<-|[<-|[]]]];
      [exfalso; apply Hne; reflexivity|reflexivity|reflexivity].
  - exists r. split; [exact Hat|].
    vm_compute in Hr. injection Hr as <-. split; reflexivity.
Defined.

Lemma lift_string_core RegExp_new opts r r1 :
  lift_string RegExp_new opts r = Some r1 ->
  type r1 = type r /\ required r1 = required r /\ children r1 = children r.
Proof.
  unfold lift_string.
  destruct (pattern_of_match RegExp_new (o_match opts)); [|discriminate].
  intros [= <-]. repeat split.
Qed.

Lemma compile_field_core RegExp_new (f : SchemaType) (r : Rule) :
  compile_field RegExp_new f = Some r ->
  required r =
    Val (o_required (match options f with Some o => o | None => no_opts end))
  /\
  match schema f with
  | Some _ => type r = Val TObject /\ not_nullish (children r) = true
  | None => type r = Val (mapInstanceToType (instance f)) /\
            children r = Absent
  end.
Proof.
  destruct f as [inst oopts cast sch]. cbn [options schema instance].
  intros H. simpl in H.
  set (opts := match oopts with Some o => o | None => no_opts end) in *.
  set (t := mapInstanceToType inst) in *.
  set (r0 := set_required (Val (o_required opts)) (rule_of_type t)) in *.
  assert (Hr1 : forall r1,
             (if PrimitiveType_eqb t TString
              then lift_string RegExp_new opts r0 else Some r0) = Some r1 ->
             type r1 = Val t /\ required r1 = Val (o_required opts) /\
             children r1 = Absent).
  { intros r1 E. destruct (PrimitiveType_eqb t TString).
    - apply lift_string_core in E. destruct E as [E1 [E2 E3]].
      rewrite E1, E2, E3. repeat split.
    - injection E as <-. repeat split. }
  destruct (if PrimitiveType_eqb t TString
            then lift_string RegExp_new opts r0 else Some r0) as [r1|];
    [|discriminate].
  destruct (Hr1 r1 eq_refl) as [T1 [R1 C1]]. clear Hr1.
  set (r2 := if PrimitiveType_eqb t TNumber
             then lift_bounds (fun n => n) opts r1 else r1) in *.
  assert (H2 : type r2 = Val t /\ required r2 = Val (o_required opts) /\
               children r2 = Absent).
  { subst r2. destruct (PrimitiveType_eqb t TNumber); simpl; auto. }
  destruct H2 as [T2 [R2 C2]].
  set (r3 := if PrimitiveType_eqb t TDate
             then lift_bounds date_getTime opts r2 else r2) in *.
  assert (H3 : type r3 = Val t /\ required r3 = Val (o_required opts) /\
               children r3 = Absent).
  { subst r3. destruct (PrimitiveType_eqb t TDate); simpl; auto. }
  destruct H3 as [T3 [R3 C3]].
  match type of H with
  | match ?x with Some _ => _ | None => None end = _ =>
      assert (H4 : forall r4, x = Some r4 ->
                     type r4 = Val t /\
                     required r4 = Val (o_required opts) /\
                     children r4 = Absent);
      [|destruct x as [r4|]; [|discriminate];
        destruct (H4 r4 eq_refl) as [T4 [R4 C4]]; clear H4]
  end.
  { intros r4 E. destruct (PrimitiveType_eqb t TArray).
    - match type of E with
      | match ?y with Some _ => _ | None => None end = _ =>
          destruct y as [ra|] eqn:Ey; [|discriminate]
      end.
      injection E as <-. simpl.
      destruct cast as [[cinst copts ccast csch]|].
      + destruct (items_of_caster RegExp_new cinst copts) as [it|];
          [|discriminate].
        destruct csch as [cps|].
        * match type of Ey with
          | match ?z with Some _ => _ | None => None end = _ =>
              destruct z as [ch|]; [|discriminate]
          end.
          injection Ey as <-. simpl. auto.
        * injection Ey as <-. simpl. auto.
      + injection Ey as <-. auto.
    - injection E as <-. auto. }
  destruct sch as [ps|].
  - match type of H with
    | match ?z with Some _ => _ | None => None end = _ =>
        destruct z as [ch|]; [|discriminate]
    end.
    injection H as <-. simpl. rewrite R4. auto.
  - injection H as <-. auto.
Qed.

(** X18: every rule the introspector makes for a field has a boolean
    [required], the truthiness of the field's [required] option (false
    when the field has no options), whatever else is lifted; a field with
    a sub-schema becomes an object node with a children map, any other
    field keeps the type mapped from its instance and has no [children],
    so that [flatten] records it as a leaf. *)
Theorem compile_field_shape
        (RegExp_new : string -> option string)
        (f : SchemaType) (r : Rule) :
  compile_field RegExp_new f = Some r ->
  required r =
    Val (o_required (match options f with Some o => o | None => no_opts end))
  /\
  match schema f with
  | Some _ => type r = Val TObject /\ is_leaf r = false
  | None => type r = Val (mapInstanceToType (instance f)) /\
            is_leaf r = true
  end.
Proof.
  intros H. destruct (compile_field_core RegExp_new f r H) as [Hreq Hs].
  split; [exact Hreq|].
  unfold is_leaf. destruct (schema f).
  - destruct Hs as [Ht Hc]. rewrite Ht, Hc. split; reflexivity.
  - destruct Hs as [Ht Hc]. rewrite Ht, Hc. split; [reflexivity|].
    simpl. rewrite andb_false_r. reflexivity.
Qed.

Lemma compile_field_shape_witness :
  exists r,
    compile_field (fun src => Some src)
      (mkSchemaType "Embedded" None None
         (Some [("city", mkSchemaType "String" None None None)]))
    = Some r /\
    required r = Val false /\ type r = Val TObject /\ is_leaf r = false.
Proof.
  eexists. split; [reflexivity|].
  match goal with
  | |- required ?r = _ /\ _ =>
      destruct (compile_field_shape (fun src => Some src)
                  (mkSchemaType "Embedded" None None
                     (Some [("city", mkSchemaType "String" None None None)]))
                  r eq_refl) as [H1 [H2 H3]]
  end.
  repeat split; assumption.
Defined.

(** ** Validator results: the field of a nested failure *)

Lemma slashes_to_dots_app a b :
  slashes_to_dots (a ++ b) = (slashes_to_dots a ++ slashes_to_dots b)%string.
Proof.
  induction a as [|c a IH]; simpl; [reflexivity|]. rewrite IH. reflexivity.
Qed.

Lemma slashes_to_dots_none s : has_slash s = false -> slashes_to_dots s = s.
Proof.
  induction s as [|c s IH]; simpl; [reflexivity|].
  intros H. apply orb_false_iff in H. destruct H as [Hc Hs].
  rewrite Hc, (IH Hs). reflexivity.
Qed.

Lemma slashes_to_dots_join segs :
  forallb plain_segment segs = true ->
  slashes_to_dots (join "/" segs) = join "." segs.
Proof.
  induction segs as [|x l IH]; intros H; [reflexivity|].
  simpl in H. apply andb_true_iff in H. destruct H as [Hx Hl].
  unfold plain_segment in Hx. apply andb_true_iff in Hx.
  destruct Hx as [Hx _]. apply negb_true_iff in Hx.
  destruct l as [|y l].
  - simpl. apply slashes_to_dots_none. exact Hx.
  - change (join "/" (x :: y :: l)) with (x ++ "/" ++ join "/" (y :: l))%string.
    change (join "." (x :: y :: l)) with (x ++ "." ++ join "." (y :: l))%string.
    rewrite !slashes_to_dots_app, (slashes_to_dots_none x Hx), (IH Hl).
    reflexivity.
Qed.

Lemma split_dot_join segs :
  segs <> [] ->
  forallb plain_segment segs = true ->
  split_dot (join "." segs) = segs.
Proof.
  induction segs as [|x l IH]; intros Hne H; [congruence|].
  simpl in H. apply andb_true_iff in H. destruct H as [Hx Hl].
  unfold plain_segment in Hx. apply andb_true_iff in Hx.
  destruct Hx as [_ Hx]. apply negb_true_iff in Hx.
  destruct l as [|y l].
  - simpl. apply split_dot_good. exact Hx.
  - change (join "." (x :: y :: l)) with (x ++ "." ++ join "." (y :: l))%string.
    rewrite split_dot_app_dot, (split_dot_good x Hx), IH;
      [reflexivity|discriminate|exact Hl].
Qed.

(** X19: the field of a failure below the root is its location in
    dot-notation.  When the engine reports the location [/s1/.../sn], the
    normalized error names the field [s1. ... .sn], whose dotted path
    splits into the same segments, and the error's [missingProperty] is
    not looked at: a missing nested property is reported under the object
    that lacks it. *)
Theorem error_field_of_location (e : ErrorObject) (segs : list string) :
  instancePath e = Val (String "/" (join "/" segs)) ->
  forallb plain_segment segs = true ->
  join "." segs <> EmptyString ->
  error_field e = join "." segs /\
  split_dot (error_field e) = segs.
Proof.
  intros Hpath Hsegs Hne.
  assert (Hfield : error_field e = join "." segs).
  { unfold error_field. rewrite Hpath. cbn [strip_leading_slash].
    change (Ascii.eqb "/" "/") with true. cbv iota.
    rewrite (slashes_to_dots_join segs Hsegs). unfold truthy_string.
    destruct (String.eqb_spec (join "." segs) EmptyString); [congruence|].
    reflexivity. }
  split; [exact Hfield|].
  rewrite Hfield. apply split_dot_join; [|exact Hsegs].
  intros ->. apply Hne. reflexivity.
Qed.

Lemma error_field_of_location_witness :
  error_field
    (mkErrorObject (Val "/address/0") (Val "city") "required" Absent)
  = "address.0".
Proof.
  destruct (error_field_of_location
              (mkErrorObject (Val "/address/0") (Val "city") "required"
                 Absent)
              ["address"; "0"] eq_refl eq_refl) as [H _];
    [discriminate|exact H].
Defined.

(** ** Shared children: when the rebuild writes into no existing map *)

(** X20: over shared objects, when no leaf of the base tree and no appended
    rule holds a children map, a call of [applyOverrides] leaves every
    children map that existed before it as it was, whether the call returns
    or throws: what it builds, it builds in new maps. *)
Theorem applyOverrides_writes_new_maps_only
        (fuel : nat) (ruleTree : prop Store.loc) (o : Store.Overrides)
        (h : Store.Heap) (baseMap : Obj Store.Node) :
  Store.flatten fuel h ruleTree EmptyString [] = Some baseMap ->
  Store.no_kids baseMap ->
  Store.no_kids (match Store.append o with Val m => m | _ => [] end) ->
  Store.unchanged h (snd (Store.applyOverrides fuel ruleTree o h)).
Proof. exact (applyOverrides_frame fuel ruleTree o h baseMap). Qed.

Lemma applyOverrides_writes_new_maps_only_witness :
  let h := [[("a", Store.mkNode (rule_of_type TString) Absent)]] in
  let o := Store.mkOverrides Absent Absent Absent Absent
             (Val [("a.x", Store.mkNode (rule_of_type TString) Absent)]) in
  fst (Store.applyOverrides 2 (Val 0%nat) o h) = None /\
  Store.unchanged h (snd (Store.applyOverrides 2 (Val 0%nat) o h)).
Proof.
  intros h o. split; [reflexivity|].
  apply (applyOverrides_writes_new_maps_only 2 (Val 0%nat) o h
           [("a", Store.mkNode (rule_of_type TString) Absent)]).
  - reflexivity.
  - intros p n [Heq|[]]. injection Heq as <- <-. reflexivity.
  - intros p n [Heq|[]]. injection Heq as <- <-. reflexivity.
Defined.

(** ** Cache keys: the text of a key *)

Lemma string_app_assoc (a b c : string) :
  ((a ++ b) ++ c = a ++ (b ++ c))%string.
Proof.
  induction a as [|x a IH]; simpl; [reflexivity|]. rewrite IH. reflexivity.
Qed.

Lemma string_app_inv_head (a b c : string) :
  (a ++ b = a ++ c)%string -> b = c.
Proof.
  induction a as [|x a IH]; simpl; [auto|]. intros [= H]. auto.
Qed.

Lemma serialize_or_null K v : serialize K (or_null v) <> None.
Proof.
  unfold or_null. destruct (truthy v) eqn:Ht; [|discriminate].
  destruct v as [| |[|]|[z|]|s|src|l|m]; simpl in *; discriminate.
Qed.

Lemma makeOverrideKey_text (a : Obj JsVal) :
  makeOverrideKey a =
  key_text (truthy (js_get "allowUnknown" a))
           (text_of (or_null (js_get "append" a)))
           (truthy (js_get "coerceTypes" a))
           (text_of (or_null (js_get "exclude" a)))
           (text_of (or_null (js_get "include" a)))
           (text_of (or_null (js_get "optional" a)))
           (text_of (or_null (js_get "required" a))).
Proof.
  unfold makeOverrideKey, stringify_object.
  change (sort_strings (obj_keys (overrideData a))) with override_names.
  rewrite serialize_object. unfold text_of, overrideData.
  cbn [ser_members map fst snd].
  pose proof (serialize_or_null override_names (js_get "append" a)) as Ha.
  pose proof (serialize_or_null override_names (js_get "exclude" a)) as He.
  pose proof (serialize_or_null override_names (js_get "include" a)) as Hi.
  pose proof (serialize_or_null override_names (js_get "optional" a)) as Ho.
  pose proof (serialize_or_null override_names (js_get "required" a)) as Hr.
  destruct (serialize override_names (or_null (js_get "append" a)))
    as [sa|]; [|congruence].
  destruct (serialize override_names (or_null (js_get "exclude" a)))
    as [se|]; [|congruence].
  destruct (serialize override_names (or_null (js_get "include" a)))
    as [si|]; [|congruence].
  destruct (serialize override_names (or_null (js_get "optional" a)))
    as [so|]; [|congruence].
  destruct (serialize override_names (or_null (js_get "required" a)))
    as [sr|]; [|congruence].
  destruct (truthy (js_get "allowUnknown" a)),
           (truthy (js_get "coerceTypes" a));
    cbv [key_text bool_text]; simpl;
    repeat (first [rewrite string_app_assoc|progress simpl]); reflexivity.
Qed.

(** ** Cache keys: what the key sees of overrides and options *)

Lemma fold_set_get {A} (l : Obj A) k : forall m0,
  NoDup (obj_keys l) ->
  obj_get k (fold_left (fun m e => obj_set (fst e) (snd e) m) l m0) =
  match obj_get k l with
  | Some v => Some v
  | None => obj_get k m0
  end.
Proof.
  induction l as [|[k1 v1] l IH]; intros m0 Hnd; [reflexivity|].
  inversion Hnd as [|? ? Hnot Hnd']; subst.
  cbn [fold_left fst snd obj_get]. rewrite (IH _ Hnd').
  destruct (String.eqb_spec k k1) as [->|Hne].
  - assert (Hnone : obj_get k1 l = None).
    { destruct (obj_get k1 l) as [d|] eqn:Hd; [|reflexivity].
      exfalso. apply Hnot. apply obj_get_In in Hd.
      apply (in_map fst) in Hd. exact Hd. }
    rewrite Hnone. apply obj_get_set_same.
  - destruct (obj_get k l); [reflexivity|].
    apply obj_get_set_other. congruence.
Qed.

Lemma js_get_spread (a b : Obj JsVal) k :
  NoDup (obj_keys a) -> NoDup (obj_keys b) ->
  js_get k (js_spread a b) =
  match obj_get k b with
  | Some v => v
  | None => js_get k a
  end.
Proof.
  intros Ha Hb. unfold js_get, js_spread.
  rewrite (fold_set_get b k _ Hb), (fold_set_get a k _ Ha).
  destruct (obj_get k b); [reflexivity|].
  destruct (obj_get k a); reflexivity.
Qed.

Lemma obj_get_js_prop_same {A} k (p : prop A) f rest :
  obj_get k (js_prop k p f ++ rest) =
  match p with
  | Absent => obj_get k rest
  | Undefined => Some JUndefined
  | Val a => Some (f a)
  end.
Proof. destruct p; simpl; try rewrite String.eqb_refl; reflexivity. Qed.

Lemma keys_js_prop_app {A} k' k (p : prop A) f rest :
  In k' (obj_keys (js_prop k p f ++ rest)) ->
  k' = k \/ In k' (obj_keys rest).
Proof. destruct p; simpl; intuition. Qed.

Lemma NoDup_js_prop_app {A} k (p : prop A) f rest :
  ~ In k (obj_keys rest) -> NoDup (obj_keys rest) ->
  NoDup (obj_keys (js_prop k p f ++ rest)).
Proof. intros Hnot Hnd. destruct p; simpl; try constructor; assumption. Qed.

Ltac keys_apart :=
  let H := fresh "H" in
  intros H;
  repeat (apply keys_js_prop_app in H; destruct H as [H|H];
          [discriminate H|]);
  exact H.

Lemma overrides_js_NoDup o : NoDup (obj_keys (overrides_js o)).
Proof.
  unfold overrides_js.
  rewrite <- (app_nil_r (js_prop "append" (append o) rules_js)).
  repeat (apply NoDup_js_prop_app; [keys_apart|]).
  constructor.
Qed.

Lemma options_js_NoDup options : NoDup (obj_keys (options_js options)).
Proof.
  unfold options_js.
  rewrite <- (app_nil_r (js_prop "allowUnknown" (allowUnknown options) JBool)).
  repeat (apply NoDup_js_prop_app; [keys_apart|]).
  constructor.
Qed.

Lemma key_input_paths (o : Overrides) (options : ValidatorOptions) :
  js_get "include" (key_input o options) = paths_js (include o) /\
  js_get "exclude" (key_input o options) = paths_js (exclude o) /\
  js_get "optional" (key_input o options) = paths_js (optional o) /\
  js_get "required" (key_input o options) = paths_js (required_paths o).
Proof.
  unfold key_input.
  rewrite !(js_get_spread _ _ _ (overrides_js_NoDup o)
              (options_js_NoDup options)).
  assert (Hopt : forall k,
             k <> "coerceTypes" -> k <> "allowUnknown" ->
             obj_get k (options_js options) = None).
  { intros k H1 H2. unfold options_js.
    rewrite obj_get_js_prop by exact H1.
    rewrite <- (app_nil_r (js_prop "allowUnknown" _ _)).
    rewrite obj_get_js_prop by exact H2. reflexivity. }
  rewrite !Hopt by discriminate.
  unfold overrides_js, js_get.
  destruct (include o), (exclude o), (optional o), (required_paths o),
           (append o); repeat split.
Qed.


Lemma key_input_append (o : Overrides) (options : ValidatorOptions) :
  js_get "append" (key_input o options) =
  match append o with Val m => rules_js m | _ => JUndefined end.
Proof.
  unfold key_input.
  rewrite (js_get_spread _ _ _ (overrides_js_NoDup o)
             (options_js_NoDup options)).
  assert (Hopt : obj_get "append" (options_js options) = None).
  { unfold options_js. rewrite obj_get_js_prop by discriminate.
    rewrite <- (app_nil_r (js_prop "allowUnknown" _ _)).
    rewrite obj_get_js_prop by discriminate. reflexivity. }
  rewrite Hopt. unfold overrides_js, js_get.
  repeat (rewrite obj_get_js_prop by discriminate).
  destruct (append o); reflexivity.
Qed.

Lemma key_input_flags (o : Overrides) (options : ValidatorOptions) :
  truthy (js_get "allowUnknown" (key_input o options))
  = truthy_bool (allowUnknown options) /\
  truthy (js_get "coerceTypes" (key_input o options))
  = truthy_bool (coerceTypes options).
Proof.
  unfold key_input.
  rewrite !(js_get_spread _ _ _ (overrides_js_NoDup o)
              (options_js_NoDup options)).
  assert (Hov : forall k,
             k <> "include" -> k <> "exclude" -> k <> "optional" ->
             k <> "required" -> k <> "append" ->
             js_get k (overrides_js o) = JUndefined).
  { intros k H1 H2 H3 H4 H5. unfold overrides_js, js_get.
    rewrite obj_get_js_prop by exact H1.
    rewrite obj_get_js_prop by exact H2.
    rewrite obj_get_js_prop by exact H3.
    rewrite obj_get_js_prop by exact H4.
    rewrite <- (app_nil_r (js_prop "append" _ _)).
    rewrite obj_get_js_prop by exact H5. reflexivity. }
  rewrite !Hov by discriminate.
  unfold options_js.
  destruct (coerceTypes options) as [| |[|]],
           (allowUnknown options) as [| |[|]]; split; reflexivity.
Qed.

Lemma override_key_text (o : Overrides) (options : ValidatorOptions) :
  override_key o options =
  key_text (truthy_bool (allowUnknown options))
           (text_of (or_null (match append o with
                              | Val m => rules_js m
                              | _ => JUndefined
                              end)))
           (truthy_bool (coerceTypes options))
           (text_of (or_null (paths_js (exclude o))))
           (text_of (or_null (paths_js (include o))))
           (text_of (or_null (paths_js (optional o))))
           (text_of (or_null (paths_js (required_paths o)))).
Proof.
  unfold override_key. fold (key_input o options).
  rewrite makeOverrideKey_text.
  destruct (key_input_paths o options) as [-> [-> [-> ->]]].
  destruct (key_input_flags o options) as [-> ->].
  rewrite key_input_append. reflexivity.
Qed.

Lemma members_for_none K (ser : Obj (option string)) :
  (forall P, In P K -> obj_get P ser = None) ->
  members_for K ser = [].
Proof.
  induction K as [|P K IH]; intros H; [reflexivity|].
  simpl. rewrite (H P (or_introl eq_refl)).
  apply IH. intros Q HQ. apply H. right. exact HQ.
Qed.

Lemma text_of_foreign_rules (m : Obj Rule) :
  (forall k, In k (obj_keys m) -> ~ In k override_names) ->
  text_of (or_null (rules_js m)) = "{}".
Proof.
  intros H. unfold rules_js, or_null, text_of. cbn [truthy].
  rewrite serialize_object, members_for_none; [reflexivity|].
  intros P HP.
  destruct (obj_get P (ser_members override_names
                         (map (fun e => (fst e, JObject (rule_js (snd e))))
                              m))) as [v|] eqn:Hget; [|reflexivity].
  exfalso. apply obj_get_In in Hget. apply (in_map fst) in Hget.
  unfold ser_members in Hget. rewrite !map_map in Hget. simpl in Hget.
  exact (H P Hget HP).
Qed.

(** X21: the cache key does not see the appended rules.  Two overrides
    with the same [include], [exclude], [optional] and [required] get the
    same key under the same options whatever fields they append, as long
    as both append something and no appended field is named like one of
    the seven properties of the key: [append] is serialized as [{}]. *)
Theorem override_key_ignores_appended_rules
        (o1 o2 : Overrides) (options : ValidatorOptions)
        (m1 m2 : Obj Rule) :
  include o1 = include o2 -> exclude o1 = exclude o2 ->
  optional o1 = optional o2 -> required_paths o1 = required_paths o2 ->
  append o1 = Val m1 -> append o2 = Val m2 ->
  (forall k, In k (obj_keys m1 ++ obj_keys m2) -> ~ In k override_names) ->
  override_key o1 options = override_key o2 options.
Proof.
  intros Hi He Ho Hr H1 H2 Hnames.
  rewrite !override_key_text, Hi, He, Ho, Hr, H1, H2.
  rewrite !text_of_foreign_rules; [reflexivity| |].
  - intros k Hk. apply Hnames. apply in_or_app. right. exact Hk.
  - intros k Hk. apply Hnames. apply in_or_app. left. exact Hk.
Qed.

Lemma override_key_ignores_appended_rules_witness :
  override_key login_overrides no_options =
  override_key
    (mkOverrides (Val ["email"]) Absent (Val ["password"])
       (Val ["email"; "token"]) (Val []))
    no_options.
Proof.
  apply (override_key_ignores_appended_rules login_overrides
           (mkOverrides (Val ["email"]) Absent (Val ["password"])
              (Val ["email"; "token"]) (Val []))
           no_options _ [] eq_refl eq_refl eq_refl eq_refl eq_refl eq_refl).
  intros k Hk Hin. simpl in Hk.
  destruct Hk as [<-|[<-|[]]]; simpl in Hin;
    repeat (destruct Hin as [Hin|Hin]; [discriminate Hin|]);
    exact Hin.
Defined.

(** X22: for the same overrides, the cache key tells two sets of options
    apart exactly when they differ in the truthiness of [allowUnknown] or
    of [coerceTypes]. *)
Theorem override_key_options
        (o : Overrides) (options1 options2 : ValidatorOptions) :
  override_key o options1 = override_key o options2 <->
  truthy_bool (allowUnknown options1) = truthy_bool (allowUnknown options2)
  /\
  truthy_bool (coerceTypes options1) = truthy_bool (coerceTypes options2).
Proof.
  rewrite !override_key_text. split.
  - intros H. unfold key_text in H.
    destruct (truthy_bool (allowUnknown options1)),
             (truthy_bool (allowUnknown options2));
      try (exfalso; simpl in H; discriminate H);
      (destruct (truthy_bool (coerceTypes options1)),
                (truthy_bool (coerceTypes options2));
       try (split; reflexivity);
       exfalso; simpl in H;
       repeat match type of H with
              | String _ _ = String _ _ => injection H as H
              end;
       apply string_app_inv_head in H; discriminate H).
  - intros [-> ->]. reflexivity.
Qed.

(** ** Query helpers: pagination *)

(** X23: [parsePagination] clamps.  Whatever numbers it is given, the page
    is at least 1, the page size lies between 1 and 200 and [limit] is the
    page size; while [(page - 1) * pageSize] is a safe integer, [skip] is
    that product and is not negative; a page of at least 1 and a page size
    from 1 to 200 are kept as given; a missing, zero or NaN page is 1; a
    missing, zero or NaN page size is 20, while a negative one is 1. *)
Theorem parsePagination_clamps (page pageSize : prop JsNumber) :
  let r := parsePagination page pageSize in
  (1 <= pg_page r)%Z /\
  (1 <= pg_pageSize r <= 200)%Z /\
  pg_limit r = pg_pageSize r /\
  (((pg_page r - 1) * pg_pageSize r <= MAX_SAFE_INTEGER)%Z ->
   pg_skip r = ((pg_page r - 1) * pg_pageSize r)%Z /\
   (0 <= pg_skip r)%Z) /\
  (forall z, page = Val (Num z) -> (1 <= z)%Z -> pg_page r = z) /\
  (forall z, pageSize = Val (Num z) -> (1 <= z <= 200)%Z ->
             pg_pageSize r = z) /\
  (page = Absent \/ page = Undefined \/ page = Val (Num 0) \/
   page = Val NaN -> pg_page r = 1%Z) /\
  (pageSize = Absent \/ pageSize = Undefined \/ pageSize = Val (Num 0) \/
   pageSize = Val NaN -> pg_pageSize r = 20%Z) /\
  (forall z, pageSize = Val (Num z) -> (z < 0)%Z -> pg_pageSize r = 1%Z).
Proof.
  unfold parsePagination. cbn [pg_page pg_pageSize pg_skip pg_limit].
  split; [lia|]. split; [lia|]. split; [reflexivity|].
  split; [intros _; split; [reflexivity|nia]|].
  repeat split.
  - intros z -> Hz. simpl.
    destruct (Z.eqb_spec z 0); lia.
  - intros z -> Hz. simpl.
    destruct (Z.eqb_spec z 0); lia.
  - intros [-> | [-> | [-> | ->]]]; reflexivity.
  - intros [-> | [-> | [-> | ->]]]; reflexivity.
  - intros z -> Hz. simpl.
    destruct (Z.eqb_spec z 0); lia.
Qed.


Lemma parsePagination_clamps_witness :
  (pg_pageSize (parsePagination (Val (Num 3)) (Val (Num 1000))) <= 200)%Z /\
  pg_skip (parsePagination (Val (Num 3)) (Val (Num 1000))) = 400%Z /\
  pg_page (parsePagination (Val (Num 3)) (Val (Num 1000))) = 3%Z.
Proof.
  destruct (parsePagination_clamps (Val (Num 3)) (Val (Num 1000)))
    as [_ [Hsize [_ [Hskip [Hpage _]]]]].
  split; [exact (proj2 Hsize)|]. split.
  - apply Hskip. vm_compute. discriminate.
  - apply (Hpage 3%Z eq_refl). lia.
Defined.

(** ** Query helpers: a projection built, then applied *)

Lemma mark_fold_get {A} (v : A) (l : list string) f : forall m0,
  obj_get f (fold_left (fun proj g => obj_set g v proj) l m0) =
  if str_mem f l then Some v else obj_get f m0.
Proof.
  induction l as [|g l IH]; intros m0; [reflexivity|].
  cbn [fold_left]. rewrite IH, obj_get_set. unfold str_mem. simpl.
  fold (str_mem f l).
  destruct (str_mem f l); [rewrite orb_true_r; reflexivity|].
  rewrite orb_false_r. reflexivity.
Qed.

Lemma mark_fold_NoDup {A} (v : A) (l : list string) : forall m0,
  NoDup (obj_keys m0) ->
  NoDup (obj_keys (fold_left (fun proj g => obj_set g v proj) l m0)).
Proof.
  induction l as [|g l IH]; intros m0 Hnd; [exact Hnd|].
  cbn [fold_left]. apply IH. apply obj_set_NoDup. exact Hnd.
Qed.

Lemma buildProjection_get (include exclude : prop (list string)) f :
  obj_get f (buildProjection include exclude) =
  if str_mem f (with_default exclude []) then Some 0%Z
  else if str_mem f (with_default include []) then Some 1%Z
       else None.
Proof.
  unfold buildProjection. rewrite !mark_fold_get. reflexivity.
Qed.

Lemma buildProjection_NoDup (include exclude : prop (list string)) :
  NoDup (obj_keys (buildProjection include exclude)).
Proof.
  unfold buildProjection. apply mark_fold_NoDup, mark_fold_NoDup.
  constructor.
Qed.

Lemma buildProjection_keys (include exclude : prop (list string)) f :
  str_mem f (obj_keys (buildProjection include exclude)) =
  str_mem f (with_default include []) || str_mem f (with_default exclude []).
Proof.
  assert (H : str_mem f (obj_keys (buildProjection include exclude)) =
              obj_has f (buildProjection include exclude)).
  { destruct (obj_has f (buildProjection include exclude)) eqn:Hh.
    - apply str_mem_In, obj_has_In. exact Hh.
    - destruct (str_mem f (obj_keys (buildProjection include exclude)))
        eqn:Hm; [|reflexivity].
      apply str_mem_In, obj_has_In in Hm. congruence. }
  rewrite H. unfold obj_has. rewrite buildProjection_get.
  destruct (str_mem f (with_default exclude [])),
           (str_mem f (with_default include [])); reflexivity.
Qed.

Lemma includeMode_iff (include exclude : prop (list string)) :
  existsb (fun v => (v =? 1)%Z)
          (map snd (buildProjection include exclude)) =
  existsb (fun f => negb (str_mem f (with_default exclude [])))
          (with_default include []).
Proof.
  apply eq_true_iff_eq. rewrite !existsb_exists. split.
  - intros [v [Hin Hv]]. apply Z.eqb_eq in Hv. subst v.
    apply in_map_iff in Hin. destruct Hin as [[f v] [Hv Hin]].
    simpl in Hv. subst v.
    apply (obj_get_NoDup f 1%Z _ (buildProjection_NoDup include exclude))
      in Hin.
    rewrite buildProjection_get in Hin.
    destruct (str_mem f (with_default exclude [])) eqn:He; [discriminate|].
    destruct (str_mem f (with_default include [])) eqn:Hi; [|discriminate].
    exists f. split; [apply str_mem_In; exact Hi|].
    rewrite He. reflexivity.
  - intros [f [Hin Hf]]. apply negb_true_iff in Hf.
    exists 1%Z. split; [|reflexivity].
    apply in_map_iff. exists (f, 1%Z). split; [reflexivity|].
    apply obj_get_In. rewrite buildProjection_get, Hf.
    apply str_mem_In in Hin. rewrite Hin. reflexivity.
Qed.

Lemma project_include_fold (projection : Obj Z) (it : Obj JsVal) g
      (K : list string) : forall out0,
  obj_get g
    (fold_left
       (fun out f =>
          match obj_get f projection with
          | Some 1%Z => obj_set f (js_get f it) out
          | _ => out
          end) K out0) =
  if str_mem g K &&
     match obj_get g projection with Some 1%Z => true | _ => false end
  then Some (js_get g it)
  else obj_get g out0.
Proof.
  induction K as [|f K IH]; intros out0; [reflexivity|].
  cbn [fold_left]. rewrite IH. unfold str_mem. simpl. fold (str_mem g K).
  destruct (String.eqb_spec g f) as [->|Hne].
  - simpl.
    destruct (obj_get f projection) as [[|[| |]|]|]; simpl;
      try rewrite andb_false_r; try reflexivity.
    rewrite obj_get_set_same. destruct (str_mem f K); reflexivity.
  - simpl.
    destruct (str_mem g K &&
              match obj_get g projection with
              | Some 1%Z => true | _ => false end); [reflexivity|].
    destruct (obj_get f projection) as [[|[| |]|]|]; try reflexivity.
    apply obj_get_set_other. congruence.
Qed.

Lemma obj_delete_NoDup {A} k (m : Obj A) :
  NoDup (obj_keys m) -> NoDup (obj_keys (obj_delete k m)).
Proof.
  induction m as [|[k1 v1] m IH]; intros Hnd; [constructor|].
  inversion Hnd as [|? ? Hnot Hnd']; subst. simpl.
  destruct (String.eqb k k1); [exact Hnd'|].
  simpl. constructor; [|apply IH; exact Hnd'].
  intros Hin. apply Hnot. clear -Hin.
  induction m as [|[k2 v2] m IHm]; simpl in *; [exact Hin|].
  destruct (String.eqb k k2); simpl in *; tauto.
Qed.

Lemma obj_get_delete {A} k g (m : Obj A) :
  NoDup (obj_keys m) ->
  obj_get g (obj_delete k m) =
  if String.eqb g k then None else obj_get g m.
Proof.
  induction m as [|[k1 v1] m IH]; intros Hnd.
  - simpl. destruct (String.eqb g k); reflexivity.
  - inversion Hnd as [|? ? Hnot Hnd']; subst. simpl.
    destruct (String.eqb_spec k k1) as [->|Hne].
    + destruct (String.eqb_spec g k1) as [->|Hg]; [|reflexivity].
      destruct (obj_get k1 m) eqn:Hget; [|reflexivity].
      exfalso. apply Hnot. apply obj_get_In in Hget.
      apply (in_map fst) in Hget. exact Hget.
    + simpl. rewrite (IH Hnd').
      destruct (String.eqb_spec g k1) as [->|Hg]; [|reflexivity].
      destruct (String.eqb_spec k1 k); [congruence|reflexivity].
Qed.

Lemma project_exclude_fold (projection : Obj Z) g (K : list string) :
  forall out0 : Obj JsVal,
  NoDup (obj_keys out0) ->
  obj_get g
    (fold_left
       (fun out f =>
          match obj_get f projection with
          | Some 0%Z => obj_delete f out
          | _ => out
          end) K out0) =
  if str_mem g K &&
     match obj_get g projection with Some 0%Z => true | _ => false end
  then None
  else obj_get g out0.
Proof.
  induction K as [|f K IH]; intros out0 Hnd; [reflexivity|].
  cbn [fold_left]. unfold str_mem. simpl. fold (str_mem g K).
  destruct (obj_get f projection) as [[|p|p]|] eqn:Hf.
  - rewrite (IH _ (obj_delete_NoDup f out0 Hnd)).
    rewrite (obj_get_delete f g out0 Hnd).
    destruct (String.eqb_spec g f) as [->|Hne].
    + rewrite Hf. simpl.
      destruct (str_mem f K); reflexivity.
    + reflexivity.
  - rewrite (IH _ Hnd).
    destruct (String.eqb_spec g f) as [->|Hne]; [|reflexivity].
    rewrite Hf. simpl. rewrite andb_false_r. reflexivity.
  - rewrite (IH _ Hnd).
    destruct (String.eqb_spec g f) as [->|Hne]; [|reflexivity].
    rewrite Hf. simpl. rewrite andb_false_r. reflexivity.
  - rewrite (IH _ Hnd).
    destruct (String.eqb_spec g f) as [->|Hne]; [|reflexivity].
    rewrite Hf. simpl. rewrite andb_false_r. reflexivity.
Qed.

(** X24: a projection built by [buildProjection] and applied by
    [applyProjectionToArray] keeps the length of the array.  When some
    included field is not excluded, each result has exactly the included
    fields that are not excluded, each with the item's value for it
    (undefined when the item has none); otherwise, also when every
    included field is excluded, each result is the item without the
    excluded fields.  (Field names that are plain.) *)
Theorem applyProjectionToArray_of_buildProjection
        (include exclude : prop (list string)) (items : list (Obj JsVal)) :
  let inc := with_default include [] in
  let exc := with_default exclude [] in
  let out := applyProjectionToArray items (buildProjection include exclude) in
  forallb plain_name (inc ++ exc) = true ->
  Forall (fun it => NoDup (obj_keys it)) items ->
  List.length out = List.length items /\
  forall i it,
    nth_error items i = Some it ->
    exists o,
      nth_error out i = Some o /\
      forall g,
        obj_get g o =
        if existsb (fun f => negb (str_mem f exc)) inc
        then if str_mem g inc && negb (str_mem g exc)
             then Some (js_get g it) else None
        else if str_mem g exc then None else obj_get g it.
Proof.
  intros inc exc out _ Hitems. subst out. unfold applyProjectionToArray.
  destruct (obj_keys (buildProjection include exclude)) as [|k0 K0] eqn:HK.
  - assert (Hnone : forall f, str_mem f inc || str_mem f exc = false).
    { intros f. subst inc exc. rewrite <- buildProjection_keys, HK.
      reflexivity. }
    split; [apply length_map|].
    intros i it Hi. exists it. split.
    + rewrite nth_error_map, Hi. reflexivity.
    + intros g.
      assert (Hex : existsb (fun f => negb (str_mem f exc)) inc = false).
      { destruct (existsb (fun f => negb (str_mem f exc)) inc) eqn:E;
          [|reflexivity].
        apply existsb_exists in E. destruct E as [f [Hin _]].
        apply str_mem_In in Hin. specialize (Hnone f).
        rewrite Hin in Hnone. discriminate. }
      rewrite Hex. specialize (Hnone g).
      apply orb_false_iff in Hnone. destruct Hnone as [_ ->]. reflexivity.
  - split; [apply length_map|].
    intros i it Hi.
    rewrite nth_error_map, Hi. cbn [option_map].
    eexists. split; [reflexivity|].
    intros g. rewrite includeMode_iff. fold inc exc.
    destruct (existsb (fun f => negb (str_mem f exc)) inc).
    + unfold project_include. rewrite project_include_fold.
      rewrite buildProjection_keys, buildProjection_get. fold inc exc.
      destruct (str_mem g exc), (str_mem g inc); reflexivity.
    + unfold project_exclude. rewrite project_exclude_fold.
      * rewrite buildProjection_keys, buildProjection_get. fold inc exc.
        destruct (str_mem g exc), (str_mem g inc); reflexivity.
      * rewrite Forall_forall in Hitems. apply Hitems.
        apply (nth_error_In _ _ Hi).
Qed.

Lemma applyProjectionToArray_of_buildProjection_witness :
  applyProjectionToArray
    [[("name", JString "Ann"); ("age", JNumber (Num 30))]]
    (buildProjection (Val ["name"]) (Val ["name"]))
  = [[("age", JNumber (Num 30))]] /\
  exists o,
    nth_error
      (applyProjectionToArray
         [[("name", JString "Ann"); ("age", JNumber (Num 30))]]
         (buildProjection (Val ["name"; "email"]) Absent)) 0
    = Some o /\
    obj_get "email" o = Some JUndefined /\ obj_get "age" o = None.
Proof.
  split; [reflexivity|].
  assert (Hnd : Forall (fun it : Obj JsVal => NoDup (obj_keys it))
                  [[("name", JString "Ann"); ("age", JNumber (Num 30))]]).
  { repeat constructor; simpl; intuition discriminate. }
  destruct (applyProjectionToArray_of_buildProjection
              (Val ["name"; "email"]) Absent _ eq_refl Hnd) as [_ H].
  destruct (H 0%nat _ eq_refl) as [o [Ho Hget]].
  exists o. split; [exact Ho|].
  rewrite !Hget. split; reflexivity.
Defined.

(** ** Override engine: [flatten] records every leaf *)

Lemma is_leaf_false c :
  is_leaf c = false ->
  type_is (type c) TObject = true /\ exists m, children c = Val m.
Proof.
  unfold is_leaf. intros H. apply negb_false_iff in H.
  apply andb_true_iff in H. destruct H as [Ht Hc]. split; [exact Ht|].
  destruct (children c) as [| |m]; try discriminate. exists m. reflexivity.
Qed.

Lemma located_leaf_at parts : forall root r,
  parts <> [] ->
  rule_at_parts parts root = Some r ->
  is_leaf r = true ->
  (forall pre rest,
      parts = pre ++ rest -> pre <> [] -> rest <> [] ->
      exists n, rule_at_parts pre root = Some n /\ is_leaf n = false) ->
  leaf_at parts root r.
Proof.
  induction parts as [|k rest IH]; intros root r Hne Hat Hleaf Hpre;
    [congruence|].
  destruct rest as [|k' rest'].
  - simpl in Hat. exists r. split; [exact Hat|]. split; [reflexivity|].
    exact Hleaf.
  - rewrite rule_at_parts_cons in Hat.
    destruct (obj_get k root) as [c|] eqn:Hk; [|discriminate].
    destruct (children c) as [| |m] eqn:Hc; try discriminate.
    exists c. split; [exact Hk|].
    destruct (Hpre [k] (k' :: rest') eq_refl) as [n [Hn Hn']];
      try discriminate.
    simpl in Hn. rewrite Hk in Hn. injection Hn as <-.
    split; [exact Hn'|]. exists m. split; [exact Hc|].
    apply IH; [discriminate|exact Hat|exact Hleaf|].
    intros pre rest Heq Hp Hr.
    destruct (Hpre (k :: pre) rest) as [n [Hn Hn2]];
      [simpl; rewrite Heq; reflexivity|discriminate|exact Hr|].
    exists n. split; [|exact Hn2].
    rewrite rule_at_parts_cons, Hk, Hc in Hn.
    destruct pre; [congruence|exact Hn].
Qed.

Lemma flatten_entry_frame child : forall path out q,
  wf_rule child ->
  path <> EmptyString ->
  (forall rest, split_dot q <> split_dot path ++ rest) ->
  obj_get q (flatten_entry child path out) = obj_get q out.
Proof.
  induction child as [t req minL maxL pat en mn mx its minI maxI ch _ IH]
    using Rule_nested_ind.
  intros path out q Hwf Hpath Hq.
  assert (Hset : obj_get q (obj_set path
                   (mkRule t req minL maxL pat en mn mx its minI maxI ch)
                   out) = obj_get q out).
  { apply obj_get_set_other. intros ->.
    apply (Hq []). rewrite app_nil_r. reflexivity. }
  cbn [flatten_entry].
  destruct (type_is t TObject) eqn:Ht; [|exact Hset].
  destruct ch as [| |m]; try exact Hset.
  destruct (wf_rule_children _ _ _ _ _ _ _ _ _ _ _ _ Hwf Ht)
    as [[Hnd Hgood] Hall].
  specialize (IH m eq_refl).
  match goal with
  | |- obj_get q (?loop m out) = _ =>
      assert (Hloop : forall l out',
                 (forall e, In e l -> In e m) ->
                 obj_get q (loop l out') = obj_get q out');
        [|apply Hloop; auto]
  end.
  intros l. induction l as [|[k c] l IHl]; intros out' Hsub; [reflexivity|].
  rewrite IHl by (intros e He; apply Hsub; right; exact He).
  assert (Hin : In (k, c) m) by (apply Hsub; left; reflexivity).
  assert (Hk : good_key k = true).
  { apply Hgood. apply (in_map fst) in Hin. exact Hin. }
  apply andb_true_iff in Hk. destruct Hk as [Hk1 Hk2].
  apply negb_true_iff in Hk1, Hk2. apply String.eqb_neq in Hk1.
  rewrite Forall_forall in IH, Hall.
  apply (IH (k, c) Hin).
  - apply (Hall (k, c) Hin).
  - apply join_path_nonempty. exact Hk1.
  - intros rest. rewrite (join_path_split path k Hpath Hk2), <- app_assoc.
    apply Hq.
Qed.

Lemma flatten_entry_complete child : forall path out rest r q,
  wf_rule child ->
  path <> EmptyString ->
  split_dot q = split_dot path ++ rest ->
  match rest with
  | [] => child = r /\ is_leaf r = true
  | _ :: _ =>
      is_leaf child = false /\
      exists m, children child = Val m /\ leaf_at rest m r
  end ->
  obj_get q (flatten_entry child path out) = Some r.
Proof.
  induction child as [t req minL maxL pat en mn mx its minI maxI ch _ IH]
    using Rule_nested_ind.
  intros path out rest r q Hwf Hpath Hq Hbelow.
  destruct rest as [|k rest'].
  - destruct Hbelow as [<- Hleaf].
    rewrite app_nil_r in Hq. apply split_dot_inj in Hq. subst q.
    unfold is_leaf in Hleaf. cbn [type children] in Hleaf.
    cbn [flatten_entry].
    destruct (type_is t TObject); [|apply obj_get_set_same].
    destruct ch; try apply obj_get_set_same. discriminate Hleaf.
  - destruct Hbelow as [Hexp [m [Hm Hat]]].
    apply is_leaf_false in Hexp. cbn [type children] in Hexp, Hm.
    destruct Hexp as [Ht _]. subst ch.
    destruct (wf_rule_children _ _ _ _ _ _ _ _ _ _ _ _ Hwf Ht)
      as [[Hnd Hgood] Hall].
    specialize (IH m eq_refl).
    cbn [flatten_entry]. rewrite Ht.
    cbn [leaf_at] in Hat. destruct Hat as [c [Hk Hc]].
    assert (Hkc : In (k, c) m) by (apply obj_get_In; exact Hk).
    match goal with
    | |- obj_get q (?loop m out) = _ =>
        assert (Hloop : forall l out',
                   (forall e, In e l -> In e m) ->
                   NoDup (map fst l) ->
                   (In (k, c) l -> obj_get q (loop l out') = Some r) /\
                   (~ In k (map fst l) ->
                    obj_get q (loop l out') = obj_get q out'));
          [|apply (Hloop m out); auto]
    end.
    intros l. induction l as [|[k1 c1] l IHl]; intros out' Hsub Hndl.
    { split; [intros []|reflexivity]. }
    inversion Hndl as [|? ? Hk1 Hndl']; subst.
    assert (Hsub' : forall e, In e l -> In e m)
      by (intros e He; apply Hsub; right; exact He).
    assert (Hin1 : In (k1, c1) m) by (apply Hsub; left; reflexivity).
    assert (Hg1 : good_key k1 = true).
    { apply Hgood. apply (in_map fst) in Hin1. exact Hin1. }
    apply andb_true_iff in Hg1. destruct Hg1 as [Hg1 Hg2].
    apply negb_true_iff in Hg1, Hg2. apply String.eqb_neq in Hg1.
    rewrite Forall_forall in IH, Hall.
    split.
    + intros [Heq|Hin].
      * injection Heq as -> ->.
        rewrite (proj2 (IHl (flatten_entry c (join_path path k) out')
                          Hsub' Hndl') Hk1).
        apply (IH (k, c) Hin1 (join_path path k) out' rest' r q).
        -- apply (Hall (k, c) Hin1).
        -- apply join_path_nonempty. exact Hg1.
        -- rewrite (join_path_split path k Hpath Hg2), <- app_assoc.
           exact Hq.
        -- exact Hc.
      * apply (proj1 (IHl _ Hsub' Hndl') Hin).
    + intros Hnot.
      rewrite (proj2 (IHl _ Hsub' Hndl'))
        by (intros H; apply Hnot; right; exact H).
      apply flatten_entry_frame.
      * apply (Hall (k1, c1) Hin1).
      * apply join_path_nonempty. exact Hg1.
      * intros rest.
        rewrite (join_path_split path k1 Hpath Hg2), <- app_assoc, Hq.
        intros Heq. apply app_inv_head in Heq. injection Heq as Heq _.
        apply Hnot. left. simpl. congruence.
Qed.

Lemma flatten_entries_complete (root : Obj Rule) parts r q :
  wf_children root ->
  Forall (fun e => wf_rule (snd e)) root ->
  leaf_at parts root r ->
  split_dot q = parts ->
  obj_get q (flatten_entries root EmptyString []) = Some r.
Proof.
  intros [Hnd Hgood] Hall Hat Hq.
  destruct parts as [|k rest]; [destruct Hat|].
  cbn [leaf_at] in Hat. destruct Hat as [c [Hk Hc]].
  assert (Hkc : In (k, c) root) by (apply obj_get_In; exact Hk).
  assert (Hloop : forall l out',
             (forall e, In e l -> In e root) ->
             NoDup (map fst l) ->
             (In (k, c) l ->
              obj_get q (flatten_entries l EmptyString out') = Some r) /\
             (~ In k (map fst l) ->
              obj_get q (flatten_entries l EmptyString out')
              = obj_get q out')).
  { intros l. induction l as [|[k1 c1] l IHl]; intros out' Hsub Hndl.
    { split; [intros []|reflexivity]. }
    inversion Hndl as [|? ? Hk1 Hndl']; subst.
    assert (Hsub' : forall e, In e l -> In e root)
      by (intros e He; apply Hsub; right; exact He).
    assert (Hin1 : In (k1, c1) root) by (apply Hsub; left; reflexivity).
    assert (Hg1 : good_key k1 = true).
    { apply Hgood. apply (in_map fst) in Hin1. exact Hin1. }
    apply andb_true_iff in Hg1. destruct Hg1 as [Hg1 Hg2].
    apply negb_true_iff in Hg1, Hg2. apply String.eqb_neq in Hg1.
    rewrite Forall_forall in Hall.
    cbn [flatten_entries]. change (join_path EmptyString k1) with k1.
    split.
    + intros [Heq|Hin].
      * injection Heq as -> ->.
        rewrite (proj2 (IHl (flatten_entry c k out') Hsub' Hndl') Hk1).
        apply (flatten_entry_complete c k out' rest r q).
        -- apply (Hall (k, c) Hin1).
        -- exact Hg1.
        -- rewrite (split_dot_good k Hg2). exact Hq.
        -- exact Hc.
      * apply (proj1 (IHl _ Hsub' Hndl') Hin).
    + intros Hnot.
      rewrite (proj2 (IHl _ Hsub' Hndl'))
        by (intros H; apply Hnot; right; exact H).
      apply flatten_entry_frame.
      * apply (Hall (k1, c1) Hin1).
      * exact Hg1.
      * intros rest'. rewrite (split_dot_good k1 Hg2), Hq.
        intros Heq. injection Heq as Heq _.
        apply Hnot. left. simpl. congruence. }
  apply (Hloop root []); auto.
Qed.

Lemma flatten_located_iff (ruleTree : RuleTree) (m : Obj Rule) p r :
  rt_children ruleTree = Val m ->
  wf_tree ruleTree ->
  (obj_get p (flatten ruleTree) = Some r <-> located m p r).
Proof.
  intros Hm Hwf. split.
  - apply (flatten_all_located ruleTree m Hm Hwf).
  - intros [Hat [Hleaf Hpre]].
    unfold wf_tree in Hwf. rewrite Hm in Hwf. destruct Hwf as [Hch Hall].
    unfold flatten. rewrite Hm.
    apply (flatten_entries_complete m (split_dot p) r p Hch Hall);
      [|reflexivity].
    apply located_leaf_at; try assumption. apply split_dot_nonempty.
Qed.

(** X25: [flatten] records exactly the leaves.  In a tree whose expanded
    children maps have distinct, non-empty, dot-free keys, the flattened
    map holds a rule at a dotted path exactly when the tree holds that
    rule at the path, the rule is a leaf, and every node above it on the
    path is an object node with children. *)
Theorem flatten_exact (ruleTree : RuleTree) (p : string) (r : Rule) :
  wf_tree ruleTree ->
  plain_paths (obj_keys (flatten ruleTree)) = true ->
  (obj_get p (flatten ruleTree) = Some r <->
   rule_at p ruleTree = Some r /\
   is_leaf r = true /\
   forall pre rest,
     split_dot p = pre ++ rest -> pre <> [] -> rest <> [] ->
     exists n, is_leaf n = false /\
               match rt_children ruleTree with
               | Val m => rule_at_parts pre m = Some n
               | _ => False
               end).
Proof.
  intros Hwf _.
  destruct (rt_children ruleTree) as [| |m] eqn:Hm.
  - unfold flatten, rule_at. rewrite Hm. simpl.
    split; [discriminate|]. intros [H _]. discriminate H.
  - unfold flatten, rule_at. rewrite Hm. simpl.
    split; [discriminate|]. intros [H _]. discriminate H.
  - rewrite (flatten_located_iff ruleTree m p r Hm Hwf).
    unfold located, rule_at. rewrite Hm. split.
    + intros [H1 [H2 H3]]. split; [exact H1|]. split; [exact H2|].
      intros pre rest Heq Hp Hr.
      destruct (H3 pre rest Heq Hp Hr) as [n [Hn Hn']].
      exists n. split; assumption.
    + intros [H1 [H2 H3]]. split; [exact H1|]. split; [exact H2|].
      intros pre rest Heq Hp Hr.
      destruct (H3 pre rest Heq Hp Hr) as [n [Hn Hn']].
      exists n. split; assumption.
Qed.

Lemma flatten_exact_witness :
  obj_get "address.city" (flatten address_tree)
  = Some (set_required (Val true) (rule_of_type TString)) /\
  obj_get "address" (flatten address_tree) = None.
Proof.
  assert (Hwf : wf_tree address_tree).
  { split.
    - split.
      + repeat constructor; simpl; intuition discriminate.
      + intros k [<-|[]]; reflexivity.
    - repeat constructor; simpl; try (intuition discriminate).
      intros k [<-|[]]; reflexivity. }
  split.
  - apply (proj2 (flatten_exact address_tree "address.city" _ Hwf eq_refl)).
    split; [reflexivity|]. split; [reflexivity|].
    intros pre rest Heq Hp Hr.
    change (split_dot "address.city") with ["address"; "city"] in Heq.
    destruct pre as [|a [|b pre]]; [congruence| |].
    + injection Heq as <- _. eexists. split; [|reflexivity]. reflexivity.
    + injection Heq as _ _ Heq.
      destruct pre; destruct rest; simpl in Heq; congruence.
  - destruct (obj_get "address" (flatten address_tree)) as [r|] eqn:H;
      [|reflexivity].
    apply (proj1 (flatten_exact address_tree "address" r Hwf eq_refl)) in H.
    destruct H as [H1 [H2 _]]. vm_compute in H1. injection H1 as <-.
    discriminate H2.
Defined.

(** ** Override engine: the returned tree flattens back to the effective
       map *)

Lemma wf_rule_leaf r : is_leaf r = true -> wf_rule r.
Proof.
  destruct r as [t req minL maxL pat en mn mx its minI maxI ch].
  unfold is_leaf. cbn [type children wf_rule]. intros H.
  destruct (type_is t TObject); [|exact I].
  destruct ch; try exact I. discriminate H.
Qed.

Lemma wf_rule_set_children child m :
  (type_is (type child) TObject = true ->
   wf_children m /\ Forall (fun e => wf_rule (snd e)) m) ->
  wf_rule (set_children (Val m) child).
Proof.
  intros H. unfold set_children. cbn [wf_rule].
  destruct (type_is (type child) TObject); [|exact I].
  destruct (H eq_refl) as [Hm Hall]. split; [exact Hm|].
  clear H Hm. induction Hall as [|e l He Hl IH]; [exact I|].
  split; assumption.
Qed.

Lemma wf_rule_children_of child m :
  wf_rule child -> children child = Val m ->
  type_is (type child) TObject = true ->
  wf_children m /\ Forall (fun e => wf_rule (snd e)) m.
Proof.
  destruct child as [t req minL maxL pat en mn mx its minI maxI ch].
  cbn [children type]. intros Hwf -> Ht.
  apply (wf_rule_children _ _ _ _ _ _ _ _ _ _ _ _ Hwf Ht).
Qed.

Lemma obj_set_wf k (v : Rule) m :
  good_key k = true -> wf_rule v ->
  wf_children m -> Forall (fun e => wf_rule (snd e)) m ->
  wf_children (obj_set k v m) /\
  Forall (fun e => wf_rule (snd e)) (obj_set k v m).
Proof.
  intros Hk Hv [Hnd Hgood] Hall. split; [split|].
  - apply obj_set_NoDup. exact Hnd.
  - intros k' Hk'. apply obj_has_In in Hk'. rewrite obj_has_set in Hk'.
    destruct (String.eqb_spec k' k) as [Heq|Hne]; [rewrite Heq; exact Hk|].
    apply Hgood. apply obj_has_In. exact Hk'.
  - rewrite Forall_forall in *. intros [k' v'] Hin.
    destruct (obj_set_In _ _ _ _ _ Hin) as [Heq|Hm].
    + injection Heq as -> ->. exact Hv.
    + apply (Hall _ Hm).
Qed.

Lemma attach_parts_wf parts : forall rule ch ch',
  forallb good_key parts = true ->
  wf_rule rule ->
  wf_children ch -> Forall (fun e => wf_rule (snd e)) ch ->
  attach_parts parts rule ch = Some ch' ->
  wf_children ch' /\ Forall (fun e => wf_rule (snd e)) ch'.
Proof.
  induction parts as [|seg rest IH]; intros rule ch ch' Hgood Hrule Hch Hall H.
  - simpl in H. injection H as <-. split; assumption.
  - simpl in Hgood. apply andb_true_iff in Hgood.
    destruct Hgood as [Hseg Hrest].
    destruct rest as [|seg' rest'].
    + simpl in H. injection H as <-. apply obj_set_wf; assumption.
    + rewrite attach_parts_cons in H by discriminate. cbv zeta in H.
      destruct (children _) as [| |m] eqn:Hm; try discriminate.
      destruct (attach_parts (seg' :: rest') rule m) as [m'|] eqn:Hatt;
        [|discriminate].
      injection H as <-.
      apply obj_set_wf; try assumption.
      apply wf_rule_set_children. intros Ht.
      apply (IH rule m m' Hrest Hrule); [| |exact Hatt].
      * destruct (obj_get seg ch) as [c|] eqn:Hc.
        -- rewrite Forall_forall in Hall.
           apply (wf_rule_children_of c m (Hall _ (obj_get_In _ _ _ Hc))
                    Hm Ht).
        -- simpl in Hm. injection Hm as <-.
           split; [constructor|intros k []].
      * destruct (obj_get seg ch) as [c|] eqn:Hc.
        -- rewrite Forall_forall in Hall.
           apply (wf_rule_children_of c m (Hall _ (obj_get_In _ _ _ Hc))
                    Hm Ht).
        -- simpl in Hm. injection Hm as <-. constructor.
Qed.

Lemma rebuild_wf es : forall ch ch',
  flat_map es = true ->
  wf_children ch -> Forall (fun e => wf_rule (snd e)) ch ->
  rebuild es ch = Some ch' ->
  wf_children ch' /\ Forall (fun e => wf_rule (snd e)) ch'.
Proof.
  induction es as [|[p r] es IH]; intros ch ch' Hflat Hch Hall H.
  - simpl in H. injection H as <-. split; assumption.
  - simpl in Hflat, H. apply andb_true_iff in Hflat.
    destruct Hflat as [Hpr Hflat]. apply andb_true_iff in Hpr.
    destruct Hpr as [Hp Hr].
    destruct (attach_parts (split_dot p) r ch) as [ch1|] eqn:Hatt;
      [|discriminate].
    destruct (attach_parts_wf _ _ _ _ Hp (wf_rule_leaf r Hr) Hch Hall Hatt)
      as [Hch1 Hall1].
    apply (IH ch1 ch' Hflat Hch1 Hall1 H).
Qed.

Lemma bare_not_leaf n : bare n -> is_leaf n = false.
Proof.
  intros [Hn Hc]. unfold is_leaf. rewrite Hn at 1. cbn [type set_children].
  rewrite Hc. reflexivity.
Qed.

Lemma flat_map_get es p r :
  flat_map es = true -> obj_get p es = Some r ->
  good_path p = true /\ is_leaf r = true.
Proof.
  intros Hflat Hget. unfold flat_map in Hflat.
  rewrite forallb_forall in Hflat.
  specialize (Hflat (p, r) (obj_get_In _ _ _ Hget)).
  apply andb_true_iff in Hflat. exact Hflat.
Qed.

Lemma rebuilt_located es ch p r :
  NoDup (obj_keys es) -> prefix_free es -> flat_map es = true ->
  rebuild es [] = Some ch ->
  obj_get p es = Some r ->
  located ch p r.
Proof.
  intros Hnd Hfree Hflat Hre Hget.
  assert (Hin : In p (obj_keys es)).
  { apply obj_has_In. unfold obj_has. rewrite Hget. reflexivity. }
  split; [|split].
  - apply (rebuild_finds es [] ch p r Hnd (obj_get_In _ _ _ Hget));
      [|exact Hre].
    apply Hfree. exact Hin.
  - apply (flat_map_get es p r Hflat Hget).
  - intros pre rest Heq Hpre Hrest.
    destruct (rebuild_inner pre es [] ch p rest Hpre) as [n [Hn Hb]];
      try assumption.
    + apply (inner_keys_condition es p pre rest (Hfree p Hin) Heq Hrest).
    + intros n Hn. rewrite rule_at_parts_empty in Hn. discriminate.
    + exists n. split; [exact Hn|apply bare_not_leaf; exact Hb].
Qed.

Lemma located_rebuilt es ch p r :
  NoDup (obj_keys es) -> prefix_free es -> flat_map es = true ->
  rebuild es [] = Some ch ->
  located ch p r ->
  obj_get p es = Some r.
Proof.
  intros Hnd Hfree Hflat Hre [Hat [Hleaf Hpre]].
  destruct (obj_get p es) as [r0|] eqn:Hget.
  - destruct (rebuilt_located es ch p r0 Hnd Hfree Hflat Hre Hget)
      as [Hat0 _].
    congruence.
  - exfalso.
    destruct (forallb (fun q => diverge (split_dot q) (split_dot p))
                      (obj_keys es)) eqn:Hall.
    + rewrite forallb_forall in Hall.
      rewrite (rebuild_other es [] ch p Hre Hall), rule_at_parts_empty in Hat.
      discriminate.
    + assert (Hex : exists q, In q (obj_keys es) /\
                              diverge (split_dot q) (split_dot p) = false).
      { clear -Hall. induction (obj_keys es) as [|q l IH];
          [discriminate|].
        simpl in Hall. apply andb_false_iff in Hall.
        destruct Hall as [H|H].
        - exists q. split; [left; reflexivity|exact H].
        - destruct (IH H) as [q' [Hq' Hd]]. exists q'.
          split; [right; exact Hq'|exact Hd]. }
      destruct Hex as [q [Hq Hd]].
      assert (Hqget : exists rq, obj_get q es = Some rq).
      { apply obj_has_In in Hq. unfold obj_has in Hq.
        destruct (obj_get q es) as [rq|]; [|discriminate].
        exists rq. reflexivity. }
      destruct Hqget as [rq Hrq].
      destruct (rebuilt_located es ch q rq Hnd Hfree Hflat Hre Hrq)
        as [Hatq [Hleafq Hpreq]].
      destruct (diverge_or_prefix (split_dot q) (split_dot p))
        as [H|[[rest H]|[rest H]]]; [congruence| |].
      * destruct rest as [|x rest].
        -- rewrite app_nil_r in H. apply split_dot_inj in H. subst q.
           congruence.
        -- destruct (Hpre _ _ H (split_dot_nonempty q)) as [n [Hn Hn']];
             [discriminate|].
           rewrite Hatq in Hn. injection Hn as <-. congruence.
      * destruct rest as [|x rest].
        -- rewrite app_nil_r in H. apply split_dot_inj in H. subst q.
           congruence.
        -- destruct (Hpreq _ _ H (split_dot_nonempty p)) as [n [Hn Hn']];
             [discriminate|].
           rewrite Hat in Hn. injection Hn as <-. congruence.
Qed.

Lemma flatten_rebuilt (ruleTree : RuleTree) (o : Overrides)
      (tree : RuleTree) :
  applyOverrides ruleTree o = Some tree ->
  prefix_free (effective_all ruleTree o) ->
  flat_map (effective_all ruleTree o) = true ->
  forall p, obj_get p (flatten tree) = obj_get p (effective_all ruleTree o).
Proof.
  intros Happ Hfree Hflat p.
  destruct (applyOverrides_children _ _ _ Happ) as [ch [Hre ->]].
  pose proof (effective_all_NoDup ruleTree o) as Hnd.
  assert (Hwf : wf_tree (mkRuleTree (Val ch) Absent)).
  { unfold wf_tree. cbn [rt_children].
    apply (rebuild_wf _ [] ch Hflat); [split; [constructor|intros k []]
                                      |constructor|exact Hre]. }
  destruct (obj_get p (effective_all ruleTree o)) as [r|] eqn:Hget.
  - apply (proj2 (flatten_located_iff (mkRuleTree (Val ch) Absent) ch p r
                    eq_refl Hwf)).
    apply (rebuilt_located _ ch p r Hnd Hfree Hflat Hre Hget).
  - destruct (obj_get p (flatten (mkRuleTree (Val ch) Absent)))
      as [r|] eqn:Hf; [|reflexivity].
    apply (proj1 (flatten_located_iff (mkRuleTree (Val ch) Absent) ch p r
                    eq_refl Hwf)) in Hf.
    rewrite (located_rebuilt _ ch p r Hnd Hfree Hflat Hre Hf) in Hget.
    discriminate.
Qed.

(** X26: the tree [applyOverrides] returns flattens back to its effective
    map.  When no effective path is a dotted prefix of another, the
    segments of the effective paths are field names, and the effective
    rules are leaves for [flatten], then [flatten] of the returned tree has
    exactly the entries of the effective map: nothing is lost in the
    rebuild and nothing is added.  (Paths of plain names.) *)
Theorem flatten_of_applyOverrides
        (ruleTree : RuleTree) (o : Overrides) (tree : RuleTree) :
  applyOverrides ruleTree o = Some tree ->
  plain_paths (candidate_paths ruleTree o) = true ->
  part_ways (candidate_paths ruleTree o) ->
  flat_map (effective_all ruleTree o) = true ->
  forall p, obj_get p (flatten tree) = obj_get p (effective_all ruleTree o).
Proof.
  intros Happ _ Hways Hflat.
  apply (flatten_rebuilt ruleTree o tree Happ
           (part_ways_prefix_free _ _ Hways) Hflat).
Qed.

Lemma flatten_of_applyOverrides_witness :
  exists tree,
    applyOverrides password_tree profile_overrides = Some tree /\
    obj_get "address.city" (flatten tree)
    = Some (set_required (Val true) (rule_of_type TString)) /\
    obj_get "address" (flatten tree) = None.
Proof.
  destruct (applyOverrides password_tree profile_overrides)
    as [tree|] eqn:Happ; [|vm_compute in Happ; discriminate Happ].
  exists tree. split; [reflexivity|].
  assert (Hways : part_ways (candidate_paths password_tree profile_overrides)).
  { part_ways_by_cases. }
  pose proof (flatten_of_applyOverrides password_tree profile_overrides tree
                Happ eq_refl Hways eq_refl) as H.
  rewrite !H. split; reflexivity.
Defined.


Lemma leaf_at_good parts : forall m r,
  wf_children m -> Forall (fun e => wf_rule (snd e)) m ->
  leaf_at parts m r ->
  forallb good_key parts = true.
Proof.
  induction parts as [|k rest IH]; intros m r Hm Hall Hat; [reflexivity|].
  cbn [leaf_at] in Hat. destruct Hat as [c [Hk Hc]].
  cbn [forallb]. apply andb_true_iff. split.
  - apply (proj2 Hm). apply obj_has_In. unfold obj_has. rewrite Hk.
    reflexivity.
  - destruct rest as [|k' rest']; [reflexivity|].
    destruct Hc as [Hexp [m' [Hm' Hat']]].
    rewrite Forall_forall in Hall.
    destruct (wf_rule_children_of c m' (Hall _ (obj_get_In _ _ _ Hk)) Hm'
                (proj1 (is_leaf_false c Hexp))) as [Hwm Hwall].
    apply (IH m' r Hwm Hwall Hat').
Qed.

Lemma forced_is_leaf o p r : is_leaf (forced o p r) = is_leaf r.
Proof.
  unfold forced.
  destruct (str_mem p (set_or_empty (required_paths o)));
    [reflexivity|].
  destruct (str_mem p (set_or_empty (optional o))); reflexivity.
Qed.

Lemma effective_without_append ruleTree o p :
  match append o with Val m => m | _ => [] end = [] ->
  obj_get p (effective_all ruleTree o) =
  if passes o p
  then match obj_get p (flatten ruleTree) with
       | Some base => Some (forced o p base)
       | None => None
       end
  else None.
Proof.
  intros Happend.
  assert (Hhas : obj_has p (effective_all ruleTree o) =
                 obj_has p (flatten ruleTree) && passes o p).
  { rewrite effective_all_has.
    destruct (append o) as [| |m]; simpl in Happend |- *;
      try subst m; apply orb_false_r. }
  assert (Heff : effective_all ruleTree o = effective_base ruleTree o).
  { unfold effective_all.
    destruct (append o) as [| |m]; simpl in Happend |- *;
      try subst m; reflexivity. }
  destruct (passes o p) eqn:Hpass.
  - destruct (obj_get p (flatten ruleTree)) as [base|] eqn:Hbase.
    + rewrite Heff. unfold effective_base.
      apply (select_fold_forced o p base (flatten ruleTree) []
               (flatten_NoDup ruleTree) Hpass Hbase).
    + unfold obj_has in Hhas. rewrite Hbase in Hhas. simpl in Hhas.
      destruct (obj_get p (effective_all ruleTree o));
        [discriminate|reflexivity].
  - rewrite andb_false_r in Hhas. unfold obj_has in Hhas.
    destruct (obj_get p (effective_all ruleTree o));
      [discriminate|reflexivity].
Qed.

Lemma flatten_keys_part_ways ruleTree o :
  wf_tree ruleTree ->
  match append o with Val m => m | _ => [] end = [] ->
  part_ways (candidate_paths ruleTree o).
Proof.
  intros Hwf Happend.
  assert (Hc : candidate_paths ruleTree o = obj_keys (flatten ruleTree)).
  { unfold candidate_paths.
    destruct (append o) as [| |m]; simpl in Happend |- *;
      try subst m; apply app_nil_r. }
  rewrite Hc. intros p q Hp Hq Hne.
  apply obj_has_In in Hp. unfold obj_has in Hp.
  destruct (obj_get p (flatten ruleTree)) as [r|] eqn:Hr; [|discriminate].
  rewrite diverge_sym.
  apply (proj2 (proj2 (flatten_entry_facts ruleTree p r Hwf Hr)) q Hq).
  congruence.
Qed.

Lemma effective_flat_map ruleTree o :
  wf_tree ruleTree ->
  match append o with Val m => m | _ => [] end = [] ->
  flat_map (effective_all ruleTree o) = true.
Proof.
  intros Hwf Happend. unfold flat_map. apply forallb_forall.
  intros [p r] Hin.
  apply (obj_get_NoDup p r _ (effective_all_NoDup ruleTree o)) in Hin.
  rewrite (effective_without_append ruleTree o p Happend) in Hin.
  destruct (passes o p); [|discriminate].
  destruct (obj_get p (flatten ruleTree)) as [base|] eqn:Hbase;
    [|discriminate].
  injection Hin as <-. cbn [fst snd].
  rewrite forced_is_leaf.
  destruct (rt_children ruleTree) as [| |m] eqn:Hm;
    try (unfold flatten in Hbase; rewrite Hm in Hbase; discriminate).
  pose proof (proj1 (flatten_located_iff ruleTree m p base Hm Hwf) Hbase)
    as [Hat [Hleaf Hpre]].
  rewrite Hleaf, andb_true_r.
  unfold wf_tree in Hwf. rewrite Hm in Hwf. destruct Hwf as [Hch Hall].
  apply (leaf_at_good (split_dot p) m base Hch Hall).
  apply located_leaf_at; try assumption. apply split_dot_nonempty.
Qed.

(** X27: flattening, filtering and forcing commute with the rebuild.  On
    a well-formed base tree and with overrides that append nothing,
    [applyOverrides] returns a tree whose flattened map is the flattened
    map of the base tree, restricted to the paths that pass the
    include/exclude filter, with [required] forced as the overrides
    direct; with no overrides at all the two flattened maps have the same
    entries.  (Paths of plain names.) *)
Theorem flatten_applyOverrides_without_append
        (ruleTree : RuleTree) (o : Overrides) :
  wf_tree ruleTree ->
  plain_paths (obj_keys (flatten ruleTree)) = true ->
  match append o with Val m => m | _ => [] end = [] ->
  exists tree,
    applyOverrides ruleTree o = Some tree /\
    forall p,
      obj_get p (flatten tree) =
      if passes o p
      then match obj_get p (flatten ruleTree) with
           | Some base => Some (forced o p base)
           | None => None
           end
      else None.
Proof.
  intros Hwf _ Happend.
  pose proof (flatten_keys_part_ways ruleTree o Hwf Happend) as Hways.
  destruct (applyOverrides_total ruleTree o Hways) as [tree [Htree _]].
  exists tree. split; [exact Htree|].
  intros p.
  rewrite (flatten_rebuilt ruleTree o tree Htree
             (part_ways_prefix_free _ _ Hways)
             (effective_flat_map ruleTree o Hwf Happend)).
  apply effective_without_append. exact Happend.
Qed.

Lemma flatten_applyOverrides_without_append_witness :
  exists tree,
    applyOverrides address_tree no_overrides = Some tree /\
    tree <> address_tree /\
    forall p, obj_get p (flatten tree) = obj_get p (flatten address_tree).
Proof.
  assert (Hwf : wf_tree address_tree).
  { split.
    - split.
      + repeat constructor; simpl; intuition discriminate.
      + intros k [<-|[]]; reflexivity.
    - repeat constructor; simpl; try (intuition discriminate).
      intros k [<-|[]]; reflexivity. }
  destruct (flatten_applyOverrides_without_append address_tree no_overrides
              Hwf eq_refl eq_refl) as [tree [Htree Hall]].
  exists tree. split; [exact Htree|]. split.
  - vm_compute in Htree. injection Htree as <-. discriminate.
  - intros p. rewrite Hall. change (passes no_overrides p) with true.
    destruct (obj_get p (flatten address_tree)); reflexivity.
Defined.

(** ** Overrides, then emission: the [required] list of the wire schema *)

Lemma wire_required_toJsonSchema tree au :
  wire_required (toJsonSchema tree au) =
  required_names (match rt_children tree with Val m => m | _ => [] end).
Proof.
  rewrite toJsonSchema_unfold.
  destruct (rt_children tree) as [| |m]; try reflexivity.
  destruct (emit_entries_spec au m [] []) as [H _].
  destruct (emit_entries au m [] []) as [props req].
  simpl in H. subst req.
  destruct (required_names m) as [|x l]; [reflexivity|].
  cbv zeta. unfold wire_required, obj_set, obj_has. simpl.
  f_equal. rewrite map_map. apply map_id.
Qed.

Lemma attach_parts_NoDup parts rule ch ch' :
  attach_parts parts rule ch = Some ch' ->
  NoDup (obj_keys ch) -> NoDup (obj_keys ch').
Proof.
  intros H Hnd. destruct parts as [|seg [|seg' rest]].
  - simpl in H. injection H as <-. exact Hnd.
  - simpl in H. injection H as <-. apply obj_set_NoDup. exact Hnd.
  - rewrite attach_parts_cons in H by discriminate. cbv zeta in H.
    destruct (children _) as [| |m]; try discriminate.
    destruct (attach_parts (seg' :: rest) rule m); [|discriminate].
    injection H as <-. apply obj_set_NoDup. exact Hnd.
Qed.

Lemma rebuild_NoDup es : forall ch ch',
  rebuild es ch = Some ch' ->
  NoDup (obj_keys ch) -> NoDup (obj_keys ch').
Proof.
  induction es as [|[p r] es IH]; intros ch ch' H Hnd; simpl in H.
  - injection H as <-. exact Hnd.
  - destruct (attach_parts (split_dot p) r ch) as [ch1|] eqn:Hatt;
      [|discriminate].
    apply (IH ch1 ch' H). apply (attach_parts_NoDup _ _ _ _ Hatt Hnd).
Qed.

(** X28: overrides, then emission.  For a top-level field that the
    effective map of [applyOverrides] holds and that no other effective
    path runs into, the wire schema emitted for the returned tree lists
    the field in [required] exactly when the [required] of its effective
    rule is truthy: a field forced by [required] is listed, a field that is
    only in [optional] is not.  (Paths of plain names.) *)
Theorem wire_required_follows_rules
        (ruleTree : RuleTree) (o : Overrides) (tree : RuleTree)
        (allowUnknown : bool) (k : string) (r : Rule) :
  applyOverrides ruleTree o = Some tree ->
  plain_paths (candidate_paths ruleTree o) = true ->
  has_dot k = false ->
  obj_get k (effective_all ruleTree o) = Some r ->
  stands_alone k (effective_all ruleTree o) ->
  (In k (wire_required (toJsonSchema tree allowUnknown)) <->
   truthy_bool (required r) = true).
Proof.
  intros Happ _ Hk Hget Halone.
  pose proof (applyOverrides_rule_at ruleTree o tree k r Happ Hget Halone)
    as Hat.
  destruct (applyOverrides_children _ _ _ Happ) as [ch [Hre ->]].
  rewrite wire_required_toJsonSchema. cbn [rt_children].
  unfold rule_at in Hat. cbn [rt_children] in Hat.
  rewrite (split_dot_good k Hk) in Hat. simpl in Hat.
  assert (Hnd : NoDup (obj_keys ch)).
  { apply (rebuild_NoDup _ [] ch Hre). constructor. }
  rewrite required_names_iff. split.
  - intros [def [Hin Ht]].
    rewrite (obj_get_NoDup k def ch Hnd Hin) in Hat. congruence.
  - intros Ht. exists r. split; [|exact Ht].
    apply obj_get_In. exact Hat.
Qed.

Lemma wire_required_follows_rules_witness :
  exists tree,
    applyOverrides password_tree
      (mkOverrides Absent Absent (Val ["name"]) (Val ["password"]) Absent)
    = Some tree /\
    In "password" (wire_required (toJsonSchema tree false)) /\
    ~ In "name" (wire_required (toJsonSchema tree false)).
Proof.
  destruct (applyOverrides password_tree
              (mkOverrides Absent Absent (Val ["name"]) (Val ["password"])
                 Absent)) as [tree|] eqn:Happ;
    [|vm_compute in Happ; discriminate Happ].
  exists tree. split; [reflexivity|].
  split.
  - apply (proj2 (wire_required_follows_rules password_tree _ tree false
                    "password"
                    (set_required (Val true) (rule_of_type TString))
                    Happ eq_refl eq_refl eq_refl
                    ltac:(intros q Hq Hne; vm_compute in Hq;
                          destruct Hq as [<-|[<-|[]]];
                          [reflexivity|exfalso; apply Hne; reflexivity]))).
    reflexivity.
  - intros Hin.
    apply (proj1 (wire_required_follows_rules password_tree _ tree false
                    "name"
                    (set_required (Val false) (rule_of_type TString))
                    Happ eq_refl eq_refl eq_refl
                    ltac:(intros q Hq Hne; vm_compute in Hq;
                          destruct Hq as [<-|[<-|[]]];
                          [exfalso; apply Hne; reflexivity|reflexivity])))
      in Hin.
    discriminate Hin.
Defined.

(** ** Override engine: merging rules *)

Lemma spread_prop_assoc {A} (a b c : prop A) :
  spread_prop (spread_prop a b) c = spread_prop a (spread_prop b c).
Proof. destruct c; reflexivity. Qed.

Lemma spread_prop_idem {A} (a : prop A) : spread_prop a a = a.
Proof. destruct a; reflexivity. Qed.

Lemma spread_prop_absent_l {A} (a : prop A) : spread_prop Absent a = a.
Proof. destruct a; reflexivity. Qed.

(** X29: [mergeRules] is a spread of own properties.  Merging is
    associative, merging a rule with itself or with [{}] on either side
    gives the rule back, and in [mergeRules(defaults, rule)] every
    property the rule has wins, also one whose value is undefined: a
    field appended with [required: undefined] is not required, while one
    appended without the property is. *)
Theorem mergeRules_spread (a b c : Rule) :
  mergeRules (mergeRules a b) c = mergeRules a (mergeRules b c) /\
  mergeRules a a = a /\
  mergeRules a empty_rule = a /\
  mergeRules empty_rule a = a /\
  truthy_bool (required (mergeRules append_default a)) =
    match required a with
    | Absent => true
    | Undefined => false
    | Val flag => flag
    end /\
  type (mergeRules append_default a) =
    match type a with
    | Absent => Val TString
    | other => other
    end.
Proof.
  destruct a, b, c. unfold mergeRules, empty_rule. cbn.
  rewrite !spread_prop_assoc, !spread_prop_idem, !spread_prop_absent_l.
  repeat split.
  - destruct required0 as [| |[|]]; reflexivity.
  - destruct type0; reflexivity.
Qed.

(** ** Introspect, then flatten *)







(** * The override engine: paths that extend a rule *)

Lemma but_children_refl (r : Rule) : but_children r r.
Proof. exists (children r). destruct r; reflexivity. Qed.

Lemma but_children_set (r r' : Rule) (c : prop (Obj Rule)) :
  but_children r r' -> but_children r (set_children c r').
Proof. intros [c0 ->]. exists c. reflexivity. Qed.

Lemma attach_parts_through (pre : list string) :
  forall rest rule ch ch' n,
    pre <> [] -> rest <> [] ->
    attach_parts (pre ++ rest) rule ch = Some ch' ->
    rule_at_parts pre ch = Some n ->
    exists m', rule_at_parts pre ch' = Some (set_children (Val m') n).
Proof.
  induction pre as [|a pre IH]; intros rest rule ch ch' n Hpre Hrest H Hat;
    [congruence|].
  rewrite <- app_comm_cons in H.
  rewrite attach_parts_cons in H
    by (destruct pre; simpl; [exact Hrest|discriminate]).
  cbv zeta in H.
  destruct pre as [|a' pre'].
  - simpl in Hat. rewrite Hat in H.
    destruct (children n) as [| |m] eqn:Hch; try discriminate.
    simpl app in H.
    destruct (attach_parts rest rule m) as [m'|]; [|discriminate].
    injection H as <-. exists m'. simpl. apply obj_get_set_same.
  - rewrite rule_at_parts_cons in Hat.
    destruct (obj_get a ch) as [c|]; [|discriminate].
    destruct (children c) as [| |m] eqn:Hch; try discriminate.
    destruct (attach_parts ((a' :: pre') ++ rest) rule m) as [m'|] eqn:Hatt;
      [|discriminate].
    injection H as <-.
    assert (Hne : a' :: pre' <> []) by discriminate.
    destruct (IH rest rule m m' n Hne Hrest Hatt Hat) as [m2 Hm2].
    exists m2. rewrite rule_at_parts_cons, obj_get_set_same.
    simpl children. exact Hm2.
Qed.

Lemma proper_prefix_app (p : list string) : forall q,
  proper_prefix p q = true -> exists rest, rest <> [] /\ q = p ++ rest.
Proof.
  induction p as [|a p IH]; intros [|b q] H; simpl in H; try discriminate.
  - exists (b :: q). split; [discriminate|reflexivity].
  - apply andb_true_iff in H. destruct H as [E H].
    apply String.eqb_eq in E; subst b.
    destruct (IH q H) as [rest [Hne ->]].
    exists rest. split; [exact Hne|reflexivity].
Qed.

Lemma paths_compare (q : list string) : forall p,
  diverge q p = true \/ q = p \/
  proper_prefix q p = true \/ proper_prefix p q = true.
Proof.
  induction q as [|b q IH]; intros [|a p]; simpl.
  - right; left; reflexivity.
  - right; right; left; reflexivity.
  - right; right; right; reflexivity.
  - destruct (String.eqb_spec b a) as [Heq|Hne]; [|left; reflexivity].
    subst b. rewrite String.eqb_refl. simpl.
    destruct (IH p) as [H|[H|[H|H]]]; auto.
    right; left; congruence.
Qed.

Lemma attach_parts_facets (q p : list string) (v : Rule)
      (ch ch1 : Obj Rule) (r : Rule) :
  p <> [] -> q <> p -> proper_prefix q p = false ->
  attach_parts q v ch = Some ch1 ->
  (exists r', rule_at_parts p ch = Some r' /\ but_children r r') ->
  exists r', rule_at_parts p ch1 = Some r' /\ but_children r r'.
Proof.
  intros Hp Hne Hpre Hatt [r' [Hat Hb]].
  destruct (paths_compare q p) as [H|[H|[H|H]]].
  - exists r'. split; [|exact Hb].
    rewrite (attach_parts_other q p v ch ch1 H Hatt). exact Hat.
  - contradiction.
  - congruence.
  - destruct (proper_prefix_app p q H) as [rest [Hrest Heq]]. subst q.
    destruct (attach_parts_through p rest v ch ch1 r' Hp Hrest Hatt Hat)
      as [m' Hm'].
    exists (set_children (Val m') r'). split; [exact Hm'|].
    apply but_children_set; exact Hb.
Qed.

Lemma rebuild_facets_kept (es : Obj Rule) : forall ch ch' p r,
  rebuild es ch = Some ch' ->
  (forall q, In q (obj_keys es) ->
             q <> p /\ proper_prefix (split_dot q) (split_dot p) = false) ->
  (exists r', rule_at_parts (split_dot p) ch = Some r' /\
              but_children r r') ->
  exists r', rule_at_parts (split_dot p) ch' = Some r' /\ but_children r r'.
Proof.
  induction es as [|[q v] es IH]; intros ch ch' p r H Hall Hat; simpl in H.
  - injection H as <-. exact Hat.
  - destruct (attach_parts (split_dot q) v ch) as [ch1|] eqn:Hatt;
      [|discriminate].
    apply (IH ch1 ch' p r H).
    + intros q' Hq'. apply Hall. right. exact Hq'.
    + destruct (Hall q (or_introl eq_refl)) as [Hne Hpre].
      apply (attach_parts_facets (split_dot q) (split_dot p) v ch ch1 r);
        [apply split_dot_nonempty| |exact Hpre|exact Hatt|exact Hat].
      intros Heq. apply Hne. apply split_dot_inj. exact Heq.
Qed.

Lemma existsb_false_In {A} (f : A -> bool) (l : list A) (x : A) :
  existsb f l = false -> In x l -> f x = false.
Proof.
  intros H Hin. destruct (f x) eqn:E; [|reflexivity].
  assert (Ht : existsb f l = true)
    by (apply existsb_exists; exists x; split; assumption).
  congruence.
Qed.

Lemma rebuild_facets (es : Obj Rule) : forall ch ch' p r,
  NoDup (obj_keys es) ->
  In (p, r) es ->
  (forall q, In q (obj_keys es) ->
             proper_prefix (split_dot q) (split_dot p) = false) ->
  rebuild es ch = Some ch' ->
  exists r', rule_at_parts (split_dot p) ch' = Some r' /\ but_children r r'.
Proof.
  induction es as [|[q v] es IH]; intros ch ch' p r Hnd Hin Hall H;
    [destruct Hin|].
  simpl in H, Hnd.
  inversion Hnd as [|? ? Hq Hnd']; subst.
  destruct (attach_parts (split_dot q) v ch) as [ch1|] eqn:Hatt;
    [|discriminate].
  destruct (String.eqb_spec q p) as [Heq|Hne].
  - subst q.
    assert (v = r) as ->.
    { destruct Hin as [Heq|Hin]; [congruence|].
      exfalso. apply Hq. apply (in_map fst) in Hin. exact Hin. }
    apply (rebuild_facets_kept es ch1 ch' p r H).
    + intros q' Hq'. split.
      * intros ->. exact (Hq Hq').
      * apply Hall. right. exact Hq'.
    + exists r. split; [|apply but_children_refl].
      apply (attach_parts_same (split_dot p) r ch ch1);
        [apply split_dot_nonempty|exact Hatt].
  - destruct Hin as [Heq|Hin]; [congruence|].
    apply (IH ch1 ch' p r Hnd' Hin); [|exact H].
    intros q' Hq'. apply Hall. right. exact Hq'.
Qed.

Lemma applyOverrides_facets
      (ruleTree : RuleTree) (o : Overrides) (path : string) (r : Rule)
      (tree : RuleTree) :
  obj_get path (effective_all ruleTree o) = Some r ->
  shadowed path (effective_all ruleTree o) = false ->
  applyOverrides ruleTree o = Some tree ->
  exists r', rule_at path tree = Some r' /\ but_children r r'.
Proof.
  intros Hget Hover Happ.
  destruct (applyOverrides_children _ _ _ Happ) as [ch [Hre ->]].
  apply (rebuild_facets (effective_all ruleTree o) [] ch path r
           (effective_all_NoDup ruleTree o) (obj_get_In _ _ _ Hget)).
  - intros q Hq. exact (existsb_false_In _ _ q Hover Hq).
  - exact Hre.
Qed.

Lemma select_ab_fold (es : Obj Rule) : forall eff,
  NoDup (obj_keys es) ->
  fold_left (select_entry include_ab_exclude_b) es eff =
  match obj_get "a" es with
  | Some r => obj_set "a" r eff
  | None => eff
  end.
Proof.
  induction es as [|[path rule] es IH]; intros eff Hnd; [reflexivity|].
  simpl in Hnd. inversion Hnd as [|? ? Hk Hnd']; subst.
  cbn [fold_left]. rewrite (IH _ Hnd').
  cbn [obj_get].
  destruct (String.eqb_spec "a" path) as [Heq|Hne].
  - subst path.
    destruct (obj_get "a" es) as [r|] eqn:Hr.
    + exfalso. apply Hk. apply obj_has_In. unfold obj_has. rewrite Hr.
      reflexivity.
    + reflexivity.
  - assert (Hsel : select_entry include_ab_exclude_b eff (path, rule) = eff).
    { unfold select_entry; simpl.
      destruct (String.eqb_spec path "a") as [Heq|_]; [congruence|].
      destruct (String.eqb path "b"); reflexivity. }
    rewrite Hsel. reflexivity.
Qed.

(** * The claims on the tree [applyOverrides] returns *)

(** C1, amended: a path listed in both [optional] and [required] that
    survives the include/exclude filtering has [required = true] in the
    tree [applyOverrides] returns, provided [append] does not define the
    same path and no other path of the effective map is a proper dotted
    prefix of it (no path of the effective map having a segment
    ["__proto__"]).  Paths that extend it do no harm. *)
Theorem required_wins_over_optional
        (ruleTree : RuleTree) (o : Overrides) (path : string)
        (tree : RuleTree) :
  assignable_paths (obj_keys (effective_all ruleTree o)) = true ->
  In path (set_or_empty (optional o)) ->
  In path (set_or_empty (required_paths o)) ->
  In path (leaf_set_spec ruleTree o) ->
  obj_has path (match append o with Val m => m | _ => [] end) = false ->
  shadowed path (effective_all ruleTree o) = false ->
  applyOverrides ruleTree o = Some tree ->
  exists r, rule_at path tree = Some r /\ required r = Val true.
Proof.
  intros _ _ Hreq Hleaf Happend Hover Happ.
  apply leaf_set_spec_In, andb_true_iff in Hleaf.
  destruct Hleaf as [Hflat Hpass].
  apply str_mem_In in Hreq.
  destruct (select_fold_required o path (flatten ruleTree) []
              Hpass Hreq (or_introl Hflat)) as [r [Hget Hr]].
  assert (Hget' : obj_get path (effective_all ruleTree o) = Some r).
  { unfold effective_all. rewrite append_fold_other by exact Happend.
    exact Hget. }
  destruct (applyOverrides_facets ruleTree o path r tree Hget' Hover Happ)
    as [r' [Hat [c Hc]]].
  exists r'. split; [exact Hat|]. subst r'. exact Hr.
Qed.

Lemma required_wins_over_optional_witness :
  exists tree r,
    applyOverrides array_tie_tree array_tie_overrides = Some tree /\
    rule_at "a" tree = Some r /\ required r = Val true /\
    rule_at "a.x" tree <> None.
Proof.
  destruct (applyOverrides array_tie_tree array_tie_overrides)
    as [tree|] eqn:Happ; [|vm_compute in Happ; discriminate Happ].
  destruct (required_wins_over_optional array_tie_tree array_tie_overrides
              "a" tree) as [r [Hat Hr]].
  - reflexivity.
  - simpl; auto.
  - simpl; auto.
  - simpl; auto.
  - reflexivity.
  - reflexivity.
  - exact Happ.
  - exists tree, r. split; [reflexivity|]. split; [exact Hat|].
    split; [exact Hr|].
    vm_compute in Happ. injection Happ as <-. discriminate.
Defined.

(** C1 as stated fails: with ["a"] in [optional] and in [required], kept by
    the filter, and also appended as an optional string, the rule at ["a"]
    in the returned tree has [required = false]; and with ["a.b"] in both
    sets and kept by the filter while ["a"] is appended, the returned tree
    has no rule at ["a.b"]. *)
Lemma required_wins_fails_when_appended :
  (In "a" (set_or_empty (optional tie_append_overrides)) /\
   In "a" (set_or_empty (required_paths tie_append_overrides)) /\
   In "a" (leaf_set_spec tie_tree tie_append_overrides) /\
   exists tree r,
     applyOverrides tie_tree tie_append_overrides = Some tree /\
     rule_at "a" tree = Some r /\ required r = Val false) /\
  (In "a.b" (set_or_empty (optional tie_shadowed_overrides)) /\
   In "a.b" (set_or_empty (required_paths tie_shadowed_overrides)) /\
   In "a.b" (leaf_set_spec nested_tie_tree tie_shadowed_overrides) /\
   exists tree,
     applyOverrides nested_tie_tree tie_shadowed_overrides = Some tree /\
     rule_at "a.b" tree = None).
Proof.
  split.
  - repeat split; try (simpl; auto; fail).
    eexists. eexists. repeat split; reflexivity.
  - repeat split; try (simpl; auto; fail).
    eexists. split; reflexivity.
Qed.

(** C2, amended: on the tree [applyOverrides] returns.  A leaf path of the
    base tree that the include/exclude filter keeps (the flattened leaf
    paths, restricted to [include] when it is not empty, minus [exclude])
    holds a rule in the returned tree unless another path of the effective
    map is a proper dotted prefix of it; a path the filter does not keep
    holds no rule there when it is not appended and parts ways with every
    effective path (no path of the effective map having a segment
    ["__proto__"]).  With [include = ["a","b"]] and [exclude = ["b"]] the
    call returns for every base tree, and the returned tree holds the base
    rule of ["a"] and nothing else when ["a"] is a base leaf, and nothing
    at all otherwise. *)
Theorem retained_leaf_set (ruleTree : RuleTree) (o : Overrides) (p : string) :
  (forall tree,
     assignable_paths (obj_keys (effective_all ruleTree o)) = true ->
     applyOverrides ruleTree o = Some tree ->
     (In p (leaf_set_spec ruleTree o) ->
      shadowed p (effective_all ruleTree o) = false ->
      exists r, rule_at p tree = Some r) /\
     (~ In p (leaf_set_spec ruleTree o) ->
      obj_has p (match append o with Val m => m | _ => [] end) = false ->
      stands_alone p (effective_all ruleTree o) ->
      rule_at p tree = None)) /\
  (exists tree,
     applyOverrides ruleTree include_ab_exclude_b = Some tree /\
     rule_at "b" tree = None /\
     rt_children tree =
     Val (match obj_get "a" (flatten ruleTree) with
          | Some r => [("a", r)]
          | None => []
          end)).
Proof.
  split.
  - intros tree _ Happ. split.
    + intros Hleaf Hover.
      apply leaf_set_spec_In in Hleaf.
      assert (Hhas : obj_has p (effective_all ruleTree o) = true).
      { rewrite effective_all_has, Hleaf. reflexivity. }
      unfold obj_has in Hhas.
      destruct (obj_get p (effective_all ruleTree o)) as [r|] eqn:Hget;
        [|discriminate].
      destruct (applyOverrides_facets ruleTree o p r tree Hget Hover Happ)
        as [r' [Hat _]].
      exists r'. exact Hat.
    + intros Hleaf Happend Halone.
      apply (rejected_path_absent ruleTree o p tree);
        [|exact Happend|exact Halone|exact Happ].
      destruct (obj_has p (flatten ruleTree) && passes o p) eqn:E;
        [|reflexivity].
      exfalso. apply Hleaf. apply leaf_set_spec_In. exact E.
  - unfold applyOverrides, effective_all, effective_base.
    cbn [append include_ab_exclude_b fold_left].
    rewrite (select_ab_fold (flatten ruleTree) [] (flatten_NoDup ruleTree)).
    destruct (obj_get "a" (flatten ruleTree)) as [r|].
    + eexists. split; [reflexivity|]. split; reflexivity.
    + eexists. split; [reflexivity|]. split; reflexivity.
Qed.

Lemma retained_leaf_set_witness :
  exists tree,
    applyOverrides abc_tree include_ab_exclude_b = Some tree /\
    (exists r, rule_at "a" tree = Some r) /\
    rule_at "b" tree = None /\ rule_at "c" tree = None.
Proof.
  destruct (applyOverrides abc_tree include_ab_exclude_b)
    as [tree|] eqn:Happ; [|vm_compute in Happ; discriminate Happ].
  exists tree. split; [reflexivity|].
  split; [|split].
  - apply (proj1 (proj1 (retained_leaf_set abc_tree include_ab_exclude_b "a")
                    tree eq_refl Happ)).
    + simpl; auto.
    + reflexivity.
  - apply (proj2 (proj1 (retained_leaf_set abc_tree include_ab_exclude_b "b")
                    tree eq_refl Happ)).
    + simpl. intros [H|[]]. discriminate H.
    + reflexivity.
    + intros q Hq Hne. vm_compute in Hq. destruct Hq as [<-|[]]. reflexivity.
  - apply (proj2 (proj1 (retained_leaf_set abc_tree include_ab_exclude_b "c")
                    tree eq_refl Happ)).
    + simpl. intros [H|[]]. discriminate H.
    + reflexivity.
    + intros q Hq Hne. vm_compute in Hq. destruct Hq as [<-|[]]. reflexivity.
Defined.

(** C2 as stated fails on the returned tree: the leaf ["a.b"] of the base
    tree passes the filter of overrides that have no [include] and no
    [exclude], yet once ["a"] is appended the returned tree holds the
    appended ["a"] alone, and no rule at ["a.b"]. *)
Lemma retained_leaf_lost_when_shadowed :
  In "a.b" (leaf_set_spec nested_tie_tree shadowed_leaf_overrides) /\
  exists tree,
    applyOverrides nested_tie_tree shadowed_leaf_overrides = Some tree /\
    rule_at "a.b" tree = None /\
    rt_children tree = Val [("a", set_required (Val true)
                                    (rule_of_type TString))].
Proof.
  split; [simpl; auto|].
  eexists. split; [reflexivity|]. split; reflexivity.
Qed.



